(** * Token fetch engine: a shallow embedding of [core/token_fetcher.py]

    The development follows the source file: configuration, the rate-limit
    coordinator, the per-record fetcher with its per-item timeout, the
    request distributor, the batch scheduler, the result sink and the region
    and run orchestrators.

    Conventions.  Durations are seconds, kept as exact rationals.  A
    coroutine is a function on the state it shares with the other coroutines
    and on its own clock, cancelled at a deadline that its caller fixes; what
    the network and the random generator contribute is an explicit argument.
    Coroutines that run concurrently are serialised one after the other on
    the shared state, while each keeps its own clock.  Python 3.8 or later
    is assumed ([asyncio.CancelledError] is not an [Exception]).  The
    dashboard log ([LogCollector]) and the progress tracker never feed back
    into the engine; they are modelled on their own, and the engine is
    modelled without its logging calls. *)

From Stdlib Require Import ZArith QArith Lqa Bool List Ascii String Sorted.
From stdpp Require Import gmap strings list pretty.

Local Open Scope Z_scope.

(** ** Configuration (module level constants of the source) *)

Definition API_URLS : list string :=
  [ "https://jwt.tsunstudio.pw/v1/auth/saeed?uid={uid}&password={password}"%string;
    "https://tsun-ff-jwt-api.onrender.com/v1/auth/saeed?uid={uid}&password={password}"%string;
    "https://jwt-tsunstudio.onrender.com/v1/auth/saeed?uid={uid}&password={password}"%string ].

Definition MAX_CONCURRENT_PER_API : nat := 30.
Definition BATCH_SIZE : nat := 30.
Definition BATCH_DELAY : Q := 2.
Definition MAX_RETRIES : nat := 15.
Definition INITIAL_DELAY : Z := 5.
Definition MAX_DELAY : Z := 120.
Definition GITHUB_MAX_RETRIES : nat := 15.

(** Timeouts that the source writes as literals at their use sites. *)
Definition REQUEST_TIMEOUT : Q := 30.
Definition ITEM_TIMEOUT : Q := 180.
Definition PAUSE_DURATION : Q := 5.
Definition PAUSE_BUFFER : Q := 1 # 10.

(** ** Python floats *)

Module Float.

(** A Python float is an IEEE 754 binary64 number, and the float
    operations of the engine return the binary64 number nearest to the
    exact result, a tie going to the one with the even significand.  The
    finite binary64 numbers are rationals; magnitudes of [2^1024] and more,
    which no delay of the engine reaches, are not modelled. *)

(** The integer nearest to the non-negative fraction [num / den], a tie
    going to the even one. *)
Definition nearest_even (num : Z) (den : positive) : Z :=
  let f := num / Zpos den in
  let r := num mod Zpos den in
  match 2 * r ?= Zpos den with
  | Lt => f
  | Gt => f + 1
  | Eq => if Z.even f then f else f + 1
  end.

(** [floor (log2 x)] for [0 < x]. *)
Definition exponent (x : Q) : Z :=
  let e := Z.log2 (Qnum x) - Z.log2 (Zpos (Qden x)) in
  let reached := if e <? 0
                 then Zpos (Qden x) <=? Qnum x * 2 ^ (- e)
                 else Zpos (Qden x) * 2 ^ e <=? Qnum x in
  if reached then e else e - 1.

(** The exponent of the unit in the last place around [x]: 53 significant
    bits, and [2^-1074] throughout the subnormal range. *)
Definition ulp_exponent (x : Q) : Z := Z.max (exponent x - 52) (-1074).

(** [m * 2^q] *)
Definition scaled (m q : Z) : Q :=
  if q <? 0 then Qmake m (Z.to_pos (2 ^ (- q))) else inject_Z (m * 2 ^ q).

(** The binary64 number nearest to [x], for [0 < x]. *)
Definition round_pos (x : Q) : Q :=
  let q := ulp_exponent x in
  let m := if q <? 0
           then nearest_even (Qnum x * 2 ^ (- q)) (Qden x)
           else nearest_even (Qnum x) (Qden x * Z.to_pos (2 ^ q)) in
  Qred (scaled m q).

Definition round (x : Q) : Q :=
  match Qnum x with
  | Z0 => 0
  | Zpos _ => round_pos x
  | Zneg _ => - round_pos (- x)
  end.

(** [x + y] on floats. *)
Definition add (x y : Q) : Q := round (x + y).

End Float.

(** ** Backoff *)

Module Backoff.

(** [min(INITIAL_DELAY * (2 ** (attempt - 1)), MAX_DELAY)], on Python's
    unbounded integers; only evaluated for [attempt > 0]. *)
Definition base_delay (attempt : nat) : Z :=
  Z.min (INITIAL_DELAY * 2 ^ (Z.of_nat attempt - 1)) MAX_DELAY.

(** [fetch_token], lines 197-200: the time slept before attempt number
    [attempt]; [jitter] is the float drawn by [random.uniform(0, 5)], and
    [base_delay + random.uniform(0, 5)] is a float sum. *)
Definition fetch_token_delay (attempt : nat) (jitter : Q) : Q :=
  if (0 <? attempt)%nat
  then Float.add (inject_Z (base_delay attempt)) jitter
  else 0.

(** [push_to_github], lines 290-292: the same computation, written on one
    line in the source. *)
Definition push_to_github_delay (attempt : nat) (jitter : Q) : Q :=
  if (0 <? attempt)%nat
  then Float.add
         (inject_Z (Z.min (INITIAL_DELAY * 2 ^ (Z.of_nat attempt - 1)) MAX_DELAY))
         jitter
  else 0.

(** The draw of [random.uniform(0, 5)]: [0 + 5 * random()] with
    [random()] in [[0, 1)]; the largest draw is the largest float below 5,
    [5 - 2^-50]. *)
Definition jitter_in_range (jitter : Q) : Prop := (0 <= jitter /\ jitter < 5)%Q.

End Backoff.

(** ** asyncio.Event, restricted to what the engine calls *)

Module Event.

Record t := { flag : bool }.

Definition new : t := {| flag := false |}.
Definition is_set (e : t) : bool := flag e.
Definition set (e : t) : t := {| flag := true |}.
Definition clear (e : t) : t := {| flag := false |}.

(** [Event.wait()] returns [True] at once when the flag is set and
    otherwise suspends the caller until somebody calls [set()]. *)
Inductive wait_outcome := ReturnsAtOnce | SuspendsUntilSet.

Definition wait (e : t) : wait_outcome :=
  if flag e then ReturnsAtOnce else SuspendsUntilSet.

End Event.

(** ** Rate-limit coordinator *)

(** [self.lock] guards the body of [handle_rate_limit]; the body has no
    suspension point, so every call is one atomic transition of the two
    flags and the lock is free again when the call returns. *)
Record RateLimitManager := {
  first_error_occurred : Event.t;
  pause_in_progress : bool
}.

Definition RateLimitManager_init : RateLimitManager :=
  {| first_error_occurred := Event.new; pause_in_progress := false |}.

Definition handle_rate_limit (self : RateLimitManager) (uid : string)
  : RateLimitManager * bool :=
  if negb (Event.is_set (first_error_occurred self))
  then ({| first_error_occurred := Event.set (first_error_occurred self);
           pause_in_progress := true |}, true)
  else (self, false).

Definition reset (self : RateLimitManager) : RateLimitManager :=
  {| first_error_occurred := Event.clear (first_error_occurred self);
     pause_in_progress := false |}.

(** [rate_limit_manager.pause_in_progress = False], the last statement of the
    pause broadcast in [fetch_token] (line 229). *)
Definition end_pause (self : RateLimitManager) : RateLimitManager :=
  {| first_error_occurred := first_error_occurred self;
     pause_in_progress := false |}.

(** The coordinator is Open when no overload has been recorded. *)
Definition is_open (self : RateLimitManager) : bool :=
  negb (Event.is_set (first_error_occurred self)).

(** Operations that reach one coordinator during one pause cycle (no
    [reset]): overload reports, and the end of the broadcast by the caller
    that was first. *)
Inductive cycle_op :=
| ReportOverload (uid : string)
| EndPause.

(** Runs the operations in the order in which the event loop executes them
    and collects what each [handle_rate_limit] call returned. *)
Fixpoint run_cycle (self : RateLimitManager) (ops : list cycle_op)
  : RateLimitManager * list bool :=
  match ops with
  | [] => (self, [])
  | ReportOverload uid :: ops' =>
      let '(self1, is_first) := handle_rate_limit self uid in
      let '(self2, rs) := run_cycle self1 ops' in
      (self2, is_first :: rs)
  | EndPause :: ops' => run_cycle (end_pause self) ops'
  end.

Definition count_first (rs : list bool) : nat :=
  length (filter (fun b => b = true) rs).

Definition is_report (op : cycle_op) : bool :=
  match op with
  | ReportOverload _ => true
  | EndPause => false
  end.

Definition count_reports (ops : list cycle_op) : nat :=
  length (filter (fun op => is_report op = true) ops).

(** ** Region run stats: the shared [stats] dict

    The dict is emptied when a run starts ([stats.clear()]) and from then on
    only this module writes it, always the same eight keys and each with one
    type; a field is [None] while its key is absent. *)

Record Stats := {
  current_region : option string;
  total : option Z;
  completed : option Z;
  success : option Z;
  failed : option Z;
  timed_out : option Z;
  api_usage : option (gmap string Z);
  rate_limit_manager : option RateLimitManager
}.

Definition Stats_empty : Stats :=
  {| current_region := None; total := None; completed := None;
     success := None; failed := None; timed_out := None;
     api_usage := None; rate_limit_manager := None |}.

Definition set_current_region (v : option string) (s : Stats) : Stats :=
  {| current_region := v; total := total s; completed := completed s;
     success := success s; failed := failed s; timed_out := timed_out s;
     api_usage := api_usage s; rate_limit_manager := rate_limit_manager s |}.

Definition set_total (v : option Z) (s : Stats) : Stats :=
  {| current_region := current_region s; total := v; completed := completed s;
     success := success s; failed := failed s; timed_out := timed_out s;
     api_usage := api_usage s; rate_limit_manager := rate_limit_manager s |}.

Definition set_completed (v : option Z) (s : Stats) : Stats :=
  {| current_region := current_region s; total := total s; completed := v;
     success := success s; failed := failed s; timed_out := timed_out s;
     api_usage := api_usage s; rate_limit_manager := rate_limit_manager s |}.

Definition set_success (v : option Z) (s : Stats) : Stats :=
  {| current_region := current_region s; total := total s;
     completed := completed s; success := v; failed := failed s;
     timed_out := timed_out s; api_usage := api_usage s;
     rate_limit_manager := rate_limit_manager s |}.

Definition set_failed (v : option Z) (s : Stats) : Stats :=
  {| current_region := current_region s; total := total s;
     completed := completed s; success := success s; failed := v;
     timed_out := timed_out s; api_usage := api_usage s;
     rate_limit_manager := rate_limit_manager s |}.

Definition set_timed_out (v : option Z) (s : Stats) : Stats :=
  {| current_region := current_region s; total := total s;
     completed := completed s; success := success s; failed := failed s;
     timed_out := v; api_usage := api_usage s;
     rate_limit_manager := rate_limit_manager s |}.

Definition set_api_usage (v : option (gmap string Z)) (s : Stats) : Stats :=
  {| current_region := current_region s; total := total s;
     completed := completed s; success := success s; failed := failed s;
     timed_out := timed_out s; api_usage := v;
     rate_limit_manager := rate_limit_manager s |}.

Definition set_rate_limit_manager (v : option RateLimitManager) (s : Stats)
  : Stats :=
  {| current_region := current_region s; total := total s;
     completed := completed s; success := success s; failed := failed s;
     timed_out := timed_out s; api_usage := api_usage s;
     rate_limit_manager := v |}.

(** ** Exceptions and the task monad *)

Inductive exn :=
| KeyError (key : string)
| CancelledError
| TimeoutError
| ClientConnectorError
| JSONDecodeError.

(** [asyncio.CancelledError] derives from [BaseException]; an
    [except Exception] clause lets it through. *)
Definition is_Exception (e : exn) : bool :=
  match e with
  | CancelledError => false
  | _ => true
  end.

Inductive result (A : Type) :=
| Ok (a : A)
| Raise (e : exn).
Arguments Ok {A} a.
Arguments Raise {A} e.

(** What one coroutine sees: the two objects it shares with the other
    coroutines of the region, and the time since it was started. *)
Record Task := {
  stats : Stats;
  pause_event : Event.t;
  clock : Q
}.

Definition with_stats (s : Stats) (t : Task) : Task :=
  {| stats := s; pause_event := pause_event t; clock := clock t |}.
Definition with_pause_event (e : Event.t) (t : Task) : Task :=
  {| stats := stats t; pause_event := e; clock := clock t |}.
Definition with_clock (c : Q) (t : Task) : Task :=
  {| stats := stats t; pause_event := pause_event t; clock := c |}.

Definition M (A : Type) : Type := Task -> Task * result A.

Definition ret {A} (a : A) : M A := fun t => (t, Ok a).
Definition raise {A} (e : exn) : M A := fun t => (t, Raise e).
Definition bind {A B} (m : M A) (k : A -> M B) : M B :=
  fun t => match m t with
           | (t1, Ok a) => k a t1
           | (t1, Raise e) => (t1, Raise e)
           end.

Notation "x <~ m ;; k" := (bind m (fun x => k))
  (at level 100, m at next level, right associativity).
Notation "m ;;; k" := (bind m (fun _ => k))
  (at level 100, right associativity).

(** [try: body except Exception: handler] *)
Definition try_except_Exception {A} (body : M A) (handler : exn -> M A) : M A :=
  fun t => match body t with
           | (t1, Raise e) => if is_Exception e then handler e t1 else (t1, Raise e)
           | r => r
           end.

(** [try: body except asyncio.TimeoutError: handler] *)
Definition try_except_TimeoutError {A} (body : M A) (handler : M A) : M A :=
  fun t => match body t with
           | (t1, Raise TimeoutError) => handler t1
           | r => r
           end.

(** [await asyncio.sleep(d)] inside a coroutine that the enclosing
    [wait_for] cancels at [deadline]: the sleep is cut short when the
    deadline comes first. *)
Definition sleep (deadline : Q) (d : Q) : M unit :=
  fun t => if Qle_bool deadline (clock t + d)
           then (with_clock deadline t, Raise CancelledError)
           else (with_clock (clock t + d) t, Ok tt).

(** [asyncio.wait_for(body, timeout)]: cancels [body] at the deadline and
    reports the cancellation as [TimeoutError]. *)
Definition wait_for {A} (body : Q -> M A) (timeout : Q) : M A :=
  fun t => match body (clock t + timeout)%Q t with
           | (t1, Raise CancelledError) => (t1, Raise TimeoutError)
           | r => r
           end.

(** [stats[key] += 1] for the counters. *)
Definition incr (key : string) (get : Stats -> option Z)
    (set : option Z -> Stats -> Stats) : M unit :=
  fun t => match get (stats t) with
           | Some n => (with_stats (set (Some (n + 1)) (stats t)) t, Ok tt)
           | None => (t, Raise (KeyError key))
           end.

Definition incr_success : M unit := incr "success" success set_success.
Definition incr_failed : M unit := incr "failed" failed set_failed.
Definition incr_completed : M unit := incr "completed" completed set_completed.

(** [stats['timed_out'] = stats.get('timed_out', 0) + 1] *)
Definition incr_timed_out : M unit :=
  fun t => (with_stats
              (set_timed_out (Some (default 0 (timed_out (stats t)) + 1)) (stats t))
              t, Ok tt).

(** [stats.setdefault('api_usage', {})] followed by
    [stats['api_usage'][api_name] = stats['api_usage'].get(api_name, 0) + 1] *)
Definition record_api_usage (api_name : string) : M unit :=
  fun t => let usage := default ∅ (api_usage (stats t)) in
           let n := default 0 (usage !! api_name) in
           (with_stats
              (set_api_usage (Some (<[api_name := n + 1]> usage)) (stats t)) t,
            Ok tt).

(** ** The upstream endpoint, as one request observes it *)

Inductive json_body :=
| Undecodable
| Body (token_field : option string).

Inductive response :=
| Response (status : Z) (body : json_body)
| ConnectionFails.

(** What the outside world contributes to one attempt: the jitter drawn
    before it, the time the GET (with its JSON body) takes, and what comes
    back.  [Undecodable]: [resp.json()] raises; [Body v]: [v] is
    [data.get("token")]. *)
Record attempt_env := {
  jitter : Q;
  latency : Q;
  answer : response
}.

(** The dict [{"token": token}] that a successful fetch returns. *)
Record TokenResult := { token : string }.

(** [if token:] on the value of [data.get("token")] *)
Definition truthy (tok : option string) : option string :=
  match tok with
  | Some s => if String.eqb s "" then None else Some s
  | None => None
  end.

(** [session.get(url, ssl=False, timeout=30)] and, for the caller's sake,
    the body read that follows it. *)
Definition session_get (deadline : Q) (e : attempt_env) : M response :=
  if Qle_bool REQUEST_TIMEOUT (latency e)
  then sleep deadline REQUEST_TIMEOUT ;;; raise TimeoutError
  else sleep deadline (latency e) ;;; ret (answer e).

Definition get_manager : M (option RateLimitManager) :=
  fun t => (t, Ok (rate_limit_manager (stats t))).
Definition modify_manager (f : RateLimitManager -> RateLimitManager) : M unit :=
  fun t => (with_stats
              (set_rate_limit_manager (f <$> rate_limit_manager (stats t)) (stats t))
              t, Ok tt).
Definition get_pause_event : M Event.t := fun t => (t, Ok (pause_event t)).
Definition modify_pause_event (f : Event.t -> Event.t) : M unit :=
  fun t => (with_pause_event (f (pause_event t)) t, Ok tt).

(** A coroutine parked on something nobody in the model triggers stays
    parked until the enclosing [wait_for] cancels it. *)
Definition park (deadline : Q) : M unit :=
  fun t => (with_clock deadline t, Raise CancelledError).

(** [fetch_token], lines 221-233: the reaction to HTTP 429. *)
Definition coordinate_pause (deadline : Q) (uid : string) : M unit :=
  manager <~ get_manager ;;
  match manager with
  | None => ret tt
  | Some m =>
      let '(m1, is_first) := handle_rate_limit m uid in
      modify_manager (fun _ => m1) ;;;
      if is_first then
        modify_pause_event Event.set ;;;
        sleep deadline PAUSE_DURATION ;;;
        modify_pause_event Event.clear ;;;
        modify_manager end_pause
      else
        ev <~ get_pause_event ;;
        if Event.is_set ev then
          match Event.wait ev with
          | Event.ReturnsAtOnce => sleep deadline PAUSE_BUFFER
          | Event.SuspendsUntilSet => park deadline
          end
        else ret tt
  end.

(** The body of the [try] block of one loop iteration; [Some r] when the
    function returns [r] from inside the loop, [None] when control falls
    through to the end of the iteration.  The suspension points are the
    back-off sleep, the request, and those of the 429 branch; leaving the
    [async with] block on [return] is taken not to suspend. *)
Definition attempt_body (deadline : Q) (uid api_name : string)
    (attempt : nat) (e : attempt_env) : M (option TokenResult) :=
  (if (0 <? attempt)%nat
   then sleep deadline (Backoff.fetch_token_delay attempt (jitter e))
   else ret tt) ;;;
  resp <~ session_get deadline e ;;
  match resp with
  | ConnectionFails => raise ClientConnectorError
  | Response status body =>
      if status =? 200 then
        match body with
        | Undecodable => raise JSONDecodeError
        | Body tok =>
            match truthy tok with
            | Some s =>
                incr_success ;;;
                incr_completed ;;;
                record_api_usage api_name ;;;
                ret (Some {| token := s |})
            | None => ret None
            end
        end
      else if status =? 429 then
        coordinate_pause deadline uid ;;; ret None
      else ret None
  end.

(** [for attempt in range(MAX_RETRIES)]: [remaining] counts the iterations
    that are left, [attempt] is the loop variable. *)
Fixpoint retry_loop (remaining : nat) (attempt : nat) (deadline : Q)
    (uid api_name : string) (env : nat -> attempt_env)
  : M (option TokenResult) :=
  match remaining with
  | O => ret None
  | S remaining' =>
      r <~ try_except_Exception
             (attempt_body deadline uid api_name attempt (env attempt))
             (fun _ => ret None) ;;
      match r with
      | Some tok => ret (Some tok)
      | None =>
          if (attempt =? MAX_RETRIES - 1)%nat then ret None
          else retry_loop remaining' (S attempt) deadline uid api_name env
      end
  end.

(** [fetch_token]: the URL built from [api_url], [uid] and [password] only
    decides which [env] answers. *)
Definition fetch_token (deadline : Q) (uid api_name : string)
    (env : nat -> attempt_env) : M (option TokenResult) :=
  r <~ retry_loop MAX_RETRIES 0 deadline uid api_name env ;;
  match r with
  | Some tok => ret (Some tok)
  | None => incr_failed ;;; incr_completed ;;; ret None
  end.

Definition fetch_token_with_timeout (uid api_name : string)
    (env : nat -> attempt_env) (timeout : Q) : M (option TokenResult) :=
  try_except_TimeoutError
    (wait_for (fun deadline => fetch_token deadline uid api_name env) timeout)
    (incr_failed ;;; incr_completed ;;; incr_timed_out ;;; ret None).

(** ** Records and their distribution over the endpoints *)

Record Account := {
  uid : string;
  password : string
}.

(** The Python slice [l[start:stop]] for [0 <= start] and [0 <= stop]. *)
Definition slice {A} (l : list A) (start stop : nat) : list A :=
  drop start (take stop l).

(** The loop of [distribute_accounts_across_apis]; [i] and [start_idx] are
    the loop variables, [urls] what is left of the enumeration. *)
Fixpoint distribute_loop {A} (accounts : list A) (accounts_per_api remainder : nat)
    (i start_idx : nat) (urls : list string)
  : list (string * string * list A) :=
  match urls with
  | [] => []
  | api_url :: urls' =>
      let group_size :=
        (accounts_per_api + (if (i <? remainder)%nat then 1 else 0))%nat in
      let end_idx := (start_idx + group_size)%nat in
      let api_name := ("API_" +:+ pretty (i + 1)%nat)%string in
      let accounts_group := slice accounts start_idx end_idx in
      (api_url, api_name, accounts_group)
        :: distribute_loop accounts accounts_per_api remainder (S i) end_idx urls'
  end.

(** The function for any configured endpoint list.  Python raises
    [ZeroDivisionError] for an empty list; Rocq's division by zero gives 0
    and the loop then runs over no endpoint. *)
Definition distribute_over {A} (urls : list string) (accounts : list A)
  : list (string * string * list A) :=
  let total := length accounts in
  let accounts_per_api := (total / length urls)%nat in
  let remainder := (total mod length urls)%nat in
  distribute_loop accounts accounts_per_api remainder 0 0 urls.

Definition distribute_accounts_across_apis {A} (accounts : list A)
  : list (string * string * list A) :=
  distribute_over API_URLS accounts.

(** The size that the loop gives to the shard of endpoint number [i]
    (counted from 0). *)
Definition group_size (accounts_per_api remainder i : nat) : nat :=
  (accounts_per_api + (if (i <? remainder)%nat then 1 else 0))%nat.

Definition shard {A} (d : string * string * list A) : list A := snd d.
Definition shard_sizes {A} (ds : list (string * string * list A)) : list nat :=
  map (fun d => length (shard d)) ds.
Definition sum_sizes (sizes : list nat) : nat := foldr Nat.add 0%nat sizes.

(** ** Batch scheduler *)

(** The answers of the endpoints, by endpoint name, record and attempt. *)
Definition Network : Type := string -> Account -> nat -> attempt_env.

Definition REGION_TIMEOUT : Q := 1200.

(** [fetch_token_with_timeout] inside a coroutine that an enclosing
    [wait_for] cancels at [cut]: the inner fetch is cancelled by whichever
    timer comes first, its own or the enclosing one, and a cancellation
    from outside travels through the inner [wait_for] as [CancelledError],
    which the [except asyncio.TimeoutError] clause does not catch. *)
Definition fetch_token_with_timeout_under (cut : Q) (uid api_name : string)
    (env : nat -> attempt_env) (timeout : Q) : M (option TokenResult) :=
  fun t =>
    if Qle_bool (clock t + timeout) cut
    then fetch_token_with_timeout uid api_name env timeout t
    else fetch_token cut uid api_name env t.

(** The later of two instants. *)
Definition later (a b : Q) : Q := if Qle_bool a b then b else a.

(** The children of an [asyncio.gather]: each is a task of its own, with a
    clock that starts at 0 when the gather starts, and [cut] is the
    deadline of the awaiting coroutine on that clock.  The children share
    the dict and the pause event; their steps are serialised child by child
    in list order.  Every child runs; the first exception in list order is
    what the awaiting coroutine sees, and the third component is the time
    at which the last child is over. *)
Fixpoint run_children {B} (cut : Q) (children : list (Q -> M B))
    (st : Stats) (ev : Event.t) : Stats * Event.t * Q * result (list B) :=
  match children with
  | [] => (st, ev, 0%Q, Ok [])
  | child :: rest =>
      let '(t1, r) := child cut {| stats := st; pause_event := ev; clock := 0 |} in
      let '(st2, ev2, took, rs) :=
        run_children cut rest (stats t1) (pause_event t1) in
      (st2, ev2, later (clock t1) took,
       match r, rs with
       | Ok b, Ok bs => Ok (b :: bs)
       | Raise e, _ => Raise e
       | Ok _, Raise e => Raise e
       end)
  end.

(** [await asyncio.gather] over the children, in a coroutine that is
    cancelled at [deadline]. *)
Definition gather {B} (deadline : Q) (children : list (Q -> M B)) : M (list B) :=
  fun t =>
    let '(st, ev, took, rs) :=
      run_children (deadline - clock t)%Q children (stats t) (pause_event t) in
    ({| stats := st; pause_event := ev; clock := (clock t + took)%Q |}, rs).

(** [range(0, stop, step)] *)
Definition range_step (stop step : nat) : list nat :=
  map (fun j => (j * step)%nat) (seq 0 ((stop + step - 1) / step)).

(** [bounded_fetch]: the semaphore has [MAX_CONCURRENT_PER_API] permits and
    is created anew for every batch of at most [BATCH_SIZE] records, so
    acquiring it never waits. *)
Definition bounded_fetch (net : Network) (api_name : string) (acc : Account)
  : Q -> M (option TokenResult) :=
  fun cut =>
    fetch_token_with_timeout_under cut (uid acc) api_name (net api_name acc)
      ITEM_TIMEOUT.

(** The loop of [process_api_batch] over the batch start indices. *)
Fixpoint batch_loop (deadline : Q) (net : Network) (api_name : string)
    (accounts : list Account) (batch_idxs : list nat)
    (all_results : list (option TokenResult))
  : M (list (option TokenResult)) :=
  match batch_idxs with
  | [] => ret all_results
  | batch_idx :: rest =>
      let batch := slice accounts batch_idx (batch_idx + BATCH_SIZE) in
      batch_results <~ gather deadline (map (bounded_fetch net api_name) batch) ;;
      (if (batch_idx + BATCH_SIZE <? length accounts)%nat
       then sleep deadline BATCH_DELAY
       else ret tt) ;;;
      batch_loop deadline net api_name accounts rest (all_results ++ batch_results)
  end.

Definition process_api_batch (deadline : Q) (net : Network) (api_name : string)
    (accounts : list Account) : M (list (option TokenResult)) :=
  match accounts with
  | [] => ret []
  | _ =>
      let total_accounts := length accounts in
      batch_loop deadline net api_name accounts
        (range_step total_accounts BATCH_SIZE) []
  end.

(** ** Result sink *)

(** What the content store contributes to one attempt of [push_to_github]:
    the jitter drawn before it, the version marker that
    [get_github_file_sha] reads, and the status of the PUT ([None] when the
    request raises). *)
Record put_env := {
  put_jitter : Q;
  sha : option string;
  put_status : option Z
}.

(** [for attempt in range(GITHUB_MAX_RETRIES)]; the second component is the
    time slept in back-off so far. *)
Fixpoint push_loop (remaining attempt : nat) (env : nat -> put_env) (slept : Q)
  : bool * Q :=
  match remaining with
  | O => (false, slept)
  | S remaining' =>
      let slept1 :=
        if (0 <? attempt)%nat
        then (slept + Backoff.push_to_github_delay attempt (put_jitter (env attempt)))%Q
        else slept in
      match put_status (env attempt) with
      | Some status =>
          if (status =? 200) || (status =? 201) then (true, slept1)
          else push_loop remaining' (S attempt) env slept1
      | None => push_loop remaining' (S attempt) env slept1
      end
  end.

(** [if not GITHUB_TOKEN] *)
Definition configured (github_token : option string) : bool :=
  match github_token with
  | Some s => negb (String.eqb s "")
  | None => false
  end.

Definition push_to_github (github_token : option string) (env : nat -> put_env)
  : bool :=
  if configured github_token
  then fst (push_loop GITHUB_MAX_RETRIES 0 env 0)
  else false.

(** ** Region orchestrator *)

(** An element of the JSON array of an accounts file. *)
Inductive raw_account :=
| Dict (uid_field password_field : option string)
| NotADict.

(** [isinstance(acc, dict) and 'uid' in acc and 'password' in acc] *)
Definition validate (acc : raw_account) : option Account :=
  match acc with
  | Dict (Some u) (Some p) => Some {| uid := u; password := p |}
  | _ => None
  end.

(** [str.upper()] on the letters a-z. *)
Definition upper_ascii (c : ascii) : ascii :=
  let n := nat_of_ascii c in
  if ((97 <=? n) && (n <=? 122))%nat then ascii_of_nat (n - 32) else c.

Fixpoint upper (s : string) : string :=
  match s with
  | EmptyString => EmptyString
  | String c s' => String (upper_ascii c) (upper s')
  end.

(** The summary returned upward; [success_rate] and [duration] are
    floating-point presentations of these counts and of the wall clock and
    are not carried. *)
Record RegionResult := {
  result_region : string;
  result_total : nat;
  result_success : nat;
  result_failed : nat
}.

(** One accounts file and the world around its processing: [region] is the
    lower-cased last segment of the file stem, [loaded] the parsed JSON
    ([None] when reading or parsing fails). *)
Record RegionInput := {
  region : string;
  loaded : option (list raw_account);
  net : Network;
  github_token : option string;
  github : nat -> put_env
}.

(** What outlives a region: the stats dict of the caller and the files under
    [TOKENS_DIR], by file name. *)
Record Host := {
  host_stats : Stats;
  files : gmap string (list TokenResult)
}.

(** Lines 363-372: the per-region setup of the shared dict. *)
Definition setup_stats (region_name : string) (total_valid : nat) (s : Stats)
  : Stats :=
  let s := set_current_region (Some (upper region_name)) s in
  let s := set_total (Some (Z.of_nat total_valid)) s in
  let s := set_completed (Some 0) s in
  let s := set_success (Some 0) s in
  let s := set_failed (Some 0) s in
  let s := set_timed_out (Some 0) s in
  set_rate_limit_manager (Some RateLimitManager_init) s.

(** Lines 394-408: the gather over the endpoint tasks and the flattening of
    its results, in a coroutine cancelled at [deadline]. *)
Definition fetch_all (net : Network)
    (api_distribution : list (string * string * list Account)) (deadline : Q)
  : M (list (option TokenResult)) :=
  api_results <~ gather deadline
                   (map (fun '(_, api_name, accounts_group) =>
                           fun cut => process_api_batch cut net api_name accounts_group)
                        api_distribution) ;;
  ret (concat api_results).

(** Lines 399-412: the fetch phase under the region timer. *)
Definition fetch_phase (net : Network)
    (api_distribution : list (string * string * list Account)) (total_valid : nat)
  : M (list (option TokenResult)) :=
  try_except_TimeoutError
    (wait_for (fetch_all net api_distribution) REGION_TIMEOUT)
    (ret (replicate total_valid None)).

(** The coroutine of [process_region] when the fetch phase starts: the dict
    after the per-region setup, a fresh pause event, and the clock at 0. *)
Definition region_task (region_name : string) (total_valid : nat) (s : Stats)
  : Task :=
  {| stats := setup_stats region_name total_valid s;
     pause_event := Event.new; clock := 0 |}.

Definition token_filename (region_name : string) : string :=
  ("token_" +:+ region_name +:+ ".json")%string.

(** Lines 430-451: write the staging file, push, clean up.  Writing the
    file is taken to succeed; the value of [push_to_github] is not bound to
    anything in the source. *)
Definition persist (inp : RegionInput) (valid_tokens : list TokenResult)
    (fs : gmap string (list TokenResult)) : gmap string (list TokenResult) :=
  let token_save_path := token_filename (region inp) in
  let fs1 := <[token_save_path := valid_tokens]> fs in
  let _pushed := push_to_github (github_token inp) (github inp) in
  match fs1 !! token_save_path with
  | Some _ => delete token_save_path fs1
  | None => fs1
  end.

Definition process_region (inp : RegionInput) (h : Host)
  : Host * result (option RegionResult) :=
  match loaded inp with
  | None => (h, Ok None)
  | Some accounts =>
      let valid_accounts := omap validate accounts in
      let total_valid := length valid_accounts in
      if (total_valid =? 0)%nat then (h, Ok None)
      else
        let api_distribution := distribute_accounts_across_apis valid_accounts in
        match fetch_phase (net inp) api_distribution total_valid
                (region_task (region inp) total_valid (host_stats h)) with
        | (t1, Raise e) =>
            ({| host_stats := stats t1; files := files h |}, Raise e)
        | (t1, Ok results) =>
            let valid_tokens := omap id results in
            let fs := persist inp valid_tokens (files h) in
            ({| host_stats := stats t1; files := fs |},
             Ok (Some {| result_region := upper (region inp);
                         result_total := total_valid;
                         result_success := length valid_tokens;
                         result_failed := total_valid - length valid_tokens |}))
        end
  end.

(** ** Run orchestrator *)

(** The loop of [run_token_fetch] over the sorted account files. *)
Fixpoint run_regions (inputs : list RegionInput) (h : Host)
    (results : list RegionResult) : Host * result (list RegionResult) :=
  match inputs with
  | [] => (h, Ok results)
  | inp :: rest =>
      match process_region inp h with
      | (h1, Ok (Some region_result)) =>
          run_regions rest h1 (results ++ [region_result])
      | (h1, Ok None) => run_regions rest h1 results
      | (h1, Raise e) => (h1, Raise e)
      end
  end.

Inductive run_summary :=
| NoAccountFiles
| Finished (results : list RegionResult).

(** [run_token_fetch]: [inputs] are the account files in sorted order.  The
    caller's dict is emptied ([stats.clear()], or a fresh [{}]) once files
    have been found and before the first region. *)
Definition run_token_fetch (inputs : list RegionInput) (h : Host)
  : Host * result run_summary :=
  match inputs with
  | [] => (h, Ok NoAccountFiles)
  | _ =>
      match run_regions inputs {| host_stats := Stats_empty; files := files h |} [] with
      | (h1, Ok results) => (h1, Ok (Finished results))
      | (h1, Raise e) => (h1, Raise e)
      end
  end.

(** ** The pause protocol of several coroutines on one time line

    Lines 221-233 of [fetch_token] as the event loop runs them for the
    coroutines of one region that share a coordinator and a pause event.
    Each coroutine enters when its request comes back with HTTP 429; the
    agenda holds the pending wake-ups in the order of their due time. *)

Module PauseSim.

Inductive wakeup :=
| Gets429 (who : string)
| PauseSleepEnds (who : string)
| BufferEnds (who : string).

(** A coroutine leaving the 429 branch, with the state of the pause event
    at that instant. *)
Record resumption := {
  who : string;
  at_time : Q;
  was_first : bool;
  signal_set : bool
}.

Record state := {
  manager : RateLimitManager;
  pause : Event.t;
  agenda : list (Q * wakeup);
  resumed : list resumption
}.

(** [loop.call_at]: wake-ups due at the same time run in the order in
    which they were scheduled. *)
Fixpoint schedule (when : Q) (w : wakeup) (ag : list (Q * wakeup))
  : list (Q * wakeup) :=
  match ag with
  | [] => [(when, w)]
  | (t, w') :: rest =>
      if Qle_bool t when then (t, w') :: schedule when w rest
      else (when, w) :: (t, w') :: rest
  end.

(** Runs the coroutine that is due first up to its next suspension. *)
Definition step (st : state) : state :=
  match agenda st with
  | [] => st
  | (now, Gets429 uid) :: rest =>
      let '(m1, is_first) := handle_rate_limit (manager st) uid in
      if is_first then
        {| manager := m1; pause := Event.set (pause st);
           agenda := schedule (now + PAUSE_DURATION)%Q (PauseSleepEnds uid) rest;
           resumed := resumed st |}
      else if Event.is_set (pause st) then
        match Event.wait (pause st) with
        | Event.ReturnsAtOnce =>
            {| manager := m1; pause := pause st;
               agenda := schedule (now + PAUSE_BUFFER)%Q (BufferEnds uid) rest;
               resumed := resumed st |}
        | Event.SuspendsUntilSet =>
            {| manager := m1; pause := pause st; agenda := rest;
               resumed := resumed st |}
        end
      else
        {| manager := m1; pause := pause st; agenda := rest;
           resumed := resumed st ++
             [{| who := uid; at_time := now; was_first := false;
                 signal_set := Event.is_set (pause st) |}] |}
  | (now, PauseSleepEnds uid) :: rest =>
      let pause1 := Event.clear (pause st) in
      {| manager := end_pause (manager st); pause := pause1; agenda := rest;
         resumed := resumed st ++
           [{| who := uid; at_time := now; was_first := true;
               signal_set := Event.is_set pause1 |}] |}
  | (now, BufferEnds uid) :: rest =>
      {| manager := manager st; pause := pause st; agenda := rest;
         resumed := resumed st ++
           [{| who := uid; at_time := now; was_first := false;
               signal_set := Event.is_set (pause st) |}] |}
  end.

Fixpoint run (fuel : nat) (st : state) : state :=
  match fuel with
  | O => st
  | S fuel' => run fuel' (step st)
  end.

(** A fresh region in which the listed coroutines receive HTTP 429 at the
    listed times; every coroutine wakes at most twice. *)
Definition simulate (arrivals : list (Q * string)) : state :=
  run (2 * length arrivals)
      {| manager := RateLimitManager_init; pause := Event.new;
         agenda := foldl (fun ag '(t, u) => schedule t (Gets429 u) ag) [] arrivals;
         resumed := [] |}.

(** The instant at which a coroutine that is not first leaves the branch
    when it enters at [now] and sees the event [ev]. *)
Definition not_first_resumes_at (ev : Event.t) (now : Q) : option Q :=
  if Event.is_set ev then
    match Event.wait ev with
    | Event.ReturnsAtOnce => Some (now + PAUSE_BUFFER)%Q
    | Event.SuspendsUntilSet => None
    end
  else Some now.

End PauseSim.

(** ** Vocabulary of the properties *)

(** The four counters of the stats dict, in the order completed, success,
    failed, timed_out. *)
Definition counters (s : Stats) : option Z * option Z * option Z * option Z :=
  (completed s, success s, failed s, timed_out s).

(** A step of a coroutine that leaves the four counters alone, however it
    ends. *)
Definition keeps_counters {A} (m : M A) : Prop :=
  forall t t1 r, m t = (t1, r) -> counters (stats t1) = counters (stats t).

(** The inner fetch is still running when the per-item timer fires. *)
Definition times_out (uid api_name : string) (env : nat -> attempt_env)
    (timeout : Q) (t : Task) : Prop :=
  snd (fetch_token (clock t + timeout)%Q uid api_name env t) = Raise CancelledError.

(** The region timer fires while some endpoint task is still running. *)
Definition region_timer_fires (inp : RegionInput) (h : Host)
    (accounts : list raw_account) : Prop :=
  let valid_accounts := omap validate accounts in
  snd (wait_for (fetch_all (net inp) (distribute_accounts_across_apis valid_accounts))
         REGION_TIMEOUT
         (region_task (region inp) (length valid_accounts) (host_stats h)))
  = Raise TimeoutError.

(** The dict after [k] terminal accountings: completed is [k] and splits
    into success and failed. *)
Definition tally (st : Stats) (k : Z) : Prop :=
  exists s f to, counters st = (Some k, Some s, Some f, to) /\ k = s + f.

(** A coroutine that, started on a dict with some tally, either returns
    after exactly [w] more terminal accountings or is cancelled with the
    dict still a tally. *)
Definition advances {B} (m : M B) (w : nat) : Prop :=
  forall t k, tally (stats t) k ->
    exists t1 r, m t = (t1, r) /\
      ((exists b, r = Ok b) /\ tally (stats t1) (k + Z.of_nat w) \/
       r = Raise CancelledError /\ exists k1, tally (stats t1) k1).

(** Number of records in the batches that start at [batch_idxs]. *)
Definition batch_total {A} (accounts : list A) (batch_idxs : list nat) : nat :=
  sum_sizes (map (fun batch_idx =>
                    length (slice accounts batch_idx (batch_idx + BATCH_SIZE)))
                 batch_idxs).

(** Sample worlds: an endpoint whose requests all run into the request
    timeout, one that answers every request with a token after a second,
    and the task state right after the per-region setup. *)
Definition silent_endpoint : nat -> attempt_env :=
  fun _ => {| jitter := 0; latency := 60; answer := ConnectionFails |}.

Definition healthy_endpoint (tok : string) : nat -> attempt_env :=
  fun _ => {| jitter := 0; latency := 1;
              answer := Response 200 (Body (Some tok)) |}.

Definition region_start (total_valid : nat) : Task :=
  region_task "pk" total_valid Stats_empty.

(** A sample accounts file with two valid records (u1 goes to API_1, u2 to
    API_2), all endpoints behaving like [endpoint], and a content store that
    accepts the first PUT. *)
Definition sample_accounts : list raw_account :=
  [ Dict (Some "u1") (Some "p1"); NotADict;
    Dict (Some "u2") (Some "p2"); Dict (Some "u3") None ]%string.

Definition accepting_store : nat -> put_env :=
  fun _ => {| put_jitter := 0; sha := None; put_status := Some 201 |}.

(** A content store that answers every PUT with HTTP 500. *)
Definition rejecting_store : nat -> put_env :=
  fun _ => {| put_jitter := 0; sha := None; put_status := Some 500 |}.

Definition sample_region (region_name : string)
    (endpoint : nat -> attempt_env) (token_for_github : option string)
  : RegionInput :=
  {| region := region_name;
     loaded := Some sample_accounts;
     net := fun _ _ => endpoint;
     github_token := token_for_github;
     github := accepting_store |}.

(** A large accounts file: 543 valid records u0 ... u542, 181 per endpoint,
    hence seven batches per endpoint.  The endpoints answer u0 with a token
    after a second and never answer anybody else, so that every batch
    lasts until the per-item timer of its records (180 s) and the seventh
    batch is still running at 1200 s. *)
Definition many_accounts (n : nat) : list raw_account :=
  map (fun i => Dict (Some ("u" +:+ pretty i)%string) (Some "p"%string)) (seq 0 n).

Definition answers_u0_only : Network :=
  fun _ acc => if String.eqb (uid acc) "u0" then healthy_endpoint "tok"
               else silent_endpoint.

Definition slow_region : RegionInput :=
  {| region := "pk";
     loaded := Some (many_accounts 543);
     net := answers_u0_only;
     github_token := None;
     github := accepting_store |}.

Definition empty_host : Host := {| host_stats := Stats_empty; files := ∅ |}.

(** ** Log collector *)

Module LogCollector.

(** One dict of [self.logs]; the timestamp is what [datetime.now()] gives
    when [add] runs. *)
Record entry := {
  timestamp : string;
  message : string;
  level : string
}.

Record t := {
  logs : list entry;
  max_logs : nat
}.

Definition init : t := {| logs := []; max_logs := 500 |}.

(** [add]: append, then [pop(0)] when the list has grown past [max_logs]. *)
Definition add (self : t) (e : entry) : t :=
  let logs1 := logs self ++ [e] in
  {| logs := if (max_logs self <? length logs1)%nat then drop 1 logs1 else logs1;
     max_logs := max_logs self |}.

(** The Python slice [l[start:]] for any integer [start]. *)
Definition slice_from {A} (l : list A) (start : Z) : list A :=
  let n := Z.of_nat (length l) in
  let i := if start <? 0 then Z.max (start + n) 0 else Z.min start n in
  drop (Z.to_nat i) l.

(** [self.logs[-count:] if self.logs else []] *)
Definition get_recent (self : t) (count : Z) : list entry :=
  match logs self with
  | [] => []
  | _ => slice_from (logs self) (- count)
  end.

Definition clear (self : t) : t := {| logs := []; max_logs := max_logs self |}.

(** A sequence of [add] calls. *)
Definition add_all (self : t) (es : list entry) : t := foldl add self es.

End LogCollector.

(** ** Progress tracker *)

(** [track_progress], lines 378-389.  [samples] are the values of
    [stats.get('completed', 0)] that the coroutine reads each time it wakes
    (once a second) until it is cancelled; the result lists the completed
    counts of the PROGRESS events it logs. *)
Fixpoint track_progress (total_valid : Z) (samples : list Z)
    (last_logged_progress : Z) : list Z :=
  match samples with
  | [] => []
  | completed_now :: rest =>
      if completed_now <? total_valid then
        if (completed_now mod 10 =? 0) && negb (completed_now =? last_logged_progress)
        then completed_now :: track_progress total_valid rest completed_now
        else track_progress total_valid rest last_logged_progress
      else []
  end.

(** ** Vocabulary of the further properties *)

(** No draw of the jitter and no request duration is negative. *)
Definition well_timed (env : nat -> attempt_env) : Prop :=
  forall i, (0 <= jitter (env i))%Q /\ (0 <= latency (env i))%Q.

(** The least time slept in back-off before the attempts [first], ...,
    [first + n - 1]. *)
Fixpoint backoff_total (first n : nat) : Z :=
  match n with
  | O => 0
  | S n' =>
      (if (0 <? first)%nat then Backoff.base_delay first else 0)
      + backoff_total (S first) n'
  end.

(** The content store accepts the PUT of this attempt: [resp.status in [200,
    201]]. *)
Definition accepted (e : put_env) : bool :=
  match put_status e with
  | Some status => (status =? 200) || (status =? 201)
  | None => false
  end.

(** A step of a coroutine that keeps a property of the dict, however it
    ends. *)
Definition preserves {B} (I : Stats -> Prop) (m : M B) : Prop :=
  forall t t1 r, I (stats t) -> m t = (t1, r) -> I (stats t1).

(** A step of a coroutine that is over by [deadline] when it starts before
    it. *)
Definition over_by {B} (deadline : Q) (m : M B) : Prop :=
  forall t t1 r, (clock t <= deadline)%Q -> m t = (t1, r) ->
                 (clock t1 <= deadline)%Q.

(** A step of a coroutine that, unless it is cancelled, neither turns the
    clock back nor runs past [deadline]. *)
Definition forward {B} (deadline : Q) (m : M B) : Prop :=
  forall t t1 r, m t = (t1, r) -> r <> Raise CancelledError ->
    (clock t <= clock t1)%Q /\ ((clock t < deadline)%Q -> (clock t1 < deadline)%Q).

(** Every failed record of the dict is a timed-out one. *)
Definition failures_are_timeouts (st : Stats) : Prop :=
  exists c s f, counters st = (Some c, Some s, Some f, Some f).

(** Outcomes that carry a token, and outcomes that do not. *)
Definition tokens_in (rs : list (option TokenResult)) : Z :=
  Z.of_nat (length (omap id rs)).
Definition absent_in (rs : list (option TokenResult)) : Z :=
  Z.of_nat (length rs) - tokens_in rs.

(** A coroutine that either returns, having added [ds] to success, [df] to
    failed and their sum to completed, where [P] relates the result to [ds]
    and [df]; or is cancelled, with the three counters still present. *)
Definition books {B} (P : B -> Z -> Z -> Prop) (m : M B) : Prop :=
  forall t c s f to,
    counters (stats t) = (Some c, Some s, Some f, to) ->
    exists t1 r, m t = (t1, r) /\
      ((exists b ds df to1,
          r = Ok b /\ P b ds df /\
          counters (stats t1)
          = (Some (c + ds + df), Some (s + ds), Some (f + df), to1)) \/
       (r = Raise CancelledError /\
        exists c1 s1 f1 to1,
          counters (stats t1) = (Some c1, Some s1, Some f1, to1))).

(** [n] outcomes, of which [ds] carry a token and [df] do not. *)
Definition outcomes (n : nat) (rs : list (option TokenResult)) (ds df : Z) : Prop :=
  length rs = n /\ ds = tokens_in rs /\ df = absent_in rs.

(** Number of valid records of an accounts file (0 when it cannot be
    loaded). *)
Definition valid_count (inp : RegionInput) : nat :=
  match loaded inp with
  | Some accounts => length (omap validate accounts)
  | None => 0%nat
  end.

(** A coroutine that, started on a dict that holds the counters and at
    least [d] seconds before [deadline], returns within [d] seconds and
    leaves the counters in place. *)
Definition in_time {B} (deadline d : Q) (m : M B) : Prop :=
  forall t c s f to,
    counters (stats t) = (Some c, Some s, Some f, to) ->
    (clock t + d < deadline)%Q ->
    exists t1 b c1 s1 f1 to1,
      m t = (t1, Ok b) /\ (clock t1 <= clock t + d)%Q /\
      counters (stats t1) = (Some c1, Some s1, Some f1, to1).

(** The sum of the per-endpoint counts of [stats['api_usage']] (0 when the
    key is missing). *)
Definition usage_total (st : Stats) : Z :=
  map_fold (fun _ n acc => n + acc) 0 (default ∅ (api_usage st)).

(** The dict holds completed and success, and the endpoint counts add up to
    [base] plus success. *)
Definition usage_tracks_success (base : Z) (st : Stats) : Prop :=
  exists c s, completed st = Some c /\ success st = Some s /\
              usage_total st = base + s.

(** The batches that the loop of [process_api_batch] hands to
    [asyncio.gather], one per start index. *)
Definition batches {A} (accounts : list A) : list (list A) :=
  map (fun batch_idx => slice accounts batch_idx (batch_idx + BATCH_SIZE))
      (range_step (length accounts) BATCH_SIZE).

(** The endpoint names of a distribution, in order. *)
Definition api_names {A} (ds : list (string * string * list A)) : list string :=
  map (fun d => snd (fst d)) ds.

(** * Properties *)

(** ** Python floats *)

Lemma nearest_even_between (num : Z) (den : positive) (a b : Z) :
  a * Zpos den <= num -> num <= b * Zpos den ->
  a <= Float.nearest_even num den <= b.
Proof.
  intros Ha Hb. unfold Float.nearest_even.
  pose proof (Z.div_mod num (Zpos den) ltac:(lia)) as Hdm.
  pose proof (Z.mod_pos_bound num (Zpos den) ltac:(lia)) as Hr.
  set (f := num / Zpos den) in *. set (r := num mod Zpos den) in *.
  assert (Hf : a <= f) by nia.
  assert (Hup : f <= b) by nia.
  assert (Hstrict : 0 < r -> f + 1 <= b) by nia.
  destruct (2 * r ?= Zpos den) eqn:Hcmp.
  - apply Z.compare_eq in Hcmp. destruct (Z.even f); lia.
  - lia.
  - apply Z.compare_gt_iff in Hcmp. lia.
Qed.

Lemma exponent_below_53 (x : Q) :
  (0 < x)%Q -> (x < inject_Z (2 ^ 53))%Q -> Float.exponent x <= 52.
Proof.
  destruct x as [n d]. unfold Qlt, Float.exponent. cbn [Qnum Qden inject_Z].
  intros Hpos Hlt. rewrite Z.mul_1_r in *. rewrite Z.mul_0_l in Hpos.
  set (e := Z.log2 n - Z.log2 (Zpos d)).
  assert (He : e <= 53).
  { assert (Hd : Zpos d < 2 ^ (Z.log2 (Zpos d) + 1))
      by (apply Z.log2_spec; lia).
    assert (Hn : n < 2 ^ (54 + Z.log2 (Zpos d))).
    { replace (54 + Z.log2 (Zpos d)) with (53 + (Z.log2 (Zpos d) + 1)) by lia.
      rewrite Z.pow_add_r by (pose proof (Z.log2_nonneg (Zpos d)); lia).
      nia. }
    apply Z.log2_lt_pow2 in Hn; [|exact Hpos]. subst e. lia. }
  destruct (e <? 0) eqn:Hneg; [apply Z.ltb_lt in Hneg; destruct (_ <=? _); lia|].
  apply Z.ltb_ge in Hneg.
  destruct (Zpos d * 2 ^ e <=? n) eqn:Hreach; [|lia].
  apply Z.leb_le in Hreach.
  destruct (Z.le_gt_cases e 52) as [|Hbig]; [assumption|exfalso].
  assert (2 ^ 53 <= 2 ^ e) by (apply Z.pow_le_mono_r; lia).
  nia.
Qed.

Lemma scaled_between (m q a b : Z) :
  q <= 0 -> a * 2 ^ (- q) <= m <= b * 2 ^ (- q) ->
  (inject_Z a <= Float.scaled m q <= inject_Z b)%Q.
Proof.
  intros Hq Hm. unfold Float.scaled.
  destruct (q <? 0) eqn:Hneg.
  - assert (Hp : 0 < 2 ^ (- q)) by (apply Z.pow_pos_nonneg; lia).
    unfold Qle. cbn [Qnum Qden inject_Z]. rewrite Z2Pos.id by exact Hp. lia.
  - apply Z.ltb_ge in Hneg. replace q with 0 in * by lia.
    cbn in Hm. rewrite Z.pow_0_r, Z.mul_1_r. rewrite <- !Zle_Qle. lia.
Qed.

(** Rounding never crosses an integer: below [2^53] every integer is a
    binary64 number. *)
Lemma round_between_integers (x : Q) (a b : Z) :
  (0 < x)%Q -> (x < inject_Z (2 ^ 53))%Q ->
  (inject_Z a <= x)%Q -> (x <= inject_Z b)%Q ->
  (inject_Z a <= Float.round x)%Q /\ (Float.round x <= inject_Z b)%Q.
Proof.
  intros Hpos Hsmall Ha Hb.
  pose proof (exponent_below_53 x Hpos Hsmall) as He.
  unfold Float.round.
  destruct x as [n d]. cbn [Qnum].
  destruct n as [|n|n]; [discriminate Hpos| |discriminate Hpos].
  unfold Float.round_pos. rewrite Qred_correct.
  set (x := Zpos n # d) in *.
  assert (Hq : Float.ulp_exponent x <= 0) by (unfold Float.ulp_exponent; lia).
  set (q := Float.ulp_exponent x) in *.
  assert (Hp : 0 < 2 ^ (- q)) by (apply Z.pow_pos_nonneg; lia).
  unfold Qle in Ha, Hb. cbn [Qnum Qden inject_Z x] in Ha, Hb.
  rewrite Z.mul_1_r in Ha, Hb.
  apply scaled_between; [exact Hq|].
  destruct (q <? 0) eqn:Hneg.
  - apply nearest_even_between; cbn [Qnum Qden x]; nia.
  - apply Z.ltb_ge in Hneg. replace q with 0 in * by lia.
    change (2 ^ 0) with 1. change (- 0) with 0. rewrite Z.pow_0_r, !Z.mul_1_r.
    change (Z.to_pos 1) with 1%positive.
    apply nearest_even_between; cbn [Qnum Qden x]; rewrite Pos.mul_1_r; lia.
Qed.

Lemma nearest_even_lower (num : Z) (den : positive) (a : Z) :
  a * Zpos den <= num -> a <= Float.nearest_even num den.
Proof.
  intros Ha. unfold Float.nearest_even.
  pose proof (Z.div_mod num (Zpos den) ltac:(lia)) as Hdm.
  pose proof (Z.mod_pos_bound num (Zpos den) ltac:(lia)) as Hr.
  set (f := num / Zpos den) in *. set (r := num mod Zpos den) in *.
  assert (Hf : a <= f) by nia.
  destruct (2 * r ?= Zpos den); [destruct (Z.even f)| |]; lia.
Qed.

Lemma exponent_reached (x : Q) :
  (0 < x)%Q -> 0 <= Float.exponent x ->
  Zpos (Qden x) * 2 ^ Float.exponent x <= Qnum x.
Proof.
  destruct x as [n d]. unfold Qlt, Float.exponent. cbn [Qnum Qden].
  intros Hpos. rewrite Z.mul_0_l, Z.mul_1_r in Hpos.
  set (e := Z.log2 n - Z.log2 (Zpos d)).
  destruct (e <? 0) eqn:Hneg.
  - apply Z.ltb_lt in Hneg. destruct (_ <=? _); lia.
  - apply Z.ltb_ge in Hneg.
    destruct (Zpos d * 2 ^ e <=? n) eqn:Hreach; intros He.
    + apply Z.leb_le in Hreach. exact Hreach.
    + assert (Hd : Zpos d < 2 ^ (Z.log2 (Zpos d) + 1))
        by (apply Z.log2_spec; lia).
      assert (Hn : 2 ^ Z.log2 n <= n) by (apply Z.log2_spec; exact Hpos).
      pose proof (Z.log2_nonneg (Zpos d)) as Hld.
      assert (Hsplit : 2 ^ Z.log2 n = 2 ^ (Z.log2 (Zpos d) + 1) * 2 ^ (e - 1)).
      { rewrite <- Z.pow_add_r by lia. f_equal. subst e. lia. }
      assert (Hp : 0 < 2 ^ (e - 1)) by (apply Z.pow_pos_nonneg; lia).
      nia.
Qed.

(** Rounding does not take a number below an integer that it is not
    below. *)
Lemma round_lower_bound (x : Q) (a : Z) :
  (0 < x)%Q -> a <= 2 ^ 53 -> (inject_Z a <= x)%Q -> (inject_Z a <= Float.round x)%Q.
Proof.
  intros Hpos Hsmall Ha.
  destruct (Z.le_gt_cases (Float.exponent x) 52) as [He|He].
  - unfold Float.round. destruct x as [n d]. cbn [Qnum].
    destruct n as [|n|n]; [discriminate Hpos| |discriminate Hpos].
    unfold Float.round_pos. rewrite Qred_correct.
    set (x := Zpos n # d) in *.
    assert (Hq : Float.ulp_exponent x <= 0) by (unfold Float.ulp_exponent; lia).
    set (q := Float.ulp_exponent x) in *.
    assert (Hp : 0 < 2 ^ (- q)) by (apply Z.pow_pos_nonneg; lia).
    unfold Qle in Ha. cbn [Qnum Qden inject_Z x] in Ha. rewrite Z.mul_1_r in Ha.
    unfold Float.scaled. destruct (q <? 0) eqn:Hneg.
    + pose proof (nearest_even_lower (Qnum x * 2 ^ (- q)) (Qden x) (a * 2 ^ (- q)))
        as Hm.
      cbn [Qnum Qden x] in Hm. specialize (Hm ltac:(nia)).
      unfold Qle. cbn [Qnum Qden inject_Z]. rewrite Z2Pos.id by exact Hp.
      change (Qnum x) with (Zpos n). change (Qden x) with d. lia.
    + apply Z.ltb_ge in Hneg. replace q with 0 in * by lia.
      rewrite Z.pow_0_r, Z.mul_1_r. change (Z.to_pos 1) with 1%positive.
      rewrite <- Zle_Qle. apply nearest_even_lower.
      cbn [Qnum Qden x]. rewrite Pos.mul_1_r. lia.
  - pose proof (exponent_reached x Hpos ltac:(lia)) as Hreach.
    unfold Float.round. destruct x as [n d]. cbn [Qnum Qden] in *.
    destruct n as [|n|n]; [discriminate Hpos| |discriminate Hpos].
    unfold Float.round_pos. rewrite Qred_correct.
    set (x := Zpos n # d) in *.
    assert (Hq : Float.ulp_exponent x = Float.exponent x - 52)
      by (unfold Float.ulp_exponent; lia).
    rewrite Hq. set (q := Float.exponent x - 52) in *.
    assert (Hq1 : 1 <= q) by (subst q; lia).
    assert (Hneg : (q <? 0) = false) by (apply Z.ltb_ge; lia).
    unfold Float.scaled. rewrite Hneg.
    assert (Hp : 0 < 2 ^ q) by (apply Z.pow_pos_nonneg; lia).
    assert (Hp2 : 2 <= 2 ^ q).
    { change 2 with (2 ^ 1) at 1. apply Z.pow_le_mono_r; lia. }
    assert (Hexp : 2 ^ Float.exponent x = 2 ^ 52 * 2 ^ q).
    { rewrite <- Z.pow_add_r by lia. f_equal. subst q. lia. }
    pose proof (nearest_even_lower (Qnum x) (Qden x * Z.to_pos (2 ^ q)) (2 ^ 52)) as Hm.
    cbn [Qnum Qden x] in Hm. rewrite Pos2Z.inj_mul, Z2Pos.id in Hm by exact Hp.
    specialize (Hm ltac:(nia)).
    rewrite <- Zle_Qle.
    set (m := Float.nearest_even _ _) in *.
    assert (2 ^ 53 = 2 ^ 52 * 2) by reflexivity.
    nia.
Qed.

(** A float sum of a base delay and a draw of the jitter stays between the
    base delay and the base delay plus 5, both of them floats. *)
Lemma float_sum_between (base : Z) (jitter : Q) :
  5 <= base <= 120 -> (0 <= jitter)%Q -> (jitter <= 5)%Q ->
  (inject_Z base <= Float.add (inject_Z base) jitter)%Q /\
  (Float.add (inject_Z base) jitter <= inject_Z base + 5)%Q.
Proof.
  intros Hbase Hlo Hhi. unfold Float.add.
  assert (H5 : (5 <= inject_Z base)%Q)
    by (change 5%Q with (inject_Z 5); rewrite <- Zle_Qle; lia).
  assert (H120 : (inject_Z base <= 120)%Q)
    by (change 120%Q with (inject_Z 120); rewrite <- Zle_Qle; lia).
  assert (Hbig : (125 < inject_Z (2 ^ 53))%Q) by reflexivity.
  set (b := inject_Z base) in *.
  assert (Hplus : inject_Z (base + 5) = (b + 5)%Q) by apply inject_Z_plus.
  rewrite <- Hplus.
  apply round_between_integers; fold b.
  - clear - H5 Hlo. clearbody b. lra.
  - apply Qle_lt_trans with (y := 125%Q); [|exact Hbig].
    clear - H120 Hhi. clearbody b. lra.
  - clear - Hlo. clearbody b. lra.
  - rewrite Hplus. clear - Hhi. clearbody b. lra.
Qed.

(** ** Backoff *)

Lemma base_delay_bounds (attempt : nat) :
  (1 <= attempt)%nat -> 5 <= Backoff.base_delay attempt <= 120.
Proof.
  intros H. unfold Backoff.base_delay, INITIAL_DELAY, MAX_DELAY.
  pose proof (Z.pow_le_mono_r 2 0 (Z.of_nat attempt - 1)) as Hpow.
  rewrite Z.pow_0_r in Hpow. lia.
Qed.

Lemma fetch_token_delay_between (attempt : nat) (jitter : Q) :
  (1 <= attempt)%nat -> (0 <= jitter)%Q -> (jitter <= 5)%Q ->
  (inject_Z (Backoff.base_delay attempt) <= Backoff.fetch_token_delay attempt jitter)%Q /\
  (Backoff.fetch_token_delay attempt jitter
     <= inject_Z (Backoff.base_delay attempt) + 5)%Q.
Proof.
  intros Hk Hlo Hhi. unfold Backoff.fetch_token_delay.
  destruct attempt as [|attempt']; [lia|]. cbn [Nat.ltb Nat.leb].
  apply float_sum_between; [apply base_delay_bounds; lia|exact Hlo|exact Hhi].
Qed.

Lemma fetch_token_delay_lower (attempt : nat) (jitter : Q) :
  (1 <= attempt)%nat -> (0 <= jitter)%Q ->
  (inject_Z (Backoff.base_delay attempt) <= Backoff.fetch_token_delay attempt jitter)%Q.
Proof.
  intros Hk Hlo. unfold Backoff.fetch_token_delay.
  destruct attempt as [|attempt']; [lia|]. cbn [Nat.ltb Nat.leb].
  pose proof (base_delay_bounds (S attempt') ltac:(lia)) as Hb.
  assert (H5 : (5 <= inject_Z (Backoff.base_delay (S attempt')))%Q)
    by (change 5%Q with (inject_Z 5); rewrite <- Zle_Qle; lia).
  set (b := Backoff.base_delay (S attempt')) in *.
  unfold Float.add. apply round_lower_bound.
  - clear - H5 Hlo. set (q := inject_Z b) in *. clearbody q. lra.
  - assert (120 <= 2 ^ 53) by (vm_compute; discriminate). lia.
  - clear - Hlo. set (q := inject_Z b) in *. clearbody q. lra.
Qed.

Lemma push_to_github_delay_between (attempt : nat) (jitter : Q) :
  (1 <= attempt)%nat -> (0 <= jitter)%Q -> (jitter <= 5)%Q ->
  (inject_Z (Backoff.base_delay attempt)
     <= Backoff.push_to_github_delay attempt jitter)%Q /\
  (Backoff.push_to_github_delay attempt jitter
     <= inject_Z (Backoff.base_delay attempt) + 5)%Q.
Proof.
  intros Hk Hlo Hhi. unfold Backoff.push_to_github_delay.
  destruct attempt as [|attempt']; [lia|]. cbn [Nat.ltb Nat.leb].
  apply (float_sum_between (Backoff.base_delay (S attempt')));
    [apply base_delay_bounds; lia|exact Hlo|exact Hhi].
Qed.

(** C6.  The delay slept before attempt [k] is exactly 0 for [k = 0]; for
    [k >= 1] it lies in the closed interval from [min(5 * 2^(k-1), 120)] to
    [min(5 * 2^(k-1), 120) + 5], for every jitter that
    [random.uniform(0, 5)] can draw; this holds of the delay of [fetch_token]
    and of the delay of [push_to_github]. *)
Theorem backoff_delay_interval (k : nat) (jitter : Q) :
  Backoff.jitter_in_range jitter ->
  (k = 0%nat ->
   Backoff.fetch_token_delay k jitter = 0%Q /\
   Backoff.push_to_github_delay k jitter = 0%Q) /\
  ((1 <= k)%nat ->
   (inject_Z (Z.min (5 * 2 ^ (Z.of_nat k - 1)) 120)
      <= Backoff.fetch_token_delay k jitter)%Q /\
   (Backoff.fetch_token_delay k jitter
      <= inject_Z (Z.min (5 * 2 ^ (Z.of_nat k - 1)) 120) + 5)%Q /\
   (inject_Z (Z.min (5 * 2 ^ (Z.of_nat k - 1)) 120)
      <= Backoff.push_to_github_delay k jitter)%Q /\
   (Backoff.push_to_github_delay k jitter
      <= inject_Z (Z.min (5 * 2 ^ (Z.of_nat k - 1)) 120) + 5)%Q).
Proof.
  intros [Hlo Hhi].
  split; [intros ->; split; reflexivity|].
  intros Hk.
  assert (Hle : (jitter <= 5)%Q) by (clear - Hhi; lra).
  destruct (fetch_token_delay_between k jitter Hk Hlo Hle) as [Hf1 Hf2].
  destruct (push_to_github_delay_between k jitter Hk Hlo Hle) as [Hp1 Hp2].
  change (Z.min (5 * 2 ^ (Z.of_nat k - 1)) 120) with (Backoff.base_delay k).
  auto.
Qed.

Lemma backoff_delay_interval_witness :
  Backoff.jitter_in_range (5 # 2) /\
  (inject_Z (Z.min (5 * 2 ^ (Z.of_nat 3 - 1)) 120)
     <= Backoff.fetch_token_delay 3 (5 # 2))%Q /\
  (Backoff.fetch_token_delay 3 (5 # 2) == 45 # 2)%Q.
Proof.
  assert (Hj : Backoff.jitter_in_range (5 # 2)) by (unfold Backoff.jitter_in_range; lra).
  split; [exact Hj|]. split; [|reflexivity].
  apply (backoff_delay_interval 3 (5 # 2) Hj). lia.
Defined.

(** C6, as the specification words it, fails: the interval is not open at
    its upper end.  The largest draw of the jitter is the largest float
    below 5, [5 - 2^-50]; the exact sum [5 + (5 - 2^-50)] lies halfway
    between the floats [10 - 2^-49] and [10], and the float sum is [10]:
    the delay before attempt 1 is the base delay plus 5. *)
Lemma backoff_delay_open_interval_counterexample :
  let jitter := (5 - (1 # 2 ^ 50))%Q in
  Backoff.jitter_in_range jitter /\
  (Float.round jitter == jitter)%Q /\
  (Backoff.fetch_token_delay 1 jitter == 10)%Q /\
  (Backoff.push_to_github_delay 1 jitter == 10)%Q /\
  ~ (Backoff.fetch_token_delay 1 jitter
       < inject_Z (Z.min (5 * 2 ^ (Z.of_nat 1 - 1)) 120) + 5)%Q.
Proof.
  intros jitter.
  split; [split; [discriminate|reflexivity]|].
  split; [reflexivity|]. split; [reflexivity|]. split; [reflexivity|].
  intros H. vm_compute in H. discriminate H.
Qed.

(** ** Rate-limit coordinator *)

Lemma end_pause_is_open (self : RateLimitManager) :
  is_open (end_pause self) = is_open self.
Proof. reflexivity. Qed.

Lemma handle_rate_limit_open (self : RateLimitManager) (uid : string) :
  is_open self = true ->
  snd (handle_rate_limit self uid) = true /\
  is_open (fst (handle_rate_limit self uid)) = false.
Proof.
  unfold is_open, handle_rate_limit. intros ->. split; reflexivity.
Qed.

Lemma handle_rate_limit_closed (self : RateLimitManager) (uid : string) :
  is_open self = false -> handle_rate_limit self uid = (self, false).
Proof.
  unfold is_open, handle_rate_limit. intros ->. reflexivity.
Qed.

Lemma reset_is_open (self : RateLimitManager) : is_open (reset self) = true.
Proof. reflexivity. Qed.

Lemma run_cycle_closed (ops : list cycle_op) : forall self,
  is_open self = false ->
  snd (run_cycle self ops) = replicate (count_reports ops) false /\
  is_open (fst (run_cycle self ops)) = false.
Proof.
  induction ops as [|op ops IH]; intros self Hclosed; [split; [reflexivity|exact Hclosed]|].
  destruct op as [uid|]; cbn [run_cycle].
  - rewrite (handle_rate_limit_closed _ _ Hclosed).
    destruct (run_cycle self ops) as [self2 rs] eqn:Hrun.
    specialize (IH self Hclosed). rewrite Hrun in IH. cbn in IH.
    destruct IH as [-> Hc]. split; [reflexivity|exact Hc].
  - apply IH. rewrite end_pause_is_open. exact Hclosed.
Qed.

Lemma run_cycle_open (ops : list cycle_op) : forall self,
  is_open self = true ->
  snd (run_cycle self ops) =
    match count_reports ops with
    | O => []
    | S n => true :: replicate n false
    end.
Proof.
  induction ops as [|op ops IH]; intros self Hopen; [reflexivity|].
  destruct op as [uid|]; cbn [run_cycle].
  - destruct (handle_rate_limit_open self uid Hopen) as [Hfirst Hclosed].
    destruct (handle_rate_limit self uid) as [self1 is_first]. cbn in Hfirst, Hclosed.
    subst is_first.
    pose proof (run_cycle_closed ops self1 Hclosed) as [Hrs _].
    destruct (run_cycle self1 ops) as [self2 rs]. cbn in Hrs. subst rs.
    reflexivity.
  - apply IH. rewrite end_pause_is_open. exact Hopen.
Qed.

Lemma count_first_replicate_false (n : nat) :
  count_first (replicate n false) = 0%nat.
Proof. induction n as [|n IH]; [reflexivity|exact IH]. Qed.

(** C1.  On a coordinator that is Open, whatever the order in which the
    overload reports of one pause cycle (and the end of the broadcast) are
    executed, the first report returns [True] and every other one [False],
    so exactly one caller is first; after [reset()] the next report returns
    [True] again. *)
Theorem single_first_per_cycle (self : RateLimitManager) (ops : list cycle_op)
    (uid : string) :
  is_open self = true ->
  (forall n, count_reports ops = S n ->
     snd (run_cycle self ops) = true :: replicate n false /\
     count_first (snd (run_cycle self ops)) = 1%nat) /\
  snd (handle_rate_limit (reset (fst (run_cycle self ops))) uid) = true.
Proof.
  intros Hopen. split.
  - intros n Hn. rewrite (run_cycle_open ops self Hopen), Hn.
    split; [reflexivity|].
    change (S (count_first (replicate n false)) = 1%nat).
    now rewrite count_first_replicate_false.
  - apply handle_rate_limit_open, reset_is_open.
Qed.

Lemma single_first_per_cycle_witness :
  is_open RateLimitManager_init = true /\
  snd (run_cycle RateLimitManager_init
         [ReportOverload "u1"; ReportOverload "u2"; EndPause; ReportOverload "u3"])
  = [true; false; false].
Proof.
  split; [reflexivity|].
  destruct (single_first_per_cycle RateLimitManager_init
              [ReportOverload "u1"; ReportOverload "u2"; EndPause; ReportOverload "u3"]
              "u4" eq_refl) as [Hcycle _].
  destruct (Hcycle 2%nat eq_refl) as [Hrs _]. exact Hrs.
Defined.

Lemma sleep_in_time (deadline d : Q) (t : Task) :
  (clock t + d < deadline)%Q ->
  sleep deadline d t = (with_clock (clock t + d) t, Ok tt).
Proof.
  intros Hlt. unfold sleep.
  destruct (Qle_bool deadline (clock t + d)) eqn:Hle; [|reflexivity].
  apply Qle_bool_iff in Hle. lra.
Qed.

Lemma sleep_cut_short (deadline d : Q) (t : Task) :
  (deadline <= clock t + d)%Q ->
  sleep deadline d t = (with_clock deadline t, Raise CancelledError).
Proof.
  intros Hle. unfold sleep.
  apply Qle_bool_iff in Hle. now rewrite Hle.
Qed.

(** C2, as the code has it.  When the caller that was first finishes its
    pause broadcast, the pause signal is cleared and [pause_in_progress] is
    [False], but [first_error_occurred] stays set: the coordinator is not
    Open, every later overload report of the region returns [False], and
    only [reset()] makes a report return [True] again. *)
Theorem pause_broadcast_leaves_coordinator_closed (deadline : Q)
    (uid uid' : string) (t : Task) (m : RateLimitManager) :
  rate_limit_manager (stats t) = Some m ->
  is_open m = true ->
  (clock t + PAUSE_DURATION < deadline)%Q ->
  exists t1 m1,
    coordinate_pause deadline uid t = (t1, Ok tt) /\
    Event.is_set (pause_event t1) = false /\
    rate_limit_manager (stats t1) = Some m1 /\
    pause_in_progress m1 = false /\
    is_open m1 = false /\
    snd (handle_rate_limit m1 uid') = false /\
    snd (handle_rate_limit (reset m1) uid') = true.
Proof.
  intros Hm Hopen Hdl.
  unfold coordinate_pause, bind, get_manager. rewrite Hm.
  unfold handle_rate_limit. unfold is_open in Hopen. rewrite Hopen.
  unfold modify_manager at 1. unfold modify_pause_event at 1.
  rewrite sleep_in_time by exact Hdl.
  eexists _, _. split; [reflexivity|]. cbn. rewrite Hm. cbn.
  repeat split; reflexivity.
Qed.

Lemma pause_broadcast_leaves_coordinator_closed_witness :
  let t0 := {| stats := setup_stats "pk" 2 Stats_empty;
               pause_event := Event.new; clock := 0 |} in
  exists t1 m1,
    coordinate_pause ITEM_TIMEOUT "u1" t0 = (t1, Ok tt) /\
    Event.is_set (pause_event t1) = false /\
    rate_limit_manager (stats t1) = Some m1 /\
    pause_in_progress m1 = false /\
    is_open m1 = false /\
    snd (handle_rate_limit m1 "u2") = false /\
    snd (handle_rate_limit (reset m1) "u2") = true.
Proof.
  intros t0.
  apply (pause_broadcast_leaves_coordinator_closed ITEM_TIMEOUT "u1" "u2" t0
           RateLimitManager_init eq_refl eq_refl).
  reflexivity.
Defined.

(** C2, as the specification words it, fails: after the first caller of a
    fresh region has finished its broadcast, the next overload report does
    not find the coordinator Open and is not first. *)
Lemma reopen_after_pause_counterexample :
  let t0 := {| stats := setup_stats "pk" 2 Stats_empty;
               pause_event := Event.new; clock := 0 |} in
  exists t1 m1,
    coordinate_pause ITEM_TIMEOUT "u1" t0 = (t1, Ok tt) /\
    Event.is_set (pause_event t1) = false /\
    rate_limit_manager (stats t1) = Some m1 /\
    ~ (is_open m1 = true) /\
    ~ (snd (handle_rate_limit m1 "u2") = true).
Proof.
  intros t0. eexists _, _.
  split; [vm_compute; reflexivity|].
  split; [reflexivity|]. split; [reflexivity|].
  split; intros H; discriminate H.
Qed.

Lemma not_first_leaves_after_buffer (ev : Event.t) (now : Q) :
  Event.is_set ev = true ->
  PauseSim.not_first_resumes_at ev now = Some (now + PAUSE_BUFFER)%Q.
Proof.
  unfold PauseSim.not_first_resumes_at, Event.wait, Event.is_set.
  intros ->. reflexivity.
Qed.

(** C3 does not hold on the code.  Coroutine u1 gets HTTP 429 at time 0, is
    first and holds the pause signal until time 5.  Coroutine u2 gets HTTP
    429 at time 1, is not first and sees the signal set; [Event.wait()]
    returns at once on a set event, so u2 leaves the branch at time 1.1,
    while the signal is still set. *)
Theorem not_first_resumes_while_paused :
  PauseSim.resumed (PauseSim.simulate [(0%Q, "u1"%string); (1%Q, "u2"%string)]) =
  [ {| PauseSim.who := "u2"; PauseSim.at_time := 11 # 10;
       PauseSim.was_first := false; PauseSim.signal_set := true |};
    {| PauseSim.who := "u1"; PauseSim.at_time := 5;
       PauseSim.was_first := true; PauseSim.signal_set := false |} ].
Proof. vm_compute. reflexivity. Qed.

(** ** Request distributor *)

Section Distribution.

Context {A : Type}.
Implicit Types (accounts l : list A) (urls : list string).

Lemma slice_length l (a b : nat) :
  (a <= b)%nat -> (b <= length l)%nat -> length (slice l a b) = (b - a)%nat.
Proof.
  intros Hab Hb. unfold slice. rewrite length_drop, length_take. lia.
Qed.

Lemma slice_app l (a b c : nat) :
  (a <= b)%nat -> (b <= c)%nat -> slice l a b ++ slice l b c = slice l a c.
Proof.
  intros Hab Hbc. unfold slice.
  replace (take b l) with (take b (take c l))
    by (rewrite take_take; f_equal; lia).
  set (L := take c l).
  rewrite <- (take_drop b L) at 3.
  destruct (decide (a <= length (take b L))%nat) as [Hle|Hgt].
  - rewrite drop_app_le by exact Hle. reflexivity.
  - rewrite length_take in Hgt.
    rewrite (drop_ge (take b L)) by (rewrite length_take; lia).
    rewrite (drop_ge L b) by lia.
    rewrite drop_ge; [reflexivity|].
    rewrite length_app, length_take. cbn [length]. lia.
Qed.

Lemma slice_all l : slice l 0 (length l) = l.
Proof. unfold slice. now rewrite firstn_all. Qed.

Lemma distribute_loop_length accounts base rem urls : forall i start,
  length (distribute_loop accounts base rem i start urls) = length urls.
Proof.
  induction urls as [|u urls IH]; intros i start; [reflexivity|].
  cbn [distribute_loop length]. now rewrite IH.
Qed.

Lemma distribute_loop_urls accounts base rem urls : forall i start,
  map (fun d => fst (fst d)) (distribute_loop accounts base rem i start urls)
  = urls.
Proof.
  induction urls as [|u urls IH]; intros i start; [reflexivity|].
  cbn [distribute_loop map fst]. now rewrite IH.
Qed.

Lemma distribute_loop_sizes accounts base rem urls : forall i start,
  (start + sum_sizes (map (group_size base rem) (seq i (length urls)))
     <= length accounts)%nat ->
  shard_sizes (distribute_loop accounts base rem i start urls)
  = map (group_size base rem) (seq i (length urls)).
Proof.
  induction urls as [|u urls IH]; intros i start Hfit; [reflexivity|].
  cbn [length seq map sum_sizes foldr] in Hfit.
  cbn [distribute_loop shard_sizes map length seq shard snd].
  fold (group_size base rem i).
  f_equal.
  - rewrite slice_length by lia. lia.
  - apply IH. unfold sum_sizes. lia.
Qed.

Lemma distribute_loop_concat accounts base rem urls : forall i start,
  concat (map shard (distribute_loop accounts base rem i start urls))
  = slice accounts start
      (start + sum_sizes (map (group_size base rem) (seq i (length urls)))).
Proof.
  induction urls as [|u urls IH]; intros i start.
  - cbn. unfold slice. rewrite Nat.add_0_r.
    rewrite drop_ge; [reflexivity|]. rewrite length_take. lia.
  - cbn [distribute_loop map concat shard snd length seq sum_sizes foldr].
    fold (group_size base rem i). rewrite IH.
    rewrite slice_app by lia. f_equal. unfold sum_sizes. lia.
Qed.

Lemma sum_group_sizes base rem (m : nat) : forall i,
  sum_sizes (map (group_size base rem) (seq i m))
  = (m * base + (Nat.min (i + m) rem - Nat.min i rem))%nat.
Proof.
  induction m as [|m IH]; intros i.
  - cbn. lia.
  - cbn [seq map sum_sizes foldr]. fold (sum_sizes (map (group_size base rem) (seq (S i) m))).
    rewrite IH. unfold group_size.
    destruct (i <? rem)%nat eqn:Hi.
    + apply Nat.ltb_lt in Hi. lia.
    + apply Nat.ltb_ge in Hi. lia.
Qed.

Lemma sum_group_sizes_total (n k : nat) :
  k <> 0%nat ->
  sum_sizes (map (group_size (n / k) (n mod k)) (seq 0 k)) = n.
Proof.
  intros Hk. rewrite sum_group_sizes.
  pose proof (Nat.mod_upper_bound n k Hk).
  pose proof (Nat.div_mod_eq n k). nia.
Qed.

End Distribution.

Lemma distribute_over_sizes {A : Type} (urls : list string) (accounts : list A) :
  urls <> [] ->
  shard_sizes (distribute_over urls accounts)
  = map (group_size (length accounts / length urls)
                    (length accounts mod length urls))
        (seq 0 (length urls)) /\
  sum_sizes (shard_sizes (distribute_over urls accounts)) = length accounts.
Proof.
  intros Hne.
  assert (Hk : length urls <> 0%nat) by (destruct urls; [congruence|cbn; lia]).
  pose proof (sum_group_sizes_total (length accounts) (length urls) Hk) as Hsum.
  assert (Hsizes : shard_sizes (distribute_over urls accounts)
                   = map (group_size (length accounts / length urls)
                                     (length accounts mod length urls))
                         (seq 0 (length urls))).
  { unfold distribute_over. apply distribute_loop_sizes. rewrite Hsum. lia. }
  split; [exact Hsizes|]. rewrite Hsizes. exact Hsum.
Qed.

(** C5.  For [n] records and a non-empty configured list of [k] endpoints,
    the distribution has one shard per endpoint in configured order; shard
    number [i] holds [n / k + 1] records when [i < n mod k] and [n / k]
    otherwise; the sizes add up to [n] and any two differ by at most 1; and
    the shards, concatenated in endpoint order, are the record list itself
    (so every shard is a contiguous run in load order).  The assignment is
    a function of the input. *)
Theorem distribution_exact_and_order_preserving {A : Type}
    (urls : list string) (accounts : list A) :
  urls <> [] ->
  let n := length accounts in
  let k := length urls in
  let d := distribute_over urls accounts in
  length d = k /\
  map (fun x => fst (fst x)) d = urls /\
  shard_sizes d =
    map (fun i => (n / k + (if (i <? n mod k)%nat then 1 else 0))%nat) (seq 0 k) /\
  sum_sizes (shard_sizes d) = n /\
  (forall a b, a ∈ shard_sizes d -> b ∈ shard_sizes d -> (a <= b + 1)%nat) /\
  concat (map shard d) = accounts.
Proof.
  intros Hne n k d.
  assert (Hk : k <> 0%nat) by (subst k; destruct urls; [congruence|cbn; lia]).
  pose proof (sum_group_sizes_total n k Hk) as Hsum.
  destruct (distribute_over_sizes urls accounts Hne) as [Hsizes Htotal].
  fold n k d in Hsizes, Htotal.
  split; [apply distribute_loop_length|].
  split; [apply distribute_loop_urls|].
  split; [exact Hsizes|].
  split; [exact Htotal|].
  split.
  - rewrite Hsizes. intros a b Ha Hb.
    apply list_elem_of_fmap in Ha as [i [-> _]].
    apply list_elem_of_fmap in Hb as [j [-> _]].
    unfold group_size.
    destruct (i <? n mod k)%nat, (j <? n mod k)%nat; lia.
  - subst d. unfold distribute_over. rewrite distribute_loop_concat.
    fold n k. rewrite Hsum. apply slice_all.
Qed.

Lemma distribution_exact_and_order_preserving_witness :
  API_URLS <> [] /\
  shard_sizes (distribute_over API_URLS [1; 2; 3; 4; 5; 6; 7]%nat) = [3; 2; 2]%nat /\
  concat (map shard (distribute_over API_URLS [1; 2; 3; 4; 5; 6; 7]%nat))
  = [1; 2; 3; 4; 5; 6; 7]%nat.
Proof.
  assert (Hne : API_URLS <> []) by discriminate.
  split; [exact Hne|].
  destruct (distribution_exact_and_order_preserving API_URLS
              [1; 2; 3; 4; 5; 6; 7]%nat Hne)
    as (_ & _ & Hsizes & _ & _ & Hconcat).
  split; [exact Hsizes|exact Hconcat].
Defined.

(** ** Retrying fetcher: what a step does to the counters *)

Section Counters.

Context {A B : Type}.

Lemma bind_inv (m : M A) (k : A -> M B) (t t2 : Task) (r : result B) :
  bind m k t = (t2, r) ->
  (exists t1 a, m t = (t1, Ok a) /\ k a t1 = (t2, r)) \/
  (exists e, m t = (t2, Raise e) /\ r = Raise e).
Proof.
  unfold bind. destruct (m t) as [t1 [a|e]]; intros H.
  - left. eauto.
  - right. injection H as <- <-. eauto.
Qed.

Lemma keeps_ret (a : A) : keeps_counters (ret a).
Proof. intros t t1 r H. injection H as <- _. reflexivity. Qed.

Lemma keeps_raise (e : exn) : keeps_counters (@raise A e).
Proof. intros t t1 r H. injection H as <- _. reflexivity. Qed.

Lemma keeps_bind (m : M A) (k : A -> M B) :
  keeps_counters m -> (forall a, keeps_counters (k a)) -> keeps_counters (bind m k).
Proof.
  intros Hm Hk t t2 r H.
  apply bind_inv in H as [(t1 & a & H1 & H2)|(e & H1 & _)].
  - rewrite (Hk a _ _ _ H2). exact (Hm _ _ _ H1).
  - exact (Hm _ _ _ H1).
Qed.

End Counters.

Lemma keeps_sleep (deadline d : Q) : keeps_counters (sleep deadline d).
Proof.
  intros t t1 r H. unfold sleep in H.
  destruct (Qle_bool deadline (clock t + d)); injection H as <- _; reflexivity.
Qed.

Lemma keeps_park (deadline : Q) : keeps_counters (park deadline).
Proof. intros t t1 r H. injection H as <- _. reflexivity. Qed.

Lemma keeps_get_manager : keeps_counters get_manager.
Proof. intros t t1 r H. injection H as <- _. reflexivity. Qed.

Lemma keeps_modify_manager (f : RateLimitManager -> RateLimitManager) :
  keeps_counters (modify_manager f).
Proof. intros t t1 r H. injection H as <- _. reflexivity. Qed.

Lemma keeps_get_pause_event : keeps_counters get_pause_event.
Proof. intros t t1 r H. injection H as <- _. reflexivity. Qed.

Lemma keeps_modify_pause_event (f : Event.t -> Event.t) :
  keeps_counters (modify_pause_event f).
Proof. intros t t1 r H. injection H as <- _. reflexivity. Qed.

Lemma keeps_session_get (deadline : Q) (e : attempt_env) :
  keeps_counters (session_get deadline e).
Proof.
  unfold session_get. destruct (Qle_bool REQUEST_TIMEOUT (latency e));
    apply keeps_bind; intros; auto using keeps_sleep, keeps_raise, keeps_ret.
Qed.

Lemma keeps_coordinate_pause (deadline : Q) (uid : string) :
  keeps_counters (coordinate_pause deadline uid).
Proof.
  unfold coordinate_pause. apply keeps_bind; [apply keeps_get_manager|].
  intros [m|]; [|apply keeps_ret].
  destruct (handle_rate_limit m uid) as [m1 is_first].
  apply keeps_bind; [apply keeps_modify_manager|]. intros _.
  destruct is_first.
  - repeat (apply keeps_bind; [|intros _]);
      auto using keeps_modify_pause_event, keeps_sleep, keeps_modify_manager.
  - apply keeps_bind; [apply keeps_get_pause_event|]. intros ev.
    destruct (Event.is_set ev); [|apply keeps_ret].
    destruct (Event.wait ev); auto using keeps_sleep, keeps_park.
Qed.

Lemma counters_fields (st : Stats) (c s f to : option Z) :
  counters st = (c, s, f, to) ->
  completed st = c /\ success st = s /\ failed st = f /\ timed_out st = to.
Proof. unfold counters. intros H. injection H as <- <- <- <-. auto. Qed.

Lemma success_accounting (api_name tok : string) (t t1 : Task)
    (r : result (option TokenResult)) (c s : Z) (f to : option Z) :
  counters (stats t) = (Some c, Some s, f, to) ->
  (incr_success ;;; incr_completed ;;; record_api_usage api_name ;;;
   ret (Some {| token := tok |})) t = (t1, r) ->
  r = Ok (Some {| token := tok |}) /\
  counters (stats t1) = (Some (c + 1), Some (s + 1), f, to).
Proof.
  intros Hc H. apply counters_fields in Hc as (Hcomp & Hsucc & Hf & Hto).
  unfold bind, incr_success, incr_completed, incr, record_api_usage, ret in H.
  rewrite Hsucc in H. cbn in H. rewrite Hcomp in H. cbn in H.
  injection H as <- <-. split; [reflexivity|].
  unfold counters. cbn. now rewrite Hf, Hto.
Qed.

Lemma attempt_body_counters (deadline : Q) (uid api_name : string)
    (attempt : nat) (e : attempt_env) (t t1 : Task)
    (r : result (option TokenResult)) (c s : Z) (f to : option Z) :
  counters (stats t) = (Some c, Some s, f, to) ->
  attempt_body deadline uid api_name attempt e t = (t1, r) ->
  match r with
  | Ok (Some _) => counters (stats t1) = (Some (c + 1), Some (s + 1), f, to)
  | _ => counters (stats t1) = (Some c, Some s, f, to)
  end.
Proof.
  intros Hc H. unfold attempt_body in H.
  assert (Hfirst : keeps_counters
            (if (0 <? attempt)%nat
             then sleep deadline (Backoff.fetch_token_delay attempt (jitter e))
             else ret tt))
    by (destruct (0 <? attempt)%nat; [apply keeps_sleep|apply keeps_ret]).
  apply bind_inv in H as [(t2 & [] & H1 & H2)|(e0 & H1 & ->)];
    [|rewrite (Hfirst _ _ _ H1); exact Hc].
  apply Hfirst in H1. rewrite <- H1 in Hc. clear H1 Hfirst.
  apply bind_inv in H2 as [(t3 & resp & H3 & H4)|(e0 & H3 & ->)];
    [|rewrite (keeps_session_get _ _ _ _ _ H3); exact Hc].
  apply keeps_session_get in H3. rewrite <- H3 in Hc. clear H3.
  destruct resp as [status body|]; [|injection H4 as <- <-; exact Hc].
  destruct (status =? 200).
  - destruct body as [|tok]; [injection H4 as <- <-; exact Hc|].
    destruct (truthy tok) as [tk|]; [|injection H4 as <- <-; exact Hc].
    destruct (success_accounting _ _ _ _ _ _ _ _ _ Hc H4) as [-> Hc1]. exact Hc1.
  - destruct (status =? 429); [|injection H4 as <- <-; exact Hc].
    apply bind_inv in H4 as [(t4 & [] & H5 & H6)|(e0 & H5 & ->)].
    + injection H6 as <- <-. rewrite (keeps_coordinate_pause _ _ _ _ _ H5). exact Hc.
    + rewrite (keeps_coordinate_pause _ _ _ _ _ H5). exact Hc.
Qed.

Lemma try_except_escapes {A : Type} (body : M A) (handler : exn -> M A)
    (t t1 : Task) (e : exn) :
  (forall e0 t0 t2 e2, handler e0 t0 <> (t2, Raise e2)) ->
  try_except_Exception body handler t = (t1, Raise e) ->
  e = CancelledError /\ body t = (t1, Raise CancelledError).
Proof.
  intros Hh H. unfold try_except_Exception in H.
  destruct (body t) as [t2 [a|e1]]; [discriminate H|].
  destruct e1; cbn in H; try (exfalso; exact (Hh _ _ _ _ H)).
  injection H as <- <-. auto.
Qed.

Lemma retry_loop_counters (deadline : Q) (uid api_name : string)
    (env : nat -> attempt_env) (remaining : nat) :
  forall (attempt : nat) (t t1 : Task) (r : result (option TokenResult))
         (c s : Z) (f to : option Z),
    counters (stats t) = (Some c, Some s, f, to) ->
    retry_loop remaining attempt deadline uid api_name env t = (t1, r) ->
    match r with
    | Ok (Some _) => counters (stats t1) = (Some (c + 1), Some (s + 1), f, to)
    | Ok None => counters (stats t1) = (Some c, Some s, f, to)
    | Raise e => e = CancelledError /\ counters (stats t1) = (Some c, Some s, f, to)
    end.
Proof.
  induction remaining as [|remaining IH]; intros attempt t t1 r c s f to Hc H.
  - injection H as <- <-. exact Hc.
  - cbn [retry_loop] in H.
    apply bind_inv in H as [(t2 & a & H1 & H2)|(e0 & H1 & ->)].
    + unfold try_except_Exception in H1.
      destruct (attempt_body deadline uid api_name attempt (env attempt) t)
        as [t3 [a3|e3]] eqn:Hbody.
      * injection H1 as <- <-.
        pose proof (attempt_body_counters _ _ _ _ _ _ _ _ _ _ _ _ Hc Hbody) as Hc3.
        destruct a3 as [tok|].
        -- injection H2 as <- <-. exact Hc3.
        -- destruct (attempt =? MAX_RETRIES - 1)%nat.
           ++ injection H2 as <- <-. exact Hc3.
           ++ exact (IH _ _ _ _ _ _ _ _ Hc3 H2).
      * pose proof (attempt_body_counters _ _ _ _ _ _ _ _ _ _ _ _ Hc Hbody) as Hc3.
        destruct (is_Exception e3); [|discriminate H1].
        injection H1 as <- <-.
        destruct (attempt =? MAX_RETRIES - 1)%nat.
        -- injection H2 as <- <-. exact Hc3.
        -- exact (IH _ _ _ _ _ _ _ _ Hc3 H2).
    + apply try_except_escapes in H1 as [-> Hbody]; [|intros ? ? ? ? Habs; discriminate Habs].
      split; [reflexivity|].
      exact (attempt_body_counters _ _ _ _ _ _ _ _ _ _ _ _ Hc Hbody).
Qed.

Lemma failure_accounting (t t1 : Task) (r : result (option TokenResult))
    (c s f : Z) (to : option Z) :
  counters (stats t) = (Some c, Some s, Some f, to) ->
  (incr_failed ;;; incr_completed ;;; ret None) t = (t1, r) ->
  r = Ok None /\
  counters (stats t1) = (Some (c + 1), Some s, Some (f + 1), to).
Proof.
  intros Hc H. apply counters_fields in Hc as (Hcomp & Hsucc & Hf & Hto).
  unfold bind, incr_failed, incr_completed, incr, ret in H.
  rewrite Hf in H. cbn in H. rewrite Hcomp in H. cbn in H.
  injection H as <- <-. split; [reflexivity|].
  unfold counters. cbn. now rewrite Hsucc, Hto.
Qed.

Lemma timeout_accounting (t t1 : Task) (r : result (option TokenResult))
    (c s f : Z) (to : option Z) :
  counters (stats t) = (Some c, Some s, Some f, to) ->
  (incr_failed ;;; incr_completed ;;; incr_timed_out ;;; ret None) t = (t1, r) ->
  r = Ok None /\
  counters (stats t1)
  = (Some (c + 1), Some s, Some (f + 1), Some (default 0 to + 1)).
Proof.
  intros Hc H. apply counters_fields in Hc as (Hcomp & Hsucc & Hf & Hto).
  unfold bind, incr_failed, incr_completed, incr_timed_out, incr, ret in H.
  rewrite Hf in H. cbn in H. rewrite Hcomp in H. cbn in H.
  injection H as <- <-. split; [reflexivity|].
  unfold counters. cbn. now rewrite Hsucc, Hto.
Qed.

Lemma fetch_token_counters (deadline : Q) (uid api_name : string)
    (env : nat -> attempt_env) (t t1 : Task)
    (r : result (option TokenResult)) (c s f : Z) (to : option Z) :
  counters (stats t) = (Some c, Some s, Some f, to) ->
  fetch_token deadline uid api_name env t = (t1, r) ->
  match r with
  | Ok (Some _) =>
      counters (stats t1) = (Some (c + 1), Some (s + 1), Some f, to)
  | Ok None =>
      counters (stats t1) = (Some (c + 1), Some s, Some (f + 1), to)
  | Raise e =>
      e = CancelledError /\ counters (stats t1) = (Some c, Some s, Some f, to)
  end.
Proof.
  intros Hc H. unfold fetch_token in H.
  apply bind_inv in H as [(t2 & a & H1 & H2)|(e0 & H1 & ->)].
  - pose proof (retry_loop_counters _ _ _ _ _ _ _ _ _ _ _ _ _ Hc H1) as Hc2.
    destruct a as [tok|].
    + injection H2 as <- <-. exact Hc2.
    + destruct (failure_accounting _ _ _ _ _ _ _ Hc2 H2) as [-> Hc3]. exact Hc3.
  - exact (retry_loop_counters _ _ _ _ _ _ _ _ _ _ _ _ _ Hc H1).
Qed.

(** How a call of the wrapper ends, told by how the inner fetch ends. *)
Lemma fetch_token_with_timeout_cases (uid api_name : string)
    (env : nat -> attempt_env) (timeout : Q) (t : Task)
    (c s f : Z) (to : option Z) :
  counters (stats t) = (Some c, Some s, Some f, to) ->
  exists t1 r,
    fetch_token_with_timeout uid api_name env timeout t = (t1, Ok r) /\
    ((exists tok, r = Some tok /\ ~ times_out uid api_name env timeout t /\
        counters (stats t1) = (Some (c + 1), Some (s + 1), Some f, to)) \/
     (r = None /\ ~ times_out uid api_name env timeout t /\
        counters (stats t1) = (Some (c + 1), Some s, Some (f + 1), to)) \/
     (r = None /\ times_out uid api_name env timeout t /\
        counters (stats t1)
        = (Some (c + 1), Some s, Some (f + 1), Some (default 0 to + 1)))).
Proof.
  intros Hc.
  unfold fetch_token_with_timeout, try_except_TimeoutError, wait_for, times_out.
  destruct (fetch_token (clock t + timeout) uid api_name env t)
    as [t2 [[tok|]|e]] eqn:Hinner;
    pose proof (fetch_token_counters _ _ _ _ _ _ _ _ _ _ _ Hc Hinner) as Hc2.
  - exists t2, (Some tok). split; [reflexivity|]. left.
    exists tok. cbn. repeat split; [discriminate|exact Hc2].
  - exists t2, None. split; [reflexivity|]. right. left.
    cbn. repeat split; [discriminate|exact Hc2].
  - destruct Hc2 as [-> Hc2].
    destruct ((incr_failed ;;; incr_completed ;;; incr_timed_out ;;; ret None) t2)
      as [t3 r3] eqn:Hhandler.
    destruct (timeout_accounting _ _ _ _ _ _ _ Hc2 Hhandler) as [-> Hc3].
    exists t3, None. split; [reflexivity|]. right. right.
    cbn. repeat split; exact Hc3.
Qed.

(** C9.  When the inner fetch has not resolved at the per-item timeout (180 s
    by default), the wrapped fetch returns [None] and moves the counters by
    exactly one each for failed, completed and timed_out; success is
    untouched, and the cancelled inner fetch contributes nothing. *)
Theorem per_item_timeout_accounting (uid api_name : string)
    (env : nat -> attempt_env) (timeout : Q) (t : Task)
    (c s f : Z) (to : option Z) :
  counters (stats t) = (Some c, Some s, Some f, to) ->
  times_out uid api_name env timeout t ->
  exists t1,
    fetch_token_with_timeout uid api_name env timeout t = (t1, Ok None) /\
    failed (stats t1) = Some (f + 1) /\
    completed (stats t1) = Some (c + 1) /\
    timed_out (stats t1) = Some (default 0 to + 1) /\
    success (stats t1) = Some s.
Proof.
  intros Hc Hout.
  destruct (fetch_token_with_timeout_cases uid api_name env timeout t c s f to Hc)
    as (t1 & r & Hrun & [(tok & _ & Hin & _)|[(_ & Hin & _)|(-> & _ & Hc1)]]);
    try (exfalso; exact (Hin Hout)).
  exists t1. split; [exact Hrun|].
  apply counters_fields in Hc1 as (? & ? & ? & ?). auto.
Qed.

Lemma per_item_timeout_accounting_witness :
  times_out "u1" "API_1" silent_endpoint ITEM_TIMEOUT (region_start 1) /\
  exists t1,
    fetch_token_with_timeout "u1" "API_1" silent_endpoint ITEM_TIMEOUT
      (region_start 1) = (t1, Ok None) /\
    failed (stats t1) = Some (0 + 1) /\
    completed (stats t1) = Some (0 + 1) /\
    timed_out (stats t1) = Some (default 0 (Some 0) + 1) /\
    success (stats t1) = Some 0.
Proof.
  assert (Hout : times_out "u1" "API_1" silent_endpoint ITEM_TIMEOUT (region_start 1))
    by (vm_compute; reflexivity).
  split; [exact Hout|].
  apply (per_item_timeout_accounting "u1" "API_1" silent_endpoint ITEM_TIMEOUT
           (region_start 1) 0 0 0 (Some 0) eq_refl Hout).
Defined.

(** ** Batch scheduler and region: the tally of terminal accountings *)

Lemma advances_ret {B : Type} (b : B) : advances (ret b) 0.
Proof.
  intros t k Hk. exists t, (Ok b). split; [reflexivity|].
  left. split; [eauto|]. now rewrite Z.add_0_r.
Qed.

Lemma advances_bind {A B : Type} (m : M A) (k : A -> M B) (w1 w2 : nat) :
  advances m w1 -> (forall a, advances (k a) w2) -> advances (bind m k) (w1 + w2).
Proof.
  intros Hm Hk t n Hn. unfold bind.
  destruct (Hm t n Hn) as (t1 & r & Hrun & [[[a ->] Hn1]|[-> Hn1]]); rewrite Hrun.
  - destruct (Hk a t1 _ Hn1) as (t2 & r2 & Hrun2 & [[Hok Hn2]|Hcancel]).
    + exists t2, r2. split; [exact Hrun2|]. left. split; [exact Hok|].
      replace (n + Z.of_nat (w1 + w2)) with (n + Z.of_nat w1 + Z.of_nat w2) by lia.
      exact Hn2.
    + exists t2, r2. split; [exact Hrun2|]. right. exact Hcancel.
  - exists t1, (Raise CancelledError). split; [reflexivity|]. right. auto.
Qed.

Lemma advances_weight {B : Type} (m : M B) (w w' : nat) :
  w = w' -> advances m w -> advances m w'.
Proof. intros ->. auto. Qed.

Lemma advances_sleep (deadline d : Q) : advances (sleep deadline d) 0.
Proof.
  intros t k Hk. unfold sleep.
  destruct (Qle_bool deadline (clock t + d)).
  - eexists _, _. split; [reflexivity|]. right. split; [reflexivity|]. eauto.
  - eexists _, _. split; [reflexivity|]. left. split; [eauto|].
    now rewrite Z.add_0_r.
Qed.

Lemma advances_fetch (cut : Q) (uid api_name : string)
    (env : nat -> attempt_env) (timeout : Q) :
  advances (fetch_token_with_timeout_under cut uid api_name env timeout) 1.
Proof.
  intros t k (s & f & to & Hc & Hk). unfold fetch_token_with_timeout_under.
  destruct (Qle_bool (clock t + timeout) cut).
  - destruct (fetch_token_with_timeout_cases uid api_name env timeout t k s f to Hc)
      as (t1 & r & Hrun & Hcases).
    exists t1, (Ok r). split; [exact Hrun|]. left. split; [eauto|].
    destruct Hcases as [(tok & _ & _ & Hc1)|[(_ & _ & Hc1)|(_ & _ & Hc1)]].
    + exists (s + 1), f, to. split; [exact Hc1|lia].
    + exists s, (f + 1), to. split; [exact Hc1|lia].
    + exists s, (f + 1), (Some (default 0 to + 1)). split; [exact Hc1|lia].
  - destruct (fetch_token cut uid api_name env t) as [t1 r] eqn:Hrun.
    pose proof (fetch_token_counters _ _ _ _ _ _ _ _ _ _ _ Hc Hrun) as Hc1.
    exists t1, r. split; [reflexivity|].
    destruct r as [[tok|]|e].
    + left. split; [eauto|]. exists (s + 1), f, to. split; [exact Hc1|lia].
    + left. split; [eauto|]. exists s, (f + 1), to. split; [exact Hc1|lia].
    + destruct Hc1 as [-> Hc1]. right. split; [reflexivity|].
      exists k, s, f, to. auto.
Qed.

Lemma run_children_tally {A B : Type} (f : A -> Q -> M B) (w : A -> nat)
    (cut : Q) (xs : list A) :
  (forall x, advances (f x cut) (w x)) ->
  forall st ev k, tally st k ->
    exists st2 ev2 took rs,
      run_children cut (map f xs) st ev = (st2, ev2, took, rs) /\
      ((exists bs, rs = Ok bs) /\
         tally st2 (k + Z.of_nat (sum_sizes (map w xs))) \/
       rs = Raise CancelledError /\ exists k1, tally st2 k1).
Proof.
  intros Hf. induction xs as [|x xs IH]; intros st ev k Hk.
  - exists st, ev, 0%Q, (Ok []). split; [reflexivity|]. left.
    split; [eauto|]. cbn. now rewrite Z.add_0_r.
  - cbn [map run_children].
    destruct (Hf x {| stats := st; pause_event := ev; clock := 0 |} k Hk)
      as (t1 & r & Hrun & Hcases).
    rewrite Hrun.
    destruct Hcases as [[[b ->] Hk1]|[-> [k1 Hk1]]].
    + destruct (IH (stats t1) (pause_event t1) _ Hk1)
        as (st2 & ev2 & took & rs & Hrest & Hcases).
      rewrite Hrest. eexists _, _, _, _. split; [reflexivity|].
      destruct Hcases as [[[bs ->] Hk2]|[-> Hk2]].
      * left. split; [eauto|]. cbn [map sum_sizes foldr].
        fold (sum_sizes (map w xs)).
        replace (k + Z.of_nat (w x + sum_sizes (map w xs)))
          with (k + Z.of_nat (w x) + Z.of_nat (sum_sizes (map w xs))) by lia.
        exact Hk2.
      * right. auto.
    + destruct (IH (stats t1) (pause_event t1) _ Hk1)
        as (st2 & ev2 & took & rs & Hrest & Hcases).
      rewrite Hrest. eexists _, _, _, _. split; [reflexivity|].
      right. split; [reflexivity|].
      destruct Hcases as [[_ Hk2]|[_ Hk2]]; eauto.
Qed.

Lemma advances_gather {A B : Type} (f : A -> Q -> M B) (w : A -> nat)
    (deadline : Q) (xs : list A) :
  (forall x cut, advances (f x cut) (w x)) ->
  advances (gather deadline (map f xs)) (sum_sizes (map w xs)).
Proof.
  intros Hf t k Hk. unfold gather.
  destruct (run_children_tally f w (deadline - clock t)%Q xs
              (fun x => Hf x _) (stats t) (pause_event t) k Hk)
    as (st2 & ev2 & took & rs & Hrun & Hcases).
  rewrite Hrun. eexists _, _. split; [reflexivity|]. exact Hcases.
Qed.

Lemma sum_sizes_app (xs ys : list nat) :
  sum_sizes (xs ++ ys) = (sum_sizes xs + sum_sizes ys)%nat.
Proof.
  induction xs as [|x xs IH]; [reflexivity|].
  cbn [app sum_sizes foldr]. fold (sum_sizes (xs ++ ys)) (sum_sizes xs). lia.
Qed.

Lemma sum_sizes_ones {A : Type} (xs : list A) :
  sum_sizes (map (fun _ => 1%nat) xs) = length xs.
Proof.
  induction xs as [|x xs IH]; [reflexivity|].
  cbn [map sum_sizes foldr length]. fold (sum_sizes (map (fun _ : A => 1%nat) xs)).
  now rewrite IH.
Qed.

Lemma batch_total_prefix {A : Type} (l : list A) (m : nat) :
  batch_total l (map (fun j => (j * BATCH_SIZE)%nat) (seq 0 m))
  = Nat.min (m * BATCH_SIZE) (length l).
Proof.
  unfold batch_total. induction m as [|m IH]; [reflexivity|].
  rewrite seq_S, !map_app, sum_sizes_app, IH. cbn [map sum_sizes foldr Nat.add].
  unfold slice. rewrite length_drop, length_take. lia.
Qed.

Lemma batch_total_range {A : Type} (l : list A) :
  batch_total l (range_step (length l) BATCH_SIZE) = length l.
Proof.
  unfold range_step. rewrite batch_total_prefix. unfold BATCH_SIZE.
  pose proof (Nat.div_mod_eq (length l + 30 - 1) 30).
  pose proof (Nat.mod_upper_bound (length l + 30 - 1) 30). lia.
Qed.

Lemma advances_batch_loop (deadline : Q) (net : Network) (api_name : string)
    (accounts : list Account) (batch_idxs : list nat) :
  forall all_results,
    advances (batch_loop deadline net api_name accounts batch_idxs all_results)
      (batch_total accounts batch_idxs).
Proof.
  induction batch_idxs as [|batch_idx rest IH]; intros all_results.
  - apply advances_ret.
  - cbn [batch_loop].
    apply advances_weight
      with (w := (length (slice accounts batch_idx (batch_idx + BATCH_SIZE))
                  + (0 + batch_total accounts rest))%nat);
      [reflexivity|].
    apply advances_bind.
    + apply advances_weight
        with (w := sum_sizes (map (fun _ => 1%nat)
                     (slice accounts batch_idx (batch_idx + BATCH_SIZE))));
        [apply sum_sizes_ones|].
      apply advances_gather. intros acc cut. apply advances_fetch.
    + intros batch_results. apply advances_bind; [|intros _; apply IH].
      destruct (batch_idx + BATCH_SIZE <? length accounts)%nat;
        [apply advances_sleep|apply advances_ret].
Qed.

Lemma advances_process_api_batch (deadline : Q) (net : Network)
    (api_name : string) (accounts : list Account) :
  advances (process_api_batch deadline net api_name accounts) (length accounts).
Proof.
  destruct accounts as [|acc accounts]; [apply advances_ret|].
  unfold process_api_batch.
  apply advances_weight
    with (w := batch_total (acc :: accounts)
                 (range_step (length (acc :: accounts)) BATCH_SIZE));
    [apply batch_total_range|apply advances_batch_loop].
Qed.

Lemma advances_fetch_all (net : Network) (valid_accounts : list Account)
    (deadline : Q) :
  advances (fetch_all net (distribute_accounts_across_apis valid_accounts) deadline)
    (length valid_accounts).
Proof.
  unfold fetch_all.
  apply advances_weight
    with (w := (sum_sizes (shard_sizes (distribute_over API_URLS valid_accounts))
                + 0)%nat).
  { rewrite Nat.add_0_r. apply distribute_over_sizes. discriminate. }
  apply advances_bind; [|intros api_results; apply advances_ret].
  unfold shard_sizes, distribute_accounts_across_apis.
  apply advances_gather.
  intros [[api_url api_name] accounts_group] cut.
  apply advances_process_api_batch.
Qed.

Lemma setup_stats_tally (region_name : string) (n : nat) (s : Stats) :
  tally (stats (region_task region_name n s)) 0.
Proof. exists 0, 0, (Some 0). split; reflexivity. Qed.



(** ** Region orchestrator *)

Lemma omap_id_replicate_None {A : Type} (n : nat) :
  omap id (replicate n (@None A)) = [].
Proof. induction n as [|n IH]; [reflexivity|exact IH]. Qed.

(** C4, as the code has it.  When the region timer fires during the fetch
    phase, every record of the region defaults to an absent token, whether
    or not its fetch had already resolved: the Region Result reports no
    success, all records failed, and its total is the number of valid
    records. *)
Theorem region_timeout_fails_every_record (inp : RegionInput) (h : Host)
    (accounts : list raw_account) :
  loaded inp = Some accounts ->
  omap validate accounts <> [] ->
  region_timer_fires inp h accounts ->
  exists h1 r,
    process_region inp h = (h1, Ok (Some r)) /\
    result_total r = length (omap validate accounts) /\
    result_success r = 0%nat /\
    result_failed r = length (omap validate accounts).
Proof.
  intros Hload Hne Hfires. unfold region_timer_fires in Hfires.
  unfold process_region, fetch_phase, try_except_TimeoutError. rewrite Hload.
  destruct (omap validate accounts) as [|acc valid] eqn:Hvalid; [congruence|].
  cbn [length Nat.eqb] in *.
  destruct (wait_for _ _ _) as [t1 r1]. cbn [snd] in Hfires. subst r1.
  eexists _, _. split; [reflexivity|].
  cbn [result_total result_success result_failed].
  rewrite omap_id_replicate_None. cbn [length]. auto.
Qed.

Lemma region_timeout_fails_every_record_witness :
  region_timer_fires slow_region empty_host (many_accounts 543) /\
  exists h1 r,
    process_region slow_region empty_host = (h1, Ok (Some r)) /\
    result_total r = length (omap validate (many_accounts 543)) /\
    result_success r = 0%nat /\
    result_failed r = length (omap validate (many_accounts 543)).
Proof.
  assert (Hfires : region_timer_fires slow_region empty_host (many_accounts 543))
    by (vm_compute; reflexivity).
  split; [exact Hfires|].
  apply (region_timeout_fails_every_record slow_region empty_host
           (many_accounts 543) eq_refl); [|exact Hfires].
  vm_compute. discriminate.
Defined.

(** C4, as the specification words it, fails.  In a region of 543 valid
    records whose endpoints answer only u0, the region timer fires while
    the seventh batch of every endpoint is running: 540 fetches have
    resolved by then, one of them (u0) with a token, and 3 have not.  The
    aggregation keeps neither that success nor the count of 3 defaulted
    records: it reports no success and 543 failures. *)
Lemma region_timeout_counterexample :
  exists h r,
    process_region slow_region empty_host = (h, Ok (Some r)) /\
    completed (host_stats h) = Some 540 /\
    success (host_stats h) = Some 1 /\
    result_total r = 543%nat /\
    result_success r <> 1%nat /\
    result_failed r <> 542%nat.
Proof.
  eexists _, _. split; [vm_compute; reflexivity|].
  cbn. repeat split; discriminate.
Qed.

(** C7 does not hold on the code: the staging file of the region is gone
    after the persist step whatever [push_to_github] returned.  The push
    returns [False] when no GitHub token is configured and when every one of
    its attempts is rejected; the file is deleted all the same. *)
Theorem staging_file_deleted_whatever_the_push :
  (forall (inp : RegionInput) (valid_tokens : list TokenResult)
          (fs : gmap string (list TokenResult)),
     persist inp valid_tokens fs !! token_filename (region inp) = None) /\
  push_to_github None accepting_store = false /\
  push_to_github (Some "gh"%string) rejecting_store = false /\
  files (fst (process_region (sample_region "pk" (healthy_endpoint "tok") None)
                empty_host)) !! "token_pk.json"%string = None.
Proof.
  split; [|repeat split; vm_compute; reflexivity].
  intros inp valid_tokens fs. unfold persist.
  rewrite lookup_insert_eq. apply lookup_delete_eq.
Qed.

(** C8 does not hold on the code: the per-region setup writes the five
    counters, the region name and the coordinator, and leaves [api_usage] as
    it finds it.  In a run over two regions in which the endpoints answer
    for the first region and are silent for the second, the dict of the
    second region ends with no success and with the usage counts of the
    first. *)
Theorem api_usage_survives_region_setup :
  (forall (region_name : string) (n : nat) (s : Stats),
     api_usage (setup_stats region_name n s) = api_usage s) /\
  exists h rs,
    run_token_fetch
      [ sample_region "bd" (healthy_endpoint "tok") None;
        sample_region "pk" silent_endpoint None ] empty_host
    = (h, Ok (Finished rs)) /\
    map result_success rs = [2; 0]%nat /\
    current_region (host_stats h) = Some "PK"%string /\
    success (host_stats h) = Some 0 /\
    (api_usage (host_stats h) ≫= (.!! "API_1"%string)) = Some 1.
Proof.
  split; [reflexivity|].
  eexists _, _. split; [vm_compute; reflexivity|].
  repeat split; vm_compute; reflexivity.
Qed.

(** * Further properties of the code *)

(** ** Log collector *)

Lemma add_keeps_most_recent (c : LogCollector.t) (e : LogCollector.entry) :
  (length (LogCollector.logs c) <= LogCollector.max_logs c)%nat ->
  LogCollector.logs (LogCollector.add c e)
  = drop (length (LogCollector.logs c ++ [e]) - LogCollector.max_logs c)
         (LogCollector.logs c ++ [e]) /\
  (length (LogCollector.logs (LogCollector.add c e)) <= LogCollector.max_logs c)%nat.
Proof.
  intros Hlen. unfold LogCollector.add. cbn [LogCollector.logs].
  assert (Hl : length (LogCollector.logs c ++ [e]) = S (length (LogCollector.logs c)))
    by (rewrite length_app; cbn; lia).
  destruct (LogCollector.max_logs c <? length (LogCollector.logs c ++ [e]))%nat eqn:Hfull.
  - apply Nat.ltb_lt in Hfull.
    replace (length (LogCollector.logs c ++ [e]) - LogCollector.max_logs c)%nat
      with 1%nat by lia.
    split; [reflexivity|]. rewrite length_drop. lia.
  - apply Nat.ltb_ge in Hfull.
    replace (length (LogCollector.logs c ++ [e]) - LogCollector.max_logs c)%nat
      with 0%nat by lia.
    split; [reflexivity|exact Hfull].
Qed.

(** X1.  A collector that holds at most [max_logs] entries still does after
    any number of [add] calls, and what it holds is the most recent
    [max_logs] of all entries, old and new, in the order they were added. *)
Theorem log_keeps_most_recent (es : list LogCollector.entry) :
  forall c : LogCollector.t,
    (length (LogCollector.logs c) <= LogCollector.max_logs c)%nat ->
    LogCollector.logs (LogCollector.add_all c es)
    = drop (length (LogCollector.logs c ++ es) - LogCollector.max_logs c)
           (LogCollector.logs c ++ es) /\
    (length (LogCollector.logs (LogCollector.add_all c es))
       <= LogCollector.max_logs c)%nat /\
    LogCollector.max_logs (LogCollector.add_all c es) = LogCollector.max_logs c.
Proof.
  induction es as [|e es IH]; intros c Hlen.
  - cbn. rewrite app_nil_r.
    replace (length (LogCollector.logs c) - LogCollector.max_logs c)%nat
      with 0%nat by lia.
    auto.
  - destruct (add_keeps_most_recent c e Hlen) as [Hlogs Hlen1].
    unfold LogCollector.add_all in *. cbn [foldl].
    assert (Hmax : LogCollector.max_logs (LogCollector.add c e)
                   = LogCollector.max_logs c) by reflexivity.
    rewrite <- Hmax in Hlen1.
    destruct (IH (LogCollector.add c e) Hlen1) as (Hall & Hbound & Hkeep).
    rewrite Hmax in *. split; [|split; [exact Hbound|exact Hkeep]].
    rewrite Hall, Hlogs. clear Hall Hlogs IH Hbound Hkeep Hmax.
    set (L := LogCollector.logs c) in *. set (m := LogCollector.max_logs c) in *.
    replace (L ++ e :: es) with ((L ++ [e]) ++ es) by (rewrite <- app_assoc; reflexivity).
    assert (Hl : length (L ++ [e]) = S (length L)) by (rewrite length_app; cbn; lia).
    set (k := (length (L ++ [e]) - m)%nat).
    assert (Hk : (k <= length (L ++ [e]))%nat) by (subst k; lia).
    rewrite <- (drop_app_le (L ++ [e]) es k Hk).
    rewrite drop_drop. f_equal.
    rewrite length_drop, !length_app. subst k. rewrite length_app.
    cbn [length]. lia.
Qed.

Lemma log_keeps_most_recent_witness :
  let e := fun n : nat => {| LogCollector.timestamp := "10:00:00";
                             LogCollector.message := pretty n;
                             LogCollector.level := "info" |} in
  (length (LogCollector.logs LogCollector.init)
     <= LogCollector.max_logs LogCollector.init)%nat /\
  (length (LogCollector.logs
             (LogCollector.add_all LogCollector.init (map e (seq 0 502))))
     <= LogCollector.max_logs LogCollector.init)%nat.
Proof.
  intros e.
  assert (H0 : (length (LogCollector.logs LogCollector.init)
                  <= LogCollector.max_logs LogCollector.init)%nat) by (cbn; lia).
  split; [exact H0|].
  apply (log_keeps_most_recent (map e (seq 0 502)) LogCollector.init H0).
Defined.

(** X2.  [get_recent(count)] returns the last [count] entries (all of them
    when there are fewer) for a positive [count]; for [count = 0] it does
    not return an empty list but the whole log, and for a negative [count]
    it drops the first [-count] entries. *)
Theorem get_recent_is_a_python_slice (c : LogCollector.t) (p : positive) :
  LogCollector.get_recent c (Z.pos p)
  = drop (length (LogCollector.logs c) - Pos.to_nat p) (LogCollector.logs c) /\
  length (LogCollector.get_recent c (Z.pos p))
  = Nat.min (Pos.to_nat p) (length (LogCollector.logs c)) /\
  LogCollector.get_recent c 0 = LogCollector.logs c /\
  LogCollector.get_recent c (Z.neg p) = drop (Pos.to_nat p) (LogCollector.logs c).
Proof.
  unfold LogCollector.get_recent, LogCollector.slice_from.
  destruct (LogCollector.logs c) as [|e l] eqn:Hlogs.
  - cbn. rewrite !drop_nil. repeat split. cbn [length]. lia.
  - set (L := e :: l) in *.
    assert (Hpos : (- Z.pos p <? 0) = true) by (apply Z.ltb_lt; lia).
    assert (Hneg : (- Z.neg p <? 0) = false) by (apply Z.ltb_ge; lia).
    rewrite Hpos, Hneg. change (- 0 <? 0) with false. cbv iota.
    assert (Hstart : Z.to_nat (Z.max (- Z.pos p + Z.of_nat (length L)) 0)
                     = (length L - Pos.to_nat p)%nat) by lia.
    rewrite Hstart. split; [reflexivity|]. split; [rewrite length_drop; lia|].
    split.
    + replace (Z.to_nat (Z.min 0 (Z.of_nat (length L)))) with 0%nat by lia.
      reflexivity.
    + destruct (decide (Pos.to_nat p <= length L)%nat) as [Hle|Hgt].
      * replace (Z.to_nat (Z.min (- Z.neg p) (Z.of_nat (length L))))
          with (Pos.to_nat p) by lia.
        reflexivity.
      * replace (Z.to_nat (Z.min (- Z.neg p) (Z.of_nat (length L))))
          with (length L) by lia.
        rewrite !drop_ge; [reflexivity|lia|lia].
Qed.

(** ** Progress tracker *)

Lemma track_progress_events (total_valid : Z) (samples : list Z) :
  forall last,
    Forall (fun s => last <= s) samples ->
    StronglySorted Z.le samples ->
    Forall (fun v => last < v /\ v < total_valid /\ v mod 10 = 0 /\ In v samples)
           (track_progress total_valid samples last) /\
    StronglySorted Z.lt (track_progress total_valid samples last).
Proof.
  induction samples as [|s samples IH]; intros last Hlast Hsorted.
  - split; constructor.
  - apply Forall_cons_iff in Hlast as [Hs Hlast].
    apply StronglySorted_inv in Hsorted as [Hsorted Hhead].
    cbn [track_progress].
    destruct (s <? total_valid) eqn:Hlt; [|split; constructor].
    apply Z.ltb_lt in Hlt.
    destruct (s mod 10 =? 0) eqn:Hmod; cbn [andb].
    + apply Z.eqb_eq in Hmod.
      destruct (s =? last) eqn:Hsame; cbn [negb].
      * destruct (IH last Hlast Hsorted) as [Hev Hinc].
        split; [|exact Hinc].
        eapply Forall_impl; [exact Hev|].
        intros v (? & ? & ? & ?). repeat split; auto. now right.
      * apply Z.eqb_neq in Hsame.
        destruct (IH s Hhead Hsorted) as [Hev Hinc].
        split.
        -- constructor; [repeat split; [lia|lia|exact Hmod|now left]|].
           eapply Forall_impl; [exact Hev|].
           intros v (? & ? & ? & ?). repeat split; auto; [lia|now right].
        -- constructor; [exact Hinc|].
           eapply Forall_impl; [exact Hev|]. intros v (? & _). cbn. lia.
    + destruct (IH last Hlast Hsorted) as [Hev Hinc].
      split; [|exact Hinc].
      eapply Forall_impl; [exact Hev|].
      intros v (? & ? & ? & ?). repeat split; auto. now right.
Qed.

(** X3.  For a completed counter that never decreases, the PROGRESS events
    of the tracker carry strictly increasing completed counts (no count is
    reported twice), each one a value the tracker sampled, a multiple of 10
    and below the total. *)
Theorem progress_events_increase (total_valid : Z) (samples : list Z) :
  Forall (fun s => 0 <= s) samples ->
  StronglySorted Z.le samples ->
  StronglySorted Z.lt (track_progress total_valid samples (-1)) /\
  Forall (fun v => 0 <= v < total_valid /\ v mod 10 = 0 /\ In v samples)
         (track_progress total_valid samples (-1)).
Proof.
  intros Hpos Hsorted.
  destruct (track_progress_events total_valid samples (-1)) as [Hev Hinc].
  - eapply Forall_impl; [exact Hpos|]. intros; cbn in *; lia.
  - exact Hsorted.
  - split; [exact Hinc|].
    eapply Forall_impl; [exact Hev|]. intros v (? & ? & ? & ?).
    repeat split; auto; lia.
Qed.

Lemma progress_events_increase_witness :
  Forall (fun s => 0 <= s) [0; 0; 3; 10; 10; 12; 20; 25] /\
  StronglySorted Z.le [0; 0; 3; 10; 10; 12; 20; 25] /\
  track_progress 25 [0; 0; 3; 10; 10; 12; 20; 25] (-1) = [0; 10; 20] /\
  StronglySorted Z.lt (track_progress 25 [0; 0; 3; 10; 10; 12; 20; 25] (-1)).
Proof.
  assert (Hpos : Forall (fun s => 0 <= s) [0; 0; 3; 10; 10; 12; 20; 25])
    by (repeat constructor; lia).
  assert (Hsorted : StronglySorted Z.le [0; 0; 3; 10; 10; 12; 20; 25])
    by (repeat constructor; lia).
  split; [exact Hpos|]. split; [exact Hsorted|]. split; [reflexivity|].
  apply (progress_events_increase 25 _ Hpos Hsorted).
Defined.

(** ** Rate-limit coordinator: the pause signal *)

Lemma not_first_keeps_pause_event (deadline : Q) (uid : string) (t t1 : Task)
    (r : result unit) (m : RateLimitManager) :
  rate_limit_manager (stats t) = Some m ->
  is_open m = false ->
  coordinate_pause deadline uid t = (t1, r) ->
  pause_event t1 = pause_event t.
Proof.
  intros Hm Hclosed H.
  unfold coordinate_pause, bind, get_manager in H. rewrite Hm in H.
  rewrite (handle_rate_limit_closed m uid Hclosed) in H.
  unfold modify_manager, get_pause_event in H. cbn in H.
  destruct (Event.is_set (pause_event t)) eqn:Hset.
  - unfold Event.wait in H. unfold Event.is_set in Hset. rewrite Hset in H.
    unfold sleep in H. cbn in H.
    destruct (Qle_bool deadline (clock t + PAUSE_BUFFER)); injection H as <- _;
      reflexivity.
  - injection H as <- _. reflexivity.
Qed.

(** X4.  The pause signal has no guard against cancellation.  When the
    coroutine that is first to report an overload is cancelled during its 5 s
    pause (its own deadline comes first), the signal stays set and
    [pause_in_progress] stays [True]; and no later report touches the pause
    signal, because only the first reporter ever does. *)
Theorem cancelled_broadcast_leaves_signal_set (deadline : Q) (uid : string)
    (t : Task) (m : RateLimitManager) :
  rate_limit_manager (stats t) = Some m ->
  is_open m = true ->
  (deadline <= clock t + PAUSE_DURATION)%Q ->
  exists t1 m1,
    coordinate_pause deadline uid t = (t1, Raise CancelledError) /\
    Event.is_set (pause_event t1) = true /\
    rate_limit_manager (stats t1) = Some m1 /\
    pause_in_progress m1 = true /\
    is_open m1 = false /\
    forall deadline' uid' t2 t3 r,
      rate_limit_manager (stats t2) = Some m1 ->
      pause_event t2 = pause_event t1 ->
      coordinate_pause deadline' uid' t2 = (t3, r) ->
      Event.is_set (pause_event t3) = true.
Proof.
  intros Hm Hopen Hdl.
  unfold coordinate_pause at 1. unfold bind, get_manager. rewrite Hm.
  unfold handle_rate_limit. unfold is_open in Hopen. rewrite Hopen.
  unfold modify_manager at 1. unfold modify_pause_event at 1.
  rewrite sleep_cut_short by exact Hdl.
  eexists _, _. split; [reflexivity|]. cbn. rewrite Hm. cbn.
  split; [reflexivity|]. split; [reflexivity|]. split; [reflexivity|].
  split; [reflexivity|].
  intros deadline' uid' t2 t3 r Hm2 Hev Hrun.
  rewrite (not_first_keeps_pause_event _ _ _ _ _ _ Hm2 eq_refl Hrun), Hev.
  reflexivity.
Qed.

Lemma cancelled_broadcast_leaves_signal_set_witness :
  let t0 := with_clock 176 (region_start 1) in
  exists t1 m1,
    coordinate_pause ITEM_TIMEOUT "u1" t0 = (t1, Raise CancelledError) /\
    Event.is_set (pause_event t1) = true /\
    rate_limit_manager (stats t1) = Some m1 /\
    pause_in_progress m1 = true.
Proof.
  intros t0.
  destruct (cancelled_broadcast_leaves_signal_set ITEM_TIMEOUT "u1" t0
              RateLimitManager_init eq_refl eq_refl)
    as (t1 & m1 & Hrun & Hset & Hm1 & Hpause & _).
  - vm_compute. discriminate.
  - exists t1, m1. auto.
Defined.

(** ** Result sink *)

Lemma push_loop_succeeds_iff (env : nat -> put_env) (remaining : nat) :
  forall attempt slept,
    fst (push_loop remaining attempt env slept) = true <->
    exists i, (attempt <= i < attempt + remaining)%nat /\ accepted (env i) = true.
Proof.
  induction remaining as [|remaining IH]; intros attempt slept.
  - cbn. split; [discriminate|]. intros (i & Hi & _). lia.
  - cbn [push_loop].
    set (slept1 := if (0 <? attempt)%nat then _ else _).
    assert (Hrest : fst (push_loop remaining (S attempt) env slept1) = true <->
                    exists i, (attempt <= i < attempt + S remaining)%nat /\
                              accepted (env i) = true /\ i <> attempt).
    { rewrite IH. split.
      - intros (i & Hi & Hacc). exists i. repeat split; [lia|lia|exact Hacc|lia].
      - intros (i & Hi & Hacc & Hne). exists i. split; [lia|exact Hacc]. }
    destruct (accepted (env attempt)) eqn:Hhere.
    + split; [intros _; exists attempt; split; [lia|exact Hhere]|].
      intros _. unfold accepted in Hhere.
      destruct (put_status (env attempt)) as [status|]; [|discriminate].
      rewrite Hhere. reflexivity.
    + assert (Hloop : (match put_status (env attempt) with
                       | Some status =>
                           if (status =? 200) || (status =? 201)
                           then (true, slept1)
                           else push_loop remaining (S attempt) env slept1
                       | None => push_loop remaining (S attempt) env slept1
                       end) = push_loop remaining (S attempt) env slept1).
      { unfold accepted in Hhere. destruct (put_status (env attempt)); [|reflexivity].
        now rewrite Hhere. }
      rewrite Hloop, Hrest. split.
      * intros (i & Hi & Hacc & _). eauto.
      * intros (i & Hi & Hacc). exists i. repeat split; [lia|lia|exact Hacc|].
        intros ->. congruence.
Qed.

(** X5.  [push_to_github] reports success exactly when a GitHub token is
    configured and the content store answers one of the 15 attempts with
    HTTP 200 or 201; without a token it gives up at once, and after 15
    rejected attempts it reports failure. *)
Theorem push_succeeds_iff_some_attempt_accepted (token_for_github : option string)
    (env : nat -> put_env) :
  push_to_github token_for_github env = true <->
  configured token_for_github = true /\
  exists i, (i < GITHUB_MAX_RETRIES)%nat /\ accepted (env i) = true.
Proof.
  unfold push_to_github. destruct (configured token_for_github).
  - rewrite push_loop_succeeds_iff. split.
    + intros (i & Hi & Hacc). split; [reflexivity|]. exists i. split; [lia|exact Hacc].
    + intros (_ & i & Hi & Hacc). exists i. split; [lia|exact Hacc].
  - split; [discriminate|]. intros [H _]. discriminate H.
Qed.

Lemma push_loop_rejected_step (env : nat -> put_env) (remaining attempt : nat)
    (slept : Q) :
  accepted (env attempt) = false ->
  push_loop (S remaining) attempt env slept
  = push_loop remaining (S attempt) env
      (if (0 <? attempt)%nat
       then (slept + Backoff.push_to_github_delay attempt (put_jitter (env attempt)))%Q
       else slept).
Proof.
  intros Hhere. cbn [push_loop]. unfold accepted in Hhere.
  destruct (put_status (env attempt)); [|reflexivity]. now rewrite Hhere.
Qed.

Lemma push_loop_rejected (env : nat -> put_env) (remaining : nat) :
  (forall i, Backoff.jitter_in_range (put_jitter (env i))) ->
  forall attempt slept,
    (1 <= attempt)%nat ->
    (forall i, (attempt <= i < attempt + remaining)%nat -> accepted (env i) = false) ->
    fst (push_loop remaining attempt env slept) = false /\
    (slept + inject_Z (backoff_total attempt remaining)
       <= snd (push_loop remaining attempt env slept))%Q /\
    (snd (push_loop remaining attempt env slept)
       <= slept + inject_Z (backoff_total attempt remaining)
          + 5 * inject_Z (Z.of_nat remaining))%Q.
Proof.
  intros Hjit. induction remaining as [|remaining IH]; intros attempt slept Hpos Hrej.
  - cbn [push_loop fst snd backoff_total].
    change (inject_Z 0) with 0%Q. change (inject_Z (Z.of_nat 0)) with 0%Q.
    split; [reflexivity|]. split; clear; lra.
  - rewrite push_loop_rejected_step by (apply Hrej; lia).
    cbn [backoff_total].
    assert (Hlt : (0 <? attempt)%nat = true) by (apply Nat.ltb_lt; lia).
    rewrite Hlt.
    set (slept1 := (slept + Backoff.push_to_github_delay attempt
                              (put_jitter (env attempt)))%Q).
    destruct (IH (S attempt) slept1 ltac:(lia)) as (Hfalse & Hlo & Hhi).
    { intros i Hi. apply Hrej. lia. }
    split; [exact Hfalse|].
    destruct (Hjit attempt) as [Hj0 Hj5].
    assert (Hj5' : (put_jitter (env attempt) <= 5)%Q) by (clear - Hj5; lra).
    destruct (push_to_github_delay_between attempt (put_jitter (env attempt))
                Hpos Hj0 Hj5') as [Hd1 Hd2].
    rewrite (inject_Z_plus (Backoff.base_delay attempt)
               (backoff_total (S attempt) remaining)).
    assert (Hn : (inject_Z (Z.of_nat (S remaining))
                  == inject_Z (Z.of_nat remaining) + 1)%Q).
    { rewrite Nat2Z.inj_succ. unfold Z.succ. rewrite inject_Z_plus. reflexivity. }
    subst slept1.
    set (s' := snd (push_loop remaining (S attempt) env _)) in *.
    set (b := inject_Z (Backoff.base_delay attempt)) in *.
    set (T := inject_Z (backoff_total (S attempt) remaining)) in *.
    set (d := Backoff.push_to_github_delay attempt (put_jitter (env attempt))) in *.
    set (n := inject_Z (Z.of_nat remaining)) in *.
    set (n1 := inject_Z (Z.of_nat (S remaining))) in *.
    clearbody s' b T d n n1.
    clear Hjit Hrej IH Hfalse Hpos Hlt Hj0 Hj5 Hj5'.
    split; lra.
Qed.

(** X6.  A push that the content store rejects 15 times has slept at least
    1235 and at most 1305 seconds in back-off before [push_to_github]
    returns [False]. *)
Theorem rejected_push_backs_off_twenty_minutes (env : nat -> put_env) :
  (forall i, Backoff.jitter_in_range (put_jitter (env i))) ->
  (forall i, (i < GITHUB_MAX_RETRIES)%nat -> accepted (env i) = false) ->
  fst (push_loop GITHUB_MAX_RETRIES 0 env 0) = false /\
  (1235 <= snd (push_loop GITHUB_MAX_RETRIES 0 env 0))%Q /\
  (snd (push_loop GITHUB_MAX_RETRIES 0 env 0) <= 1305)%Q.
Proof.
  intros Hjit Hrej.
  change GITHUB_MAX_RETRIES with (S 14) in *.
  rewrite push_loop_rejected_step by (apply Hrej; lia).
  cbn [Nat.ltb Nat.leb].
  destruct (push_loop_rejected env 14 Hjit 1 0%Q ltac:(lia)) as (Hfalse & Hlo & Hhi).
  { intros i Hi. apply Hrej. lia. }
  assert (HT : inject_Z (backoff_total 1 14) = 1235%Q) by (vm_compute; reflexivity).
  assert (Hn : inject_Z (Z.of_nat 14) = 14%Q) by reflexivity.
  rewrite HT, Hn in *.
  set (s' := snd (push_loop 14 1 env 0)) in *. clearbody s'.
  split; [exact Hfalse|]. clear Hjit Hrej Hfalse HT Hn. split; lra.
Qed.

Lemma rejected_push_backs_off_twenty_minutes_witness :
  (forall i, Backoff.jitter_in_range (put_jitter (rejecting_store i))) /\
  (forall i, (i < GITHUB_MAX_RETRIES)%nat -> accepted (rejecting_store i) = false) /\
  (1235 <= snd (push_loop GITHUB_MAX_RETRIES 0 rejecting_store 0))%Q.
Proof.
  assert (Hjit : forall i, Backoff.jitter_in_range (put_jitter (rejecting_store i)))
    by (intros i; unfold Backoff.jitter_in_range; cbn; lra).
  assert (Hrej : forall i, (i < GITHUB_MAX_RETRIES)%nat ->
                           accepted (rejecting_store i) = false)
    by (intros i _; reflexivity).
  split; [exact Hjit|]. split; [exact Hrej|].
  apply (rejected_push_backs_off_twenty_minutes rejecting_store Hjit Hrej).
Defined.

(** ** Retrying fetcher: the clock *)

Section Forward.

Variable deadline : Q.

Lemma forward_ret {B : Type} (b : B) : forward deadline (ret b).
Proof. intros t t1 r H _. injection H as <- _. split; [lra|auto]. Qed.

Lemma forward_raise {B : Type} (e : exn) : forward deadline (@raise B e).
Proof. intros t t1 r H _. injection H as <- _. split; [lra|auto]. Qed.

Lemma forward_bind {A B : Type} (m : M A) (k : A -> M B) :
  forward deadline m -> (forall a, forward deadline (k a)) ->
  forward deadline (bind m k).
Proof.
  intros Hm Hk t t2 r H Hr.
  apply bind_inv in H as [(t1 & a & H1 & H2)|(e & H1 & ->)].
  - destruct (Hm _ _ _ H1 ltac:(discriminate)) as [Hle1 Hlt1].
    destruct (Hk a _ _ _ H2 Hr) as [Hle2 Hlt2].
    split; [lra|auto].
  - apply (Hm _ _ _ H1). intros Heq. apply Hr. injection Heq as ->. reflexivity.
Qed.

Lemma forward_sleep (d : Q) : (0 <= d)%Q -> forward deadline (sleep deadline d).
Proof.
  intros Hd t t1 r H Hr. unfold sleep in H.
  destruct (Qle_bool deadline (clock t + d)) eqn:Hcut.
  - injection H as _ <-. congruence.
  - injection H as <- _. cbn.
    assert (Hlt : ~ (deadline <= clock t + d)%Q)
      by (rewrite <- Qle_bool_iff, Hcut; discriminate).
    split; [lra|intros _; lra].
Qed.

Lemma forward_park : forward deadline (park deadline).
Proof. intros t t1 r H Hr. injection H as _ <-. congruence. Qed.

Lemma forward_same_clock {B : Type} (m : M B) :
  (forall t t1 r, m t = (t1, r) -> clock t1 = clock t) -> forward deadline m.
Proof. intros Hm t t1 r H _. rewrite (Hm _ _ _ H). split; [lra|auto]. Qed.

Lemma forward_session_get (e : attempt_env) :
  (0 <= latency e)%Q -> forward deadline (session_get deadline e).
Proof.
  intros Hl. unfold session_get.
  destruct (Qle_bool REQUEST_TIMEOUT (latency e)).
  - apply forward_bind; [apply forward_sleep; unfold REQUEST_TIMEOUT; lra|].
    intros _. apply forward_raise.
  - apply forward_bind; [apply forward_sleep; exact Hl|].
    intros _. apply forward_ret.
Qed.

Lemma forward_coordinate_pause (uid : string) :
  forward deadline (coordinate_pause deadline uid).
Proof.
  unfold coordinate_pause.
  apply forward_bind;
    [apply forward_same_clock; intros t t1 r H; injection H as <- _; reflexivity|].
  intros [m|]; [|apply forward_ret].
  destruct (handle_rate_limit m uid) as [m1 is_first].
  apply forward_bind;
    [apply forward_same_clock; intros t t1 r H; injection H as <- _; reflexivity|].
  intros _. destruct is_first.
  - apply forward_bind;
      [apply forward_same_clock; intros t t1 r H; injection H as <- _; reflexivity|].
    intros _. apply forward_bind;
      [apply forward_sleep; unfold PAUSE_DURATION; lra|].
    intros _. apply forward_bind;
      [apply forward_same_clock; intros t t1 r H; injection H as <- _; reflexivity|].
    intros _. apply forward_same_clock; intros t t1 r H; injection H as <- _;
      reflexivity.
  - apply forward_bind;
      [apply forward_same_clock; intros t t1 r H; injection H as <- _; reflexivity|].
    intros ev. destruct (Event.is_set ev); [|apply forward_ret].
    destruct (Event.wait ev);
      [apply forward_sleep; unfold PAUSE_BUFFER; lra|apply forward_park].
Qed.

Lemma forward_incr (key : string) (get : Stats -> option Z)
    (set : option Z -> Stats -> Stats) : forward deadline (incr key get set).
Proof.
  apply forward_same_clock. intros t t1 r H. unfold incr in H.
  destruct (get (stats t)); injection H as <- _; reflexivity.
Qed.

(** What follows the back-off sleep in the [try] block. *)
Lemma forward_request (uid api_name : string) (e : attempt_env) :
  (0 <= latency e)%Q ->
  forward deadline
    (resp <~ session_get deadline e ;;
     match resp with
     | ConnectionFails => raise ClientConnectorError
     | Response status body =>
         if status =? 200 then
           match body with
           | Undecodable => raise JSONDecodeError
           | Body tok =>
               match truthy tok with
               | Some s =>
                   incr_success ;;;
                   incr_completed ;;;
                   record_api_usage api_name ;;;
                   ret (Some {| token := s |})
               | None => ret None
               end
           end
         else if status =? 429 then
           coordinate_pause deadline uid ;;; ret None
         else ret None
     end).
Proof.
  intros Hl. apply forward_bind; [apply forward_session_get; exact Hl|].
  intros [status body|]; [|apply forward_raise].
  destruct (status =? 200).
  - destruct body as [|tok]; [apply forward_raise|].
    destruct (truthy tok); [|apply forward_ret].
    apply forward_bind; [apply forward_incr|]. intros _.
    apply forward_bind; [apply forward_incr|]. intros _.
    apply forward_bind;
      [apply forward_same_clock; intros t t1 r H; injection H as <- _; reflexivity|].
    intros _. apply forward_ret.
  - destruct (status =? 429); [|apply forward_ret].
    apply forward_bind; [apply forward_coordinate_pause|].
    intros _. apply forward_ret.
Qed.

(** An attempt that is not cancelled has slept its back-off and ends before
    the deadline. *)
Lemma attempt_body_takes_its_backoff (uid api_name : string) (attempt : nat)
    (e : attempt_env) (t t1 : Task) (r : result (option TokenResult)) :
  (0 <= jitter e)%Q -> (0 <= latency e)%Q ->
  attempt_body deadline uid api_name attempt e t = (t1, r) ->
  r <> Raise CancelledError ->
  (clock t <= clock t1)%Q /\
  ((1 <= attempt)%nat ->
   (clock t + inject_Z (Backoff.base_delay attempt) <= clock t1)%Q /\
   (clock t1 < deadline)%Q).
Proof.
  intros Hj Hl H Hr. unfold attempt_body in H.
  destruct attempt as [|attempt']; cbn [Nat.ltb Nat.leb] in H.
  - split; [|lia].
    refine (proj1 (forward_bind (ret tt) _ (forward_ret tt)
                     (fun _ => forward_request uid api_name e Hl) _ _ _ H Hr)).
  - apply bind_inv in H as [(t2 & [] & H1 & H2)|(e0 & H1 & ->)].
    + destruct (forward_request uid api_name e Hl _ _ _ H2 Hr) as [Hle Hlt].
      unfold sleep in H1.
      destruct (Qle_bool deadline
                  (clock t + Backoff.fetch_token_delay (S attempt') (jitter e)))
        eqn:Hcut; [discriminate H1|].
      injection H1 as <-. cbn [clock with_clock] in *.
      assert (Hnot : ~ (deadline <= clock t
                          + Backoff.fetch_token_delay (S attempt') (jitter e))%Q)
        by (rewrite <- Qle_bool_iff, Hcut; discriminate).
      assert (Hdelay : (inject_Z (Backoff.base_delay (S attempt'))
                        <= Backoff.fetch_token_delay (S attempt') (jitter e))%Q)
        by (apply fetch_token_delay_lower; [lia|exact Hj]).
      pose proof (base_delay_bounds (S attempt') ltac:(lia)) as [Hb _].
      assert (Hb' : (0 <= inject_Z (Backoff.base_delay (S attempt')))%Q).
      { change 0%Q with (inject_Z 0). rewrite <- Zle_Qle. lia. }
      set (d := Backoff.fetch_token_delay (S attempt') (jitter e)) in *.
      set (b := inject_Z (Backoff.base_delay (S attempt'))) in *.
      clearbody d b. clear Hcut H2 Hr Hb.
      assert (Hbefore : (clock t + d < deadline)%Q) by lra.
      specialize (Hlt Hbefore).
      split; [lra|]. intros _. split; lra.
    + unfold sleep in H1.
      destruct (Qle_bool deadline
                  (clock t + Backoff.fetch_token_delay (S attempt') (jitter e)));
        [injection H1 as _ <-; congruence|discriminate H1].
Qed.

End Forward.

Lemma try_except_swallowed {A : Type} (body : M A) (a0 : A) (t t1 : Task) (a : A) :
  try_except_Exception body (fun _ => ret a0) t = (t1, Ok a) ->
  exists r, body t = (t1, r) /\ r <> Raise CancelledError.
Proof.
  unfold try_except_Exception. destruct (body t) as [t2 [b|e]]; intros H.
  - injection H as <- <-. eexists. split; [reflexivity|discriminate].
  - destruct e; cbn in H; try discriminate H; injection H as <- _;
      (eexists; split; [reflexivity|discriminate]).
Qed.

(** A loop that runs to its end has slept every back-off on the way. *)
Lemma retry_loop_runs_out (deadline : Q) (uid api_name : string)
    (env : nat -> attempt_env) (remaining : nat) :
  well_timed env ->
  forall (attempt : nat) (t t1 : Task),
    retry_loop remaining attempt deadline uid api_name env t = (t1, Ok None) ->
    forall a, (attempt <= a < attempt + remaining)%nat ->
              (a <= MAX_RETRIES - 1)%nat -> (1 <= a)%nat ->
      (clock t + inject_Z (backoff_total attempt (a - attempt))
       + inject_Z (Backoff.base_delay a) < deadline)%Q.
Proof.
  intros Henv. induction remaining as [|remaining IH]; intros attempt t t1 H a Ha Hcap Hpos;
    [lia|].
  cbn [retry_loop] in H.
  apply bind_inv in H as [(t2 & r0 & H1 & H2)|(e0 & _ & Habs)]; [|discriminate Habs].
  apply try_except_swallowed in H1 as (rb & Hbody & Hrb).
  destruct (Henv attempt) as [Hj Hl].
  destruct (attempt_body_takes_its_backoff deadline uid api_name attempt
              (env attempt) t t2 rb Hj Hl Hbody Hrb) as [Hle Hback].
  destruct r0 as [tok|]; [discriminate H2|].
  destruct (decide (a = attempt)) as [->|Hne].
  - destruct (Hback Hpos) as [Hb Hlt].
    replace (attempt - attempt)%nat with 0%nat by lia. cbn [backoff_total].
    change (inject_Z 0) with 0%Q.
    set (b := inject_Z (Backoff.base_delay attempt)) in *. clearbody b.
    clear - Hb Hlt. lra.
  - assert (Hcont : (attempt =? MAX_RETRIES - 1)%nat = false)
      by (apply Nat.eqb_neq; lia).
    rewrite Hcont in H2.
    specialize (IH (S attempt) t2 t1 H2 a ltac:(lia) Hcap Hpos).
    replace (a - attempt)%nat with (S (a - S attempt)) by lia.
    cbn [backoff_total]. rewrite inject_Z_plus.
    destruct (0 <? attempt)%nat eqn:Hfirst.
    + apply Nat.ltb_lt in Hfirst. destruct (Hback Hfirst) as [Hb _].
      set (b := inject_Z (Backoff.base_delay attempt)) in *.
      set (T := inject_Z (backoff_total (S attempt) (a - S attempt))) in *.
      set (ba := inject_Z (Backoff.base_delay a)) in *.
      clearbody b T ba. clear - Hb IH. lra.
    + change (inject_Z 0) with 0%Q.
      set (T := inject_Z (backoff_total (S attempt) (a - S attempt))) in *.
      set (ba := inject_Z (Backoff.base_delay a)) in *.
      clearbody T ba. clear - Hle IH. lra.
Qed.

(** Under the per-item timer the retry cap is out of reach: the seventh
    attempt alone would need more back-off than the timer allows. *)
Lemma fetch_token_never_runs_out (deadline : Q) (uid api_name : string)
    (env : nat -> attempt_env) (t t1 : Task) :
  well_timed env ->
  (deadline <= clock t + ITEM_TIMEOUT)%Q ->
  fetch_token deadline uid api_name env t <> (t1, Ok None).
Proof.
  intros Henv Hdl H. unfold fetch_token in H.
  apply bind_inv in H as [(t2 & r0 & H1 & H2)|(e0 & _ & Habs)]; [|discriminate Habs].
  destruct r0 as [tok|]; [discriminate H2|].
  pose proof (retry_loop_runs_out deadline uid api_name env MAX_RETRIES Henv
                0%nat t t2 H1 6%nat) as Hneed.
  unfold MAX_RETRIES in Hneed.
  specialize (Hneed ltac:(lia) ltac:(lia) ltac:(lia)).
  assert (HT : inject_Z (backoff_total 0 (6 - 0)) = 155%Q) by (vm_compute; reflexivity).
  assert (Hb : inject_Z (Backoff.base_delay 6) = 120%Q) by (vm_compute; reflexivity).
  rewrite HT, Hb in Hneed. unfold ITEM_TIMEOUT in Hdl.
  clear - Hneed Hdl. lra.
Qed.

Lemma fetch_cases_well_timed (uid api_name : string) (env : nat -> attempt_env)
    (t : Task) (c s f : Z) (to : option Z) :
  well_timed env ->
  counters (stats t) = (Some c, Some s, Some f, to) ->
  exists t1 r,
    fetch_token_with_timeout uid api_name env ITEM_TIMEOUT t = (t1, Ok r) /\
    ((exists tok, r = Some tok /\
        counters (stats t1) = (Some (c + 1), Some (s + 1), Some f, to)) \/
     (r = None /\ times_out uid api_name env ITEM_TIMEOUT t /\
        counters (stats t1)
        = (Some (c + 1), Some s, Some (f + 1), Some (default 0 to + 1)))).
Proof.
  intros Henv Hc.
  destruct (fetch_token_with_timeout_cases uid api_name env ITEM_TIMEOUT t c s f to Hc)
    as (t1 & r & Hrun & [(tok & -> & _ & Hc1)|[(-> & Hin & Hc1)|(-> & Hout & Hc1)]]).
  - exists t1, (Some tok). split; [exact Hrun|]. left. eauto.
  - exfalso. unfold times_out in Hin.
    unfold fetch_token_with_timeout, try_except_TimeoutError, wait_for in Hrun.
    destruct (fetch_token (clock t + ITEM_TIMEOUT) uid api_name env t)
      as [t2 [[tok|]|e]] eqn:Hinner.
    + discriminate Hrun.
    + apply (fetch_token_never_runs_out _ _ _ _ _ _ Henv (Qle_refl _) Hinner).
    + destruct (fetch_token_counters _ _ _ _ _ _ _ _ _ _ _ Hc Hinner) as [-> _].
      apply Hin. reflexivity.
  - exists t1, None. split; [exact Hrun|]. right. auto.
Qed.

(** X7.  With the per-item timeout of 180 s, the retry cap of 15 attempts
    is never reached: the back-off before the seventh attempt alone ends
    after the timer.  So a wrapped fetch either returns a token, or returns
    [None] through the timeout branch: a record counted under failed is
    always counted under timed_out too. *)
Theorem failed_fetch_is_a_timed_out_fetch (uid api_name : string)
    (env : nat -> attempt_env) (t : Task) (c s f : Z) (to : option Z) :
  well_timed env ->
  counters (stats t) = (Some c, Some s, Some f, to) ->
  exists t1 r,
    fetch_token_with_timeout uid api_name env ITEM_TIMEOUT t = (t1, Ok r) /\
    match r with
    | Some _ =>
        failed (stats t1) = Some f /\ timed_out (stats t1) = to
    | None =>
        failed (stats t1) = Some (f + 1) /\
        timed_out (stats t1) = Some (default 0 to + 1)
    end.
Proof.
  intros Henv Hc.
  destruct (fetch_cases_well_timed uid api_name env t c s f to Henv Hc)
    as (t1 & r & Hrun & [(tok & -> & Hc1)|(-> & _ & Hc1)]);
    exists t1; eexists; (split; [exact Hrun|]);
    apply counters_fields in Hc1 as (? & ? & ? & ?); auto.
Qed.

Lemma failed_fetch_is_a_timed_out_fetch_witness :
  well_timed silent_endpoint /\
  exists t1 r,
    fetch_token_with_timeout "u1" "API_1" silent_endpoint ITEM_TIMEOUT
      (region_start 1) = (t1, Ok r) /\
    match r with
    | Some _ =>
        failed (stats t1) = Some 0 /\ timed_out (stats t1) = Some 0
    | None =>
        failed (stats t1) = Some (0 + 1) /\
        timed_out (stats t1) = Some (default 0 (Some 0) + 1)
    end.
Proof.
  assert (Henv : well_timed silent_endpoint)
    by (intros i; cbn; split; [apply Qle_refl|discriminate]).
  split; [exact Henv|].
  apply (failed_fetch_is_a_timed_out_fetch "u1" "API_1" silent_endpoint
           (region_start 1) 0 0 0 (Some 0) Henv eq_refl).
Defined.

(** ** Outcomes and counters *)

Lemma counters_eq (c c' s s' f f' : Z) (to : option Z) :
  c = c' -> s = s' -> f = f' ->
  (Some c, Some s, Some f, to) = (Some c', Some s', Some f', to).
Proof. intros -> -> ->. reflexivity. Qed.

Lemma tokens_in_app (xs ys : list (option TokenResult)) :
  tokens_in (xs ++ ys) = tokens_in xs + tokens_in ys.
Proof. unfold tokens_in. rewrite omap_app, length_app. lia. Qed.

Lemma absent_in_app (xs ys : list (option TokenResult)) :
  absent_in (xs ++ ys) = absent_in xs + absent_in ys.
Proof. unfold absent_in. rewrite tokens_in_app, length_app. lia. Qed.

Lemma outcomes_nil : outcomes 0 [] 0 0.
Proof. repeat split. Qed.

Lemma outcomes_app (n1 n2 : nat) (xs ys : list (option TokenResult))
    (ds1 df1 ds2 df2 : Z) :
  outcomes n1 xs ds1 df1 -> outcomes n2 ys ds2 df2 ->
  outcomes (n1 + n2) (xs ++ ys) (ds1 + ds2) (df1 + df2).
Proof.
  intros (H1 & -> & ->) (H2 & -> & ->). unfold outcomes.
  rewrite length_app, tokens_in_app, absent_in_app. auto with lia.
Qed.

Lemma tokens_in_bounds (rs : list (option TokenResult)) :
  0 <= tokens_in rs <= Z.of_nat (length rs).
Proof.
  unfold tokens_in. induction rs as [|[r|] rs IH]; [cbn; lia| |].
  - change (omap id (Some r :: rs)) with (r :: omap id rs). cbn [length]. lia.
  - change (omap id (None :: rs)) with (omap id rs). cbn [length]. lia.
Qed.

Lemma books_ret {B : Type} (P : B -> Z -> Z -> Prop) (b : B) :
  P b 0 0 -> books P (ret b).
Proof.
  intros HP t c s f to Hc. exists t, (Ok b). split; [reflexivity|]. left.
  exists b, 0, 0, to. split; [reflexivity|]. split; [exact HP|].
  rewrite Hc. apply counters_eq; lia.
Qed.

Lemma books_weaken {B : Type} (P Q : B -> Z -> Z -> Prop) (m : M B) :
  (forall b ds df, P b ds df -> Q b ds df) -> books P m -> books Q m.
Proof.
  intros HPQ Hm t c s f to Hc.
  destruct (Hm t c s f to Hc) as (t1 & r & Hrun & [Hok|Hcancel]).
  - destruct Hok as (b & ds & df & to1 & -> & HP & Hc1).
    exists t1, (Ok b). split; [exact Hrun|]. left.
    exists b, ds, df, to1. auto.
  - exists t1, r. auto.
Qed.

Lemma books_bind {A B : Type} (PA : A -> Z -> Z -> Prop)
    (PB : A -> B -> Z -> Z -> Prop) (m : M A) (k : A -> M B) :
  books PA m -> (forall a, books (PB a) (k a)) ->
  books (fun b ds df =>
           exists a dsa dfa dsb dfb,
             PA a dsa dfa /\ PB a b dsb dfb /\ ds = dsa + dsb /\ df = dfa + dfb)
        (bind m k).
Proof.
  intros Hm Hk t c s f to Hc. unfold bind.
  destruct (Hm t c s f to Hc) as (t1 & r & Hrun & [Hok|[-> Hcancel]]); rewrite Hrun.
  - destruct Hok as (a & dsa & dfa & to1 & -> & HPA & Hc1).
    destruct (Hk a t1 _ _ _ _ Hc1) as (t2 & r2 & Hrun2 & [Hok2|Hcancel2]).
    + destruct Hok2 as (b & dsb & dfb & to2 & -> & HPB & Hc2).
      exists t2, (Ok b). split; [exact Hrun2|]. left.
      exists b, (dsa + dsb), (dfa + dfb), to2. split; [reflexivity|].
      split; [exists a, dsa, dfa, dsb, dfb; auto|].
      rewrite Hc2. apply counters_eq; lia.
    + exists t2, r2. auto.
  - exists t1, (Raise CancelledError). auto.
Qed.

Lemma books_sleep (deadline d : Q) :
  books (fun _ ds df => ds = 0 /\ df = 0) (sleep deadline d).
Proof.
  intros t c s f to Hc. unfold sleep.
  destruct (Qle_bool deadline (clock t + d)).
  - eexists _, _. split; [reflexivity|]. right. split; [reflexivity|].
    exists c, s, f, to. exact Hc.
  - eexists _, _. split; [reflexivity|]. left.
    exists tt, 0, 0, to. split; [reflexivity|]. split; [auto|].
    cbn. rewrite Hc. apply counters_eq; lia.
Qed.

Lemma books_fetch (cut : Q) (uid api_name : string)
    (env : nat -> attempt_env) (timeout : Q) :
  books (fun r ds df => outcomes 1 [r] ds df)
        (fetch_token_with_timeout_under cut uid api_name env timeout).
Proof.
  intros t c s f to Hc. unfold fetch_token_with_timeout_under.
  destruct (Qle_bool (clock t + timeout) cut).
  - destruct (fetch_token_with_timeout_cases uid api_name env timeout t c s f to Hc)
      as (t1 & r & Hrun & Hcases).
    exists t1, (Ok r). split; [exact Hrun|]. left.
    destruct Hcases as [(tok & -> & _ & Hc1)|[(-> & _ & Hc1)|(-> & _ & Hc1)]].
    + exists (Some tok), 1, 0, to. split; [reflexivity|].
      split; [repeat split|]. rewrite Hc1. apply counters_eq; lia.
    + exists None, 0, 1, to. split; [reflexivity|].
      split; [repeat split|]. rewrite Hc1. apply counters_eq; lia.
    + exists None, 0, 1, (Some (default 0 to + 1)). split; [reflexivity|].
      split; [repeat split|]. rewrite Hc1. apply counters_eq; lia.
  - destruct (fetch_token cut uid api_name env t) as [t1 r] eqn:Hrun.
    pose proof (fetch_token_counters _ _ _ _ _ _ _ _ _ _ _ Hc Hrun) as Hc1.
    exists t1, r. split; [reflexivity|].
    destruct r as [[tok|]|e].
    + left. exists (Some tok), 1, 0, to. split; [reflexivity|].
      split; [repeat split|]. rewrite Hc1. apply counters_eq; lia.
    + left. exists None, 0, 1, to. split; [reflexivity|].
      split; [repeat split|]. rewrite Hc1. apply counters_eq; lia.
    + destruct Hc1 as [-> Hc1]. right. split; [reflexivity|].
      exists c, s, f, to. exact Hc1.
Qed.

Lemma run_children_books {A B : Type} (f : A -> Q -> M B)
    (flat : B -> list (option TokenResult)) (w : A -> nat) (cut : Q) (xs : list A) :
  (forall x, books (fun b ds df => outcomes (w x) (flat b) ds df) (f x cut)) ->
  forall st ev c s f0 to,
    counters st = (Some c, Some s, Some f0, to) ->
    exists st2 ev2 took rs,
      run_children cut (map f xs) st ev = (st2, ev2, took, rs) /\
      ((exists bs ds df to1,
          rs = Ok bs /\
          outcomes (sum_sizes (map w xs)) (concat (map flat bs)) ds df /\
          counters st2 = (Some (c + ds + df), Some (s + ds), Some (f0 + df), to1)) \/
       (rs = Raise CancelledError /\
        exists c1 s1 f1 to1, counters st2 = (Some c1, Some s1, Some f1, to1))).
Proof.
  intros Hf. induction xs as [|x xs IH]; intros st ev c s f0 to Hc.
  - exists st, ev, 0%Q, (Ok []). split; [reflexivity|]. left.
    exists [], 0, 0, to. split; [reflexivity|]. split; [apply outcomes_nil|].
    rewrite Hc. apply counters_eq; lia.
  - cbn [map run_children].
    destruct (Hf x {| stats := st; pause_event := ev; clock := 0 |} c s f0 to Hc)
      as (t1 & r & Hrun & Hcases).
    rewrite Hrun.
    destruct Hcases as [(b & ds & df & to1 & -> & HP & Hc1)|[-> Hc1]].
    + destruct (IH (stats t1) (pause_event t1) _ _ _ _ Hc1)
        as (st2 & ev2 & took & rs & Hrest & Hcases).
      rewrite Hrest. eexists _, _, _, _. split; [reflexivity|].
      destruct Hcases as [(bs & ds2 & df2 & to2 & -> & HP2 & Hc2)|[-> Hc2]].
      * left. exists (b :: bs), (ds + ds2), (df + df2), to2.
        split; [reflexivity|]. split.
        -- cbn [map concat sum_sizes foldr]. fold (sum_sizes (map w xs)).
           apply outcomes_app; assumption.
        -- rewrite Hc2. apply counters_eq; lia.
      * right. auto.
    + destruct Hc1 as (c1 & s1 & f1 & to1 & Hc1).
      destruct (IH (stats t1) (pause_event t1) _ _ _ _ Hc1)
        as (st2 & ev2 & took & rs & Hrest & Hcases).
      rewrite Hrest. eexists _, _, _, _. split; [reflexivity|].
      right. split; [reflexivity|].
      destruct Hcases as [(bs & ds2 & df2 & to2 & _ & _ & Hc2)|[_ Hc2]]; eauto.
Qed.

Lemma books_gather {A B : Type} (f : A -> Q -> M B)
    (flat : B -> list (option TokenResult)) (w : A -> nat) (deadline : Q)
    (xs : list A) :
  (forall x cut, books (fun b ds df => outcomes (w x) (flat b) ds df) (f x cut)) ->
  books (fun bs ds df =>
           outcomes (sum_sizes (map w xs)) (concat (map flat bs)) ds df)
        (gather deadline (map f xs)).
Proof.
  intros Hf t c s f0 to Hc. unfold gather.
  destruct (run_children_books f flat w (deadline - clock t)%Q xs
              (fun x => Hf x _) (stats t) (pause_event t) c s f0 to Hc)
    as (st2 & ev2 & took & rs & Hrun & Hcases).
  rewrite Hrun. eexists _, _. split; [reflexivity|]. exact Hcases.
Qed.

Lemma concat_singletons {X : Type} (l : list X) :
  concat (map (fun x => [x]) l) = l.
Proof. induction l as [|x l IH]; [reflexivity|]. cbn. now rewrite IH. Qed.

Lemma books_batch_loop (deadline : Q) (net : Network) (api_name : string)
    (accounts : list Account) (batch_idxs : list nat) :
  forall all_results,
    books (fun rs ds df =>
             exists new, rs = all_results ++ new /\
                         outcomes (batch_total accounts batch_idxs) new ds df)
          (batch_loop deadline net api_name accounts batch_idxs all_results).
Proof.
  induction batch_idxs as [|batch_idx rest IH]; intros all_results.
  - apply books_ret. exists []. split; [now rewrite app_nil_r|apply outcomes_nil].
  - cbn [batch_loop].
    set (batch := slice accounts batch_idx (batch_idx + BATCH_SIZE)).
    eapply books_weaken;
      [|apply (books_bind
                 (fun bs ds df =>
                    outcomes (sum_sizes (map (fun _ => 1%nat) batch))
                             (concat (map (fun r => [r]) bs)) ds df)
                 (fun batch_results rs ds df =>
                    exists (u : unit) dsa dfa dsb dfb,
                      (dsa = 0 /\ dfa = 0) /\
                      (exists new, rs = (all_results ++ batch_results) ++ new /\
                                   outcomes (batch_total accounts rest) new dsb dfb) /\
                      ds = dsa + dsb /\ df = dfa + dfb))].
    + cbn beta.
      intros rs ds df (batch_results & dsa & dfa & dsb & dfb & Hbatch & Hrest & -> & ->).
      destruct Hrest as (u & d0 & f0 & dsc & dfc & [-> ->] & (new & -> & Hnew) & -> & ->).
      rewrite concat_singletons, sum_sizes_ones in Hbatch.
      exists (batch_results ++ new). split; [now rewrite app_assoc|].
      replace (0 + dsc) with dsc by lia. replace (0 + dfc) with dfc by lia.
      apply (outcomes_app _ _ _ _ _ _ _ _ Hbatch Hnew).
    + apply books_gather. intros acc cut. apply books_fetch.
    + intros batch_results.
      apply (books_bind (fun _ ds df => ds = 0 /\ df = 0)
               (fun _ rs ds df =>
                  exists new, rs = (all_results ++ batch_results) ++ new /\
                              outcomes (batch_total accounts rest) new ds df)).
      * destruct (batch_idx + BATCH_SIZE <? length accounts)%nat;
          [apply books_sleep|apply books_ret; auto].
      * intros _. apply IH.
Qed.

Lemma books_process_api_batch (deadline : Q) (net : Network) (api_name : string)
    (accounts : list Account) :
  books (outcomes (length accounts))
        (process_api_batch deadline net api_name accounts).
Proof.
  destruct accounts as [|acc accounts]; [apply books_ret, outcomes_nil|].
  unfold process_api_batch.
  eapply books_weaken; [|apply books_batch_loop].
  cbn beta. intros rs ds df (new & -> & Hnew).
  rewrite batch_total_range in Hnew. exact Hnew.
Qed.

Lemma books_fetch_all (net : Network) (valid_accounts : list Account)
    (deadline : Q) :
  books (outcomes (length valid_accounts))
        (fetch_all net (distribute_accounts_across_apis valid_accounts) deadline).
Proof.
  unfold fetch_all.
  assert (Hsum : sum_sizes (map (fun d => length (shard d))
                              (distribute_accounts_across_apis valid_accounts))
                 = length valid_accounts)
    by (apply (distribute_over_sizes API_URLS valid_accounts); discriminate).
  eapply books_weaken;
    [|apply (books_bind
               (fun lls ds df =>
                  outcomes (sum_sizes (map (fun d => length (shard d))
                              (distribute_accounts_across_apis valid_accounts)))
                           (concat (map (fun rs => rs) lls)) ds df)
               (fun lls rs ds df => rs = concat lls /\ ds = 0 /\ df = 0))].
  - cbn beta.
    intros rs ds df (lls & dsa & dfa & dsb & dfb & Hall & (-> & -> & ->) & -> & ->).
    rewrite map_id, Hsum in Hall.
    replace (dsa + 0) with dsa by lia. replace (dfa + 0) with dfa by lia.
    exact Hall.
  - apply (books_gather
             (fun '(_, api_name, accounts_group) =>
                fun cut => process_api_batch cut net api_name accounts_group)
             (fun rs => rs) (fun d => length (shard d))).
    intros [[api_url api_name] accounts_group] cut.
    apply books_process_api_batch.
  - intros lls. apply books_ret. auto.
Qed.

(** ** Region and run orchestrators *)

Lemma fetch_phase_outcome (net : Network) (valid_accounts : list Account)
    (t : Task) (c s f : Z) (to : option Z) :
  counters (stats t) = (Some c, Some s, Some f, to) ->
  exists t1 results,
    fetch_phase net (distribute_accounts_across_apis valid_accounts)
      (length valid_accounts) t = (t1, Ok results) /\
    length results = length valid_accounts /\
    ((snd (wait_for (fetch_all net (distribute_accounts_across_apis valid_accounts))
             REGION_TIMEOUT t) = Raise TimeoutError /\
      results = replicate (length valid_accounts) None) \/
     (snd (wait_for (fetch_all net (distribute_accounts_across_apis valid_accounts))
             REGION_TIMEOUT t) <> Raise TimeoutError /\
      exists to1,
        counters (stats t1)
        = (Some (c + Z.of_nat (length valid_accounts)),
           Some (s + tokens_in results), Some (f + absent_in results), to1))).
Proof.
  intros Hc. unfold fetch_phase, try_except_TimeoutError, wait_for.
  destruct (books_fetch_all net valid_accounts (clock t + REGION_TIMEOUT)%Q
              t c s f to Hc)
    as (t1 & r & Hrun & [(rs & ds & df & to1 & -> & (Hlen & -> & ->) & Hc1)|[-> _]]);
    rewrite Hrun.
  - exists t1, rs. split; [reflexivity|]. split; [exact Hlen|]. right.
    split; [discriminate|]. exists to1. rewrite Hc1.
    apply counters_eq; unfold absent_in; lia.
  - eexists _, _. split; [reflexivity|]. split; [apply length_replicate|].
    left. auto.
Qed.

Lemma persist_deletes (inp : RegionInput) (valid_tokens : list TokenResult)
    (fs : gmap string (list TokenResult)) :
  persist inp valid_tokens fs = delete (token_filename (region inp)) fs.
Proof.
  unfold persist. rewrite lookup_insert_eq. apply delete_insert_eq.
Qed.

Lemma process_region_shape (inp : RegionInput) (h : Host) :
  (valid_count inp = 0%nat /\ process_region inp h = (h, Ok None)) \/
  ((0 < valid_count inp)%nat /\
   exists st success_count,
     (success_count <= valid_count inp)%nat /\
     process_region inp h
     = ({| host_stats := st;
           files := delete (token_filename (region inp)) (files h) |},
        Ok (Some {| result_region := upper (region inp);
                    result_total := valid_count inp;
                    result_success := success_count;
                    result_failed := valid_count inp - success_count |}))).
Proof.
  unfold valid_count, process_region.
  destruct (loaded inp) as [accounts|]; [|left; auto].
  destruct (omap validate accounts) as [|acc valid] eqn:Hvalid; [left; auto|].
  right. split; [cbn; lia|].
  cbn [length Nat.eqb].
  destruct (fetch_phase_outcome (net inp) (acc :: valid)
              (region_task (region inp) (S (length valid)) (host_stats h))
              0 0 0 (Some 0) eq_refl)
    as (t1 & results & Hrun & Hlen & _).
  cbn [length] in Hrun. rewrite Hrun, persist_deletes.
  exists (stats t1), (length (omap id results)). split; [|reflexivity].
  pose proof (tokens_in_bounds results) as Hb. unfold tokens_in in Hb.
  rewrite Hlen in Hb. cbn [length] in Hb. lia.
Qed.


Lemma run_regions_returns (inputs : list RegionInput) :
  forall (h : Host) (results : list RegionResult),
    exists h1 rs,
      run_regions inputs h results = (h1, Ok (results ++ rs)) /\
      map result_total rs = filter (fun n => (0 < n)%nat) (map valid_count inputs) /\
      Forall (fun rr => (result_success rr + result_failed rr = result_total rr)%nat) rs.
Proof.
  induction inputs as [|inp rest IH]; intros h results.
  - exists h, []. cbn. rewrite app_nil_r. auto.
  - cbn [run_regions map].
    destruct (process_region_shape inp h)
      as [[Hzero Hrun]|[Hpos (st & k & Hk & Hrun)]]; rewrite Hrun.
    + destruct (IH h results) as (h1 & rs & Hrest & Htotals & Hsums).
      exists h1, rs. split; [exact Hrest|]. split; [|exact Hsums].
      rewrite filter_cons_False by lia. exact Htotals.
    + destruct (IH {| host_stats := st;
                      files := delete (token_filename (region inp)) (files h) |}
                   (results ++
                    [{| result_region := upper (region inp);
                        result_total := valid_count inp;
                        result_success := k;
                        result_failed := valid_count inp - k |}]))
        as (h1 & rs & Hrest & Htotals & Hsums).
      eexists h1, (_ :: rs). rewrite Hrest.
      split; [now rewrite <- app_assoc|]. split.
      * rewrite filter_cons_True by exact Hpos. cbn [map result_total].
        now rewrite Htotals.
      * constructor; [cbn; lia|exact Hsums].
Qed.





(** ** Properties of the dict that every step keeps *)

Section Preserves.

Variable I : Stats -> Prop.

Lemma preserves_ret {B : Type} (b : B) : preserves I (ret b).
Proof. intros t t1 r HI H. injection H as <- _. exact HI. Qed.

Lemma preserves_bind {A B : Type} (m : M A) (k : A -> M B) :
  preserves I m -> (forall a, preserves I (k a)) -> preserves I (bind m k).
Proof.
  intros Hm Hk t t2 r HI H.
  apply bind_inv in H as [(t1 & a & H1 & H2)|(e & H1 & _)].
  - exact (Hk a _ _ _ (Hm _ _ _ HI H1) H2).
  - exact (Hm _ _ _ HI H1).
Qed.

Lemma preserves_sleep (deadline d : Q) : preserves I (sleep deadline d).
Proof.
  intros t t1 r HI H. unfold sleep in H.
  destruct (Qle_bool deadline (clock t + d)); injection H as <- _; exact HI.
Qed.

Lemma preserves_wait_for {B : Type} (body : Q -> M B) (timeout : Q) :
  (forall deadline, preserves I (body deadline)) ->
  preserves I (wait_for body timeout).
Proof.
  intros Hbody t t1 r HI H. unfold wait_for in H.
  destruct (body (clock t + timeout)%Q t) as [t2 r2] eqn:Hrun.
  assert (Ht : t1 = t2) by (destruct r2 as [b|[]]; injection H as <- _; reflexivity).
  subst t2. exact (Hbody _ _ _ _ HI Hrun).
Qed.

Lemma preserves_try_except_TimeoutError {B : Type} (body handler : M B) :
  preserves I body -> preserves I handler ->
  preserves I (try_except_TimeoutError body handler).
Proof.
  intros Hbody Hhandler t t1 r HI H. unfold try_except_TimeoutError in H.
  destruct (body t) as [t2 r2] eqn:Hrun.
  pose proof (Hbody _ _ _ HI Hrun) as HI2.
  destruct r2 as [b|[]]; try (injection H as <- _; exact HI2).
  exact (Hhandler _ _ _ HI2 H).
Qed.

Lemma run_children_preserves {A B : Type} (f : A -> Q -> M B) (cut : Q)
    (xs : list A) :
  (forall x, preserves I (f x cut)) ->
  forall st ev st2 ev2 took rs,
    I st ->
    run_children cut (map f xs) st ev = (st2, ev2, took, rs) -> I st2.
Proof.
  intros Hf. induction xs as [|x xs IH]; intros st ev st2 ev2 took rs HI H.
  - injection H as <- _ _ _. exact HI.
  - cbn [map run_children] in H.
    destruct (f x cut {| stats := st; pause_event := ev; clock := 0 |})
      as [t1 r] eqn:Hrun.
    destruct (run_children cut (map f xs) (stats t1) (pause_event t1))
      as [[[st3 ev3] took3] rs3] eqn:Hrest.
    injection H as <- _ _ _.
    apply (IH _ _ _ _ _ _
             (Hf x {| stats := st; pause_event := ev; clock := 0 |} _ _ HI Hrun)
             Hrest).
Qed.

Lemma preserves_gather {A B : Type} (f : A -> Q -> M B) (deadline : Q)
    (xs : list A) :
  (forall x cut, preserves I (f x cut)) ->
  preserves I (gather deadline (map f xs)).
Proof.
  intros Hf t t1 r HI H. unfold gather in H.
  destruct (run_children (deadline - clock t)%Q (map f xs) (stats t) (pause_event t))
    as [[[st2 ev2] took] rs] eqn:Hrun.
  injection H as <- _.
  exact (run_children_preserves f _ xs (fun x => Hf x _) _ _ _ _ _ _ HI Hrun).
Qed.

Variable net : Network.
Hypothesis fetch_keeps :
  forall api_name acc cut, preserves I (bounded_fetch net api_name acc cut).

Lemma preserves_batch_loop (deadline : Q) (api_name : string)
    (accounts : list Account) (batch_idxs : list nat) :
  forall all_results,
    preserves I (batch_loop deadline net api_name accounts batch_idxs all_results).
Proof.
  induction batch_idxs as [|batch_idx rest IH]; intros all_results.
  - apply preserves_ret.
  - cbn [batch_loop]. apply preserves_bind.
    + apply preserves_gather. intros acc cut. apply fetch_keeps.
    + intros batch_results. apply preserves_bind; [|intros _; apply IH].
      destruct (batch_idx + BATCH_SIZE <? length accounts)%nat;
        [apply preserves_sleep|apply preserves_ret].
Qed.

Lemma preserves_process_api_batch (deadline : Q) (api_name : string)
    (accounts : list Account) :
  preserves I (process_api_batch deadline net api_name accounts).
Proof.
  destruct accounts as [|acc accounts]; [apply preserves_ret|].
  apply preserves_batch_loop.
Qed.

Lemma preserves_fetch_phase
    (api_distribution : list (string * string * list Account)) (total_valid : nat) :
  preserves I (fetch_phase net api_distribution total_valid).
Proof.
  unfold fetch_phase.
  apply preserves_try_except_TimeoutError; [|apply preserves_ret].
  apply preserves_wait_for. intros deadline. unfold fetch_all.
  apply preserves_bind; [|intros api_results; apply preserves_ret].
  apply (preserves_gather
           (fun '(_, api_name, accounts_group) =>
              fun cut => process_api_batch cut net api_name accounts_group)).
  intros [[api_url api_name] accounts_group] cut.
  apply preserves_process_api_batch.
Qed.

End Preserves.

Lemma bounded_fetch_failures_are_timeouts (net : Network) (api_name : string)
    (acc : Account) (cut : Q) :
  well_timed (net api_name acc) ->
  preserves failures_are_timeouts (bounded_fetch net api_name acc cut).
Proof.
  intros Henv t t1 r (c & s & f & Hc) H.
  unfold bounded_fetch, fetch_token_with_timeout_under in H.
  destruct (Qle_bool (clock t + ITEM_TIMEOUT) cut) eqn:Hown.
  - destruct (fetch_cases_well_timed (uid acc) api_name (net api_name acc)
                t c s f (Some f) Henv Hc)
      as (t2 & r2 & Hrun & Hcases).
    rewrite Hrun in H. injection H as <- _.
    destruct Hcases as [(tok & _ & Hc1)|(_ & _ & Hc1)].
    + exists (c + 1), (s + 1), f. exact Hc1.
    + exists (c + 1), s, (f + 1). exact Hc1.
  - assert (Hcut : (cut <= clock t + ITEM_TIMEOUT)%Q).
    { assert (~ (clock t + ITEM_TIMEOUT <= cut)%Q)
        by (rewrite <- Qle_bool_iff, Hown; discriminate).
      lra. }
    pose proof (fetch_token_counters _ _ _ _ _ _ _ _ _ _ _ Hc H) as Hc1.
    destruct r as [[tok|]|e].
    + exists (c + 1), (s + 1), f. exact Hc1.
    + exfalso. exact (fetch_token_never_runs_out _ _ _ _ _ _ Henv Hcut H).
    + destruct Hc1 as [_ Hc1]. exists c, s, f. exact Hc1.
Qed.


(** ** How long the fetch phase can take *)

Section Over.

Variable deadline : Q.

Lemma over_same_clock {B : Type} (m : M B) :
  (forall t t1 r, m t = (t1, r) -> clock t1 = clock t) -> over_by deadline m.
Proof. intros Hm t t1 r Hle H. rewrite (Hm _ _ _ H). exact Hle. Qed.

Lemma over_ret {B : Type} (b : B) : over_by deadline (ret b).
Proof. apply over_same_clock. intros t t1 r H. injection H as <- _. reflexivity. Qed.

Lemma over_raise {B : Type} (e : exn) : over_by deadline (@raise B e).
Proof. apply over_same_clock. intros t t1 r H. injection H as <- _. reflexivity. Qed.

Lemma over_bind {A B : Type} (m : M A) (k : A -> M B) :
  over_by deadline m -> (forall a, over_by deadline (k a)) ->
  over_by deadline (bind m k).
Proof.
  intros Hm Hk t t2 r Hle H.
  apply bind_inv in H as [(t1 & a & H1 & H2)|(e & H1 & _)].
  - exact (Hk a _ _ _ (Hm _ _ _ Hle H1) H2).
  - exact (Hm _ _ _ Hle H1).
Qed.

Lemma over_sleep (d : Q) : over_by deadline (sleep deadline d).
Proof.
  intros t t1 r _ H. unfold sleep in H.
  destruct (Qle_bool deadline (clock t + d)) eqn:Hcut; injection H as <- _; cbn.
  - apply Qle_refl.
  - assert (~ (deadline <= clock t + d)%Q)
      by (rewrite <- Qle_bool_iff, Hcut; discriminate).
    lra.
Qed.

Lemma over_park : over_by deadline (park deadline).
Proof. intros t t1 r _ H. injection H as <- _. cbn. apply Qle_refl. Qed.

Lemma over_incr (key : string) (get : Stats -> option Z)
    (set : option Z -> Stats -> Stats) : over_by deadline (incr key get set).
Proof.
  apply over_same_clock. intros t t1 r H. unfold incr in H.
  destruct (get (stats t)); injection H as <- _; reflexivity.
Qed.

Lemma over_session_get (e : attempt_env) : over_by deadline (session_get deadline e).
Proof.
  unfold session_get. destruct (Qle_bool REQUEST_TIMEOUT (latency e));
    (apply over_bind; [apply over_sleep|intros _]);
    [apply over_raise|apply over_ret].
Qed.

Lemma over_coordinate_pause (uid : string) :
  over_by deadline (coordinate_pause deadline uid).
Proof.
  assert (Hstate : forall f : Task -> Task,
             (forall t, clock (f t) = clock t) ->
             over_by deadline (fun t => (f t, Ok tt))).
  { intros f Hf. apply over_same_clock. intros t t1 r H.
    injection H as <- _. apply Hf. }
  unfold coordinate_pause.
  apply over_bind;
    [apply over_same_clock; intros t t1 r H; injection H as <- _; reflexivity|].
  intros [m|]; [|apply over_ret].
  destruct (handle_rate_limit m uid) as [m1 is_first].
  apply over_bind; [apply Hstate; reflexivity|]. intros _.
  destruct is_first.
  - apply over_bind; [apply Hstate; reflexivity|]. intros _.
    apply over_bind; [apply over_sleep|]. intros _.
    apply over_bind; [apply Hstate; reflexivity|]. intros _.
    apply Hstate; reflexivity.
  - apply over_bind;
      [apply over_same_clock; intros t t1 r H; injection H as <- _; reflexivity|].
    intros ev. destruct (Event.is_set ev); [|apply over_ret].
    destruct (Event.wait ev); [apply over_sleep|apply over_park].
Qed.

Lemma over_attempt_body (uid api_name : string) (attempt : nat) (e : attempt_env) :
  over_by deadline (attempt_body deadline uid api_name attempt e).
Proof.
  unfold attempt_body. apply over_bind.
  { destruct (0 <? attempt)%nat; [apply over_sleep|apply over_ret]. }
  intros _. apply over_bind; [apply over_session_get|].
  intros [status body|]; [|apply over_raise].
  destruct (status =? 200).
  - destruct body as [|tok]; [apply over_raise|].
    destruct (truthy tok); [|apply over_ret].
    apply over_bind; [apply over_incr|]. intros _.
    apply over_bind; [apply over_incr|]. intros _.
    apply over_bind;
      [apply over_same_clock; intros t t1 r H; injection H as <- _; reflexivity|].
    intros _. apply over_ret.
  - destruct (status =? 429); [|apply over_ret].
    apply over_bind; [apply over_coordinate_pause|]. intros _. apply over_ret.
Qed.

Lemma over_retry_loop (uid api_name : string) (env : nat -> attempt_env)
    (remaining : nat) :
  forall attempt, over_by deadline (retry_loop remaining attempt deadline uid api_name env).
Proof.
  induction remaining as [|remaining IH]; intros attempt; [apply over_ret|].
  cbn [retry_loop]. apply over_bind.
  - intros t t1 r Hle H. unfold try_except_Exception in H.
    destruct (attempt_body deadline uid api_name attempt (env attempt) t)
      as [t2 r2] eqn:Hbody.
    pose proof (over_attempt_body _ _ _ _ _ _ _ Hle Hbody) as Hle2.
    destruct r2 as [a|e2]; [injection H as <- _; exact Hle2|].
    destruct (is_Exception e2); injection H as <- _; exact Hle2.
  - intros [tok|]; [apply over_ret|].
    destruct (attempt =? MAX_RETRIES - 1)%nat; [apply over_ret|apply IH].
Qed.

Lemma over_fetch_token (uid api_name : string) (env : nat -> attempt_env) :
  over_by deadline (fetch_token deadline uid api_name env).
Proof.
  unfold fetch_token. apply over_bind; [apply over_retry_loop|].
  intros [tok|]; [apply over_ret|].
  apply over_bind; [apply over_incr|]. intros _.
  apply over_bind; [apply over_incr|]. intros _. apply over_ret.
Qed.

End Over.

Lemma fetch_token_with_timeout_duration (uid api_name : string)
    (env : nat -> attempt_env) (timeout : Q) (t t1 : Task)
    (r : result (option TokenResult)) :
  (0 <= timeout)%Q ->
  fetch_token_with_timeout uid api_name env timeout t = (t1, r) ->
  (clock t1 <= clock t + timeout)%Q.
Proof.
  intros Hto H.
  unfold fetch_token_with_timeout, try_except_TimeoutError, wait_for in H.
  destruct (fetch_token (clock t + timeout) uid api_name env t) as [t2 r2] eqn:Hin.
  assert (Hle : (clock t2 <= clock t + timeout)%Q).
  { refine (over_fetch_token _ _ _ _ _ _ _ _ Hin).
    clear - Hto. set (c := clock t) in *. clearbody c. lra. }
  assert (Hhandler : forall t3 r3,
             (incr_failed ;;; incr_completed ;;; incr_timed_out ;;; ret None) t2
             = (t3, r3 : result (option TokenResult)) -> clock t3 = clock t2).
  { intros t3 r3 H3.
    unfold bind, incr_failed, incr_completed, incr, incr_timed_out, ret in H3.
    destruct (failed (stats t2)); [|injection H3 as <- _; reflexivity].
    cbn in H3.
    destruct (completed (stats t2)); injection H3 as <- _; reflexivity. }
  destruct r2 as [a|[]]; try (injection H as <- _; exact Hle);
    rewrite (Hhandler _ _ H); exact Hle.
Qed.

Lemma later_le (a b d : Q) : (a <= d)%Q -> (b <= d)%Q -> (later a b <= d)%Q.
Proof. intros Ha Hb. unfold later. destruct (Qle_bool a b); assumption. Qed.

Lemma over_fetch_token_with_timeout_under (cut : Q) (uid api_name : string)
    (env : nat -> attempt_env) (timeout : Q) :
  (0 <= timeout)%Q ->
  over_by cut (fetch_token_with_timeout_under cut uid api_name env timeout).
Proof.
  intros Hto t t1 r Hle H. unfold fetch_token_with_timeout_under in H.
  destruct (Qle_bool (clock t + timeout) cut) eqn:Hown.
  - apply Qle_bool_iff in Hown.
    pose proof (fetch_token_with_timeout_duration _ _ _ _ _ _ _ Hto H) as Hd.
    clear - Hown Hd. set (a := clock t1) in *. set (b := clock t) in *.
    clearbody a b. lra.
  - exact (over_fetch_token _ _ _ _ _ _ _ Hle H).
Qed.

Lemma run_children_over {A B : Type} (f : A -> Q -> M B) (cut : Q) (xs : list A) :
  (0 <= cut)%Q ->
  (forall x, over_by cut (f x cut)) ->
  forall st ev st2 ev2 took rs,
    run_children cut (map f xs) st ev = (st2, ev2, took, rs) -> (took <= cut)%Q.
Proof.
  intros Hcut Hf. induction xs as [|x xs IH]; intros st ev st2 ev2 took rs H.
  - injection H as _ _ <- _. exact Hcut.
  - cbn [map run_children] in H.
    destruct (f x cut {| stats := st; pause_event := ev; clock := 0 |})
      as [t1 r] eqn:Hrun.
    destruct (run_children cut (map f xs) (stats t1) (pause_event t1))
      as [[[st3 ev3] took3] rs3] eqn:Hrest.
    injection H as _ _ <- _.
    apply later_le; [|exact (IH _ _ _ _ _ _ Hrest)].
    exact (Hf x {| stats := st; pause_event := ev; clock := 0 |} _ _ Hcut Hrun).
Qed.

Lemma over_gather {A B : Type} (f : A -> Q -> M B) (deadline : Q) (xs : list A) :
  (forall x cut, over_by cut (f x cut)) ->
  over_by deadline (gather deadline (map f xs)).
Proof.
  intros Hf t t1 r Hle H. unfold gather in H.
  destruct (run_children (deadline - clock t)%Q (map f xs) (stats t) (pause_event t))
    as [[[st2 ev2] took] rs] eqn:Hrun.
  injection H as <- _. cbn [clock].
  assert (Hcut : (0 <= deadline - clock t)%Q) by lra.
  pose proof (run_children_over f _ xs Hcut (fun x => Hf x _) _ _ _ _ _ _ Hrun) as Htook.
  clear - Htook. set (c := clock t) in *. clearbody c. lra.
Qed.

Lemma over_batch_loop (deadline : Q) (net : Network) (api_name : string)
    (accounts : list Account) (batch_idxs : list nat) :
  forall all_results,
    over_by deadline (batch_loop deadline net api_name accounts batch_idxs all_results).
Proof.
  induction batch_idxs as [|batch_idx rest IH]; intros all_results.
  - apply over_ret.
  - cbn [batch_loop]. apply over_bind.
    + apply over_gather. intros acc cut.
      apply over_fetch_token_with_timeout_under. unfold ITEM_TIMEOUT. lra.
    + intros batch_results. apply over_bind; [|intros _; apply IH].
      destruct (batch_idx + BATCH_SIZE <? length accounts)%nat;
        [apply over_sleep|apply over_ret].
Qed.

Lemma over_process_api_batch (deadline : Q) (net : Network) (api_name : string)
    (accounts : list Account) :
  over_by deadline (process_api_batch deadline net api_name accounts).
Proof.
  destruct accounts as [|acc accounts]; [apply over_ret|]. apply over_batch_loop.
Qed.

Lemma over_fetch_all (net : Network)
    (api_distribution : list (string * string * list Account)) (deadline : Q) :
  over_by deadline (fetch_all net api_distribution deadline).
Proof.
  unfold fetch_all. apply over_bind; [|intros api_results; apply over_ret].
  apply (over_gather
           (fun '(_, api_name, accounts_group) =>
              fun cut => process_api_batch cut net api_name accounts_group)).
  intros [[api_url api_name] accounts_group] cut. apply over_process_api_batch.
Qed.

(** X12.  A record never holds its slot longer than the per-item timeout:
    whatever the endpoint does and however the call ends, the wrapped fetch
    is over at most [timeout] seconds after it started. *)
Theorem wrapped_fetch_ends_within_its_timeout (uid api_name : string)
    (env : nat -> attempt_env) (timeout : Q) (t t1 : Task)
    (r : result (option TokenResult)) :
  (0 <= timeout)%Q ->
  fetch_token_with_timeout uid api_name env timeout t = (t1, r) ->
  (clock t1 <= clock t + timeout)%Q.
Proof. apply fetch_token_with_timeout_duration. Qed.

Lemma wrapped_fetch_ends_within_its_timeout_witness :
  (0 <= ITEM_TIMEOUT)%Q /\
  (clock (fst (fetch_token_with_timeout "u1" "API_1" silent_endpoint ITEM_TIMEOUT
                 (region_start 1)))
     <= clock (region_start 1) + ITEM_TIMEOUT)%Q.
Proof.
  assert (Hto : (0 <= ITEM_TIMEOUT)%Q) by (unfold ITEM_TIMEOUT; lra).
  split; [exact Hto|].
  destruct (fetch_token_with_timeout "u1" "API_1" silent_endpoint ITEM_TIMEOUT
              (region_start 1)) as [t1 r] eqn:Hrun.
  exact (wrapped_fetch_ends_within_its_timeout "u1" "API_1" silent_endpoint
           ITEM_TIMEOUT (region_start 1) t1 r Hto Hrun).
Defined.


(** ** Regions that cannot reach the region timer *)

Lemma ITEM_TIMEOUT_nonneg : (0 <= ITEM_TIMEOUT)%Q.
Proof. unfold ITEM_TIMEOUT. lra. Qed.

Lemma in_time_ret {B : Type} (deadline : Q) (b : B) : in_time deadline 0 (ret b).
Proof.
  intros t c s f to Hc _. exists t, b, c, s, f, to.
  split; [reflexivity|]. split; [|exact Hc].
  set (x := clock t). clearbody x. lra.
Qed.

Lemma in_time_weaken {B : Type} (deadline d d' : Q) (m : M B) :
  (d <= d')%Q -> in_time deadline d m -> in_time deadline d' m.
Proof.
  intros Hd Hm t c s f to Hc Hbudget.
  assert (Hb : (clock t + d < deadline)%Q).
  { clear - Hd Hbudget. set (x := clock t) in *. clearbody x. lra. }
  destruct (Hm t c s f to Hc Hb) as (t1 & b & c1 & s1 & f1 & to1 & Hrun & Hle & Hc1).
  exists t1, b, c1, s1, f1, to1. split; [exact Hrun|]. split; [|exact Hc1].
  clear - Hle Hd. set (x := clock t) in *. set (y := clock t1) in *.
  clearbody x y. lra.
Qed.

Lemma in_time_bind {A B : Type} (deadline d1 d2 : Q) (m : M A) (k : A -> M B) :
  (0 <= d2)%Q ->
  in_time deadline d1 m -> (forall a, in_time deadline d2 (k a)) ->
  in_time deadline (d1 + d2) (bind m k).
Proof.
  intros Hd2 Hm Hk t c s f to Hc Hbudget.
  assert (Hb1 : (clock t + d1 < deadline)%Q).
  { clear - Hd2 Hbudget. set (x := clock t) in *. clearbody x. lra. }
  destruct (Hm t c s f to Hc Hb1) as (t1 & a & c1 & s1 & f1 & to1 & Hrun & Hle & Hc1).
  assert (Hb2 : (clock t1 + d2 < deadline)%Q).
  { clear - Hle Hbudget. set (x := clock t) in *. set (y := clock t1) in *.
    clearbody x y. lra. }
  destruct (Hk a t1 c1 s1 f1 to1 Hc1 Hb2)
    as (t2 & b & c2 & s2 & f2 & to2 & Hrun2 & Hle2 & Hc2).
  exists t2, b, c2, s2, f2, to2. unfold bind. rewrite Hrun.
  split; [exact Hrun2|]. split; [|exact Hc2].
  clear - Hle Hle2. set (x := clock t) in *. set (y := clock t1) in *.
  set (z := clock t2) in *. clearbody x y z. lra.
Qed.

Lemma in_time_sleep (deadline d : Q) : in_time deadline d (sleep deadline d).
Proof.
  intros t c s f to Hc Hbudget. unfold sleep.
  assert (Hcut : Qle_bool deadline (clock t + d) = false).
  { destruct (Qle_bool deadline (clock t + d)) eqn:Hcut; [|reflexivity].
    apply Qle_bool_iff in Hcut. exfalso.
    clear - Hcut Hbudget. set (x := clock t) in *. clearbody x. lra. }
  rewrite Hcut. eexists _, tt, c, s, f, to. split; [reflexivity|].
  split; [cbn; apply Qle_refl|exact Hc].
Qed.

Lemma in_time_bounded_fetch (net : Network) (api_name : string) (acc : Account)
    (cut : Q) :
  in_time cut ITEM_TIMEOUT (bounded_fetch net api_name acc cut).
Proof.
  intros t c s f to Hc Hbudget. unfold bounded_fetch, fetch_token_with_timeout_under.
  assert (Hown : Qle_bool (clock t + ITEM_TIMEOUT) cut = true).
  { apply Qle_bool_iff. clear - Hbudget. set (x := clock t) in *. clearbody x.
    set (y := ITEM_TIMEOUT) in *. clearbody y. lra. }
  rewrite Hown.
  destruct (fetch_token_with_timeout_cases (uid acc) api_name (net api_name acc)
              ITEM_TIMEOUT t c s f to Hc) as (t1 & r & Hrun & Hcases).
  assert (Hle : (clock t1 <= clock t + ITEM_TIMEOUT)%Q).
  { apply (fetch_token_with_timeout_duration _ _ _ _ _ _ _ ITEM_TIMEOUT_nonneg Hrun). }
  destruct Hcases as [(tok & _ & _ & Hc1)|[(_ & _ & Hc1)|(_ & _ & Hc1)]];
    eexists t1, r, _, _, _, _; (split; [exact Hrun|]); (split; [exact Hle|]);
    exact Hc1.
Qed.

Lemma run_children_in_time {A B : Type} (f : A -> Q -> M B) (cut d : Q)
    (xs : list A) :
  (0 <= d)%Q -> (d < cut)%Q ->
  (forall x, x ∈ xs -> in_time cut d (f x cut)) ->
  forall st ev c s f0 to,
    counters st = (Some c, Some s, Some f0, to) ->
    exists st2 ev2 took bs c2 s2 f2 to2,
      run_children cut (map f xs) st ev = (st2, ev2, took, Ok bs) /\
      (took <= d)%Q /\
      counters st2 = (Some c2, Some s2, Some f2, to2).
Proof.
  intros Hd Hcut. induction xs as [|x xs IH]; intros Hf st ev c s f0 to Hc.
  - exists st, ev, 0%Q, [], c, s, f0, to. split; [reflexivity|]. auto.
  - cbn [map run_children].
    destruct (Hf x ltac:(left) {| stats := st; pause_event := ev; clock := 0 |}
                c s f0 to Hc)
      as (t1 & b & c1 & s1 & f1 & to1 & Hrun & Hle & Hc1).
    { cbn [clock]. clear - Hcut. lra. }
    rewrite Hrun.
    destruct (IH (fun y Hy => Hf y ltac:(right; exact Hy))
                 (stats t1) (pause_event t1) c1 s1 f1 to1 Hc1)
      as (st2 & ev2 & took & bs & c2 & s2 & f2 & to2 & Hrest & Htook & Hc2).
    rewrite Hrest. exists st2, ev2, (later (clock t1) took), (b :: bs), c2, s2, f2, to2.
    split; [reflexivity|]. split; [|exact Hc2].
    apply later_le; [|exact Htook].
    cbn [clock] in Hle. clear - Hle. set (y := clock t1) in *. clearbody y. lra.
Qed.

Lemma in_time_gather {A B : Type} (f : A -> Q -> M B) (deadline d : Q)
    (xs : list A) :
  (0 <= d)%Q ->
  (forall x cut, x ∈ xs -> in_time cut d (f x cut)) ->
  in_time deadline d (gather deadline (map f xs)).
Proof.
  intros Hd Hf t c s f0 to Hc Hbudget. unfold gather.
  assert (Hcut : (d < deadline - clock t)%Q).
  { clear - Hbudget. set (x := clock t) in *. clearbody x. lra. }
  destruct (run_children_in_time f (deadline - clock t)%Q d xs Hd Hcut
              (fun x Hx => Hf x _ Hx) (stats t) (pause_event t) c s f0 to Hc)
    as (st2 & ev2 & took & bs & c2 & s2 & f2 & to2 & Hrun & Htook & Hc2).
  rewrite Hrun. eexists _, bs, c2, s2, f2, to2. split; [reflexivity|].
  split; [|exact Hc2]. cbn [clock].
  clear - Htook. set (x := clock t) in *. clearbody x. lra.
Qed.

Lemma in_time_batch_loop (deadline : Q) (net : Network) (api_name : string)
    (accounts : list Account) (batch_idxs : list nat) :
  forall all_results,
    in_time deadline (inject_Z (182 * Z.of_nat (length batch_idxs)))
            (batch_loop deadline net api_name accounts batch_idxs all_results).
Proof.
  induction batch_idxs as [|batch_idx rest IH]; intros all_results.
  - apply in_time_ret.
  - cbn [batch_loop].
    assert (Hrest : (0 <= inject_Z (182 * Z.of_nat (length rest)))%Q).
    { change 0%Q with (inject_Z 0). rewrite <- Zle_Qle. lia. }
    eapply in_time_weaken;
      [|apply (in_time_bind deadline ITEM_TIMEOUT
                 (BATCH_DELAY + inject_Z (182 * Z.of_nat (length rest))))].
    + replace (182 * Z.of_nat (length (batch_idx :: rest)))
        with (182 + 182 * Z.of_nat (length rest)) by (cbn [length]; lia).
      rewrite inject_Z_plus. unfold ITEM_TIMEOUT, BATCH_DELAY.
      set (k := inject_Z (182 * Z.of_nat (length rest))) in *. clearbody k.
      change (inject_Z 182) with 182%Q. clear. lra.
    + unfold BATCH_DELAY.
      set (k := inject_Z (182 * Z.of_nat (length rest))) in *. clearbody k.
      clear - Hrest. lra.
    + apply in_time_gather; [apply ITEM_TIMEOUT_nonneg|].
      intros acc cut _. apply in_time_bounded_fetch.
    + intros batch_results. apply in_time_bind; [exact Hrest| |intros _; apply IH].
      destruct (batch_idx + BATCH_SIZE <? length accounts)%nat;
        [apply in_time_sleep|].
      eapply in_time_weaken; [|apply in_time_ret]. unfold BATCH_DELAY. clear. lra.
Qed.

Lemma range_step_length (stop step : nat) :
  length (range_step stop step) = ((stop + step - 1) / step)%nat.
Proof. unfold range_step. now rewrite length_map, length_seq. Qed.

Lemma in_time_process_api_batch (deadline : Q) (net : Network) (api_name : string)
    (accounts : list Account) :
  (length accounts <= 180)%nat ->
  in_time deadline 1092 (process_api_batch deadline net api_name accounts).
Proof.
  intros Hlen.
  assert (Hrun : process_api_batch deadline net api_name accounts
                 = match accounts with
                   | [] => ret []
                   | _ => batch_loop deadline net api_name accounts
                            (range_step (length accounts) BATCH_SIZE) []
                   end) by reflexivity.
  rewrite Hrun. clear Hrun.
  destruct (decide (accounts = [])) as [->|Hne].
  - eapply in_time_weaken; [|apply in_time_ret]. clear. lra.
  - replace (match accounts with [] => ret [] | _ :: _ => _ end)
      with (batch_loop deadline net api_name accounts
              (range_step (length accounts) BATCH_SIZE) [])
      by (destruct accounts; [congruence|reflexivity]).
    eapply in_time_weaken; [|apply in_time_batch_loop].
    rewrite range_step_length.
    change 1092%Q with (inject_Z 1092). rewrite <- Zle_Qle.
    assert (Hk : ((length accounts + BATCH_SIZE - 1) / BATCH_SIZE <= 6)%nat).
    { unfold BATCH_SIZE.
      assert ((length accounts + 30 - 1) / 30 < 7)%nat; [|lia].
      apply Nat.Div0.div_lt_upper_bound. lia. }
    lia.
Qed.

Lemma small_region_small_shards (valid_accounts : list Account) :
  (length valid_accounts <= 540)%nat ->
  forall d, d ∈ distribute_accounts_across_apis valid_accounts ->
            (length (shard d) <= 180)%nat.
Proof.
  intros Hn d Hd.
  assert (Hin : length (shard d)
                ∈ shard_sizes (distribute_accounts_across_apis valid_accounts)).
  { unfold shard_sizes. apply list_elem_of_fmap. exists d. auto. }
  unfold distribute_accounts_across_apis in Hin.
  rewrite (proj1 (distribute_over_sizes API_URLS valid_accounts ltac:(discriminate)))
    in Hin.
  apply list_elem_of_fmap in Hin as (i & -> & _).
  change (length API_URLS) with 3%nat. unfold group_size.
  pose proof (Nat.div_mod_eq (length valid_accounts) 3) as Hdm.
  pose proof (Nat.mod_upper_bound (length valid_accounts) 3 ltac:(lia)) as Hm.
  destruct (i <? length valid_accounts mod 3)%nat eqn:Hi; [|lia].
  apply Nat.ltb_lt in Hi. lia.
Qed.

Lemma in_time_fetch_all (net : Network) (valid_accounts : list Account)
    (deadline : Q) :
  (length valid_accounts <= 540)%nat ->
  in_time deadline 1092
    (fetch_all net (distribute_accounts_across_apis valid_accounts) deadline).
Proof.
  intros Hn. unfold fetch_all.
  eapply in_time_weaken; [|apply (in_time_bind deadline 1092 0)].
  - clear. lra.
  - clear. lra.
  - apply (in_time_gather
             (fun '(_, api_name, accounts_group) =>
                fun cut => process_api_batch cut net api_name accounts_group)).
    + clear. lra.
    + intros [[api_url api_name] accounts_group] cut Hd.
      apply in_time_process_api_batch.
      exact (small_region_small_shards valid_accounts Hn _ Hd).
  - intros api_results. apply in_time_ret.
Qed.



(** ** Per-endpoint usage *)

Lemma usage_total_record (usage : gmap string Z) (api_name : string) :
  map_fold (fun _ n acc => n + acc) 0
    (<[api_name := default 0 (usage !! api_name) + 1]> usage)
  = map_fold (fun _ n acc => n + acc) 0 usage + 1.
Proof.
  assert (Hcomm : forall (m : gmap string Z) (j1 j2 : string) (z1 z2 y : Z),
             j1 <> j2 -> m !! j1 = Some z1 -> m !! j2 = Some z2 ->
             z1 + (z2 + y) = z2 + (z1 + y)) by (intros; lia).
  destruct (usage !! api_name) as [n|] eqn:Hn; cbn [default].
  - rewrite <- (insert_delete_eq usage api_name (n + 1)).
    rewrite map_fold_insert_L;
      [|apply Hcomm|apply lookup_delete_eq].
    rewrite <- (insert_id usage api_name n Hn) at 2.
    rewrite <- (insert_delete_eq usage api_name n).
    rewrite map_fold_insert_L;
      [|apply Hcomm|apply lookup_delete_eq].
    lia.
  - rewrite map_fold_insert_L; [|apply Hcomm|exact Hn]. lia.
Qed.

Section UsageTotal.

Variable base : Z.

Lemma preserves_same_stats {B : Type} (m : M B) :
  (forall t t1 r, m t = (t1, r) -> stats t1 = stats t) ->
  preserves (usage_tracks_success base) m.
Proof. intros Hm t t1 r HI H. rewrite (Hm _ _ _ H). exact HI. Qed.

Lemma preserves_raise_usage {B : Type} (e : exn) :
  preserves (usage_tracks_success base) (@raise B e).
Proof. apply preserves_same_stats. intros t t1 r H. injection H as <- _. reflexivity. Qed.

Lemma preserves_session_get_usage (deadline : Q) (e : attempt_env) :
  preserves (usage_tracks_success base) (session_get deadline e).
Proof.
  unfold session_get. destruct (Qle_bool REQUEST_TIMEOUT (latency e));
    (apply preserves_bind; [apply preserves_sleep|intros _]);
    [apply preserves_raise_usage|apply preserves_ret].
Qed.

Lemma preserves_modify_manager_usage (f : RateLimitManager -> RateLimitManager) :
  preserves (usage_tracks_success base) (modify_manager f).
Proof. intros t t1 r HI H. injection H as <- _. exact HI. Qed.

Lemma preserves_coordinate_pause_usage (deadline : Q) (uid : string) :
  preserves (usage_tracks_success base) (coordinate_pause deadline uid).
Proof.
  unfold coordinate_pause.
  apply preserves_bind;
    [apply preserves_same_stats; intros t t1 r H; injection H as <- _; reflexivity|].
  intros [m|]; [|apply preserves_ret].
  destruct (handle_rate_limit m uid) as [m1 is_first].
  apply preserves_bind; [apply preserves_modify_manager_usage|]. intros _.
  destruct is_first.
  - apply preserves_bind;
      [apply preserves_same_stats; intros t t1 r H; injection H as <- _; reflexivity|].
    intros _. apply preserves_bind; [apply preserves_sleep|]. intros _.
    apply preserves_bind;
      [apply preserves_same_stats; intros t t1 r H; injection H as <- _; reflexivity|].
    intros _. apply preserves_modify_manager_usage.
  - apply preserves_bind;
      [apply preserves_same_stats; intros t t1 r H; injection H as <- _; reflexivity|].
    intros ev. destruct (Event.is_set ev); [|apply preserves_ret].
    destruct (Event.wait ev); [apply preserves_sleep|].
    apply preserves_same_stats. intros t t1 r H. injection H as <- _. reflexivity.
Qed.

(** The three updates of a successful attempt, taken together. *)
Lemma preserves_success_usage (api_name : string) (tok : TokenResult) :
  preserves (usage_tracks_success base)
    (incr_success ;;; incr_completed ;;; record_api_usage api_name ;;;
     ret (Some tok)).
Proof.
  intros t t1 r (c & s & Hc & Hs & Hu) H.
  unfold bind, incr_success, incr_completed, incr, record_api_usage, ret in H.
  rewrite Hs in H. cbn in H. rewrite Hc in H. cbn in H.
  injection H as <- _. exists (c + 1), (s + 1). cbn.
  split; [reflexivity|]. split; [reflexivity|].
  unfold usage_total in *. cbn. rewrite usage_total_record, Hu. lia.
Qed.

Lemma preserves_failure_usage {B : Type} (b : B) :
  preserves (usage_tracks_success base) (incr_failed ;;; incr_completed ;;; ret b).
Proof.
  intros t t1 r (c & s & Hc & Hs & Hu) H.
  unfold bind, incr_failed, incr_completed, incr, ret in H.
  destruct (failed (stats t)) as [f|]; [|injection H as <- _; exists c, s; auto].
  cbn in H. rewrite Hc in H. cbn in H. injection H as <- _.
  exists (c + 1), s. cbn. auto.
Qed.

Lemma preserves_timeout_usage {B : Type} (b : B) :
  preserves (usage_tracks_success base)
    (incr_failed ;;; incr_completed ;;; incr_timed_out ;;; ret b).
Proof.
  intros t t1 r (c & s & Hc & Hs & Hu) H.
  unfold bind, incr_failed, incr_completed, incr, incr_timed_out, ret in H.
  destruct (failed (stats t)) as [f|]; [|injection H as <- _; exists c, s; auto].
  cbn in H. rewrite Hc in H. cbn in H. injection H as <- _.
  exists (c + 1), s. cbn. auto.
Qed.

Lemma preserves_attempt_body_usage (deadline : Q) (uid api_name : string)
    (attempt : nat) (e : attempt_env) :
  preserves (usage_tracks_success base) (attempt_body deadline uid api_name attempt e).
Proof.
  unfold attempt_body. apply preserves_bind.
  { destruct (0 <? attempt)%nat; [apply preserves_sleep|apply preserves_ret]. }
  intros _. apply preserves_bind; [apply preserves_session_get_usage|].
  intros [status body|]; [|apply preserves_raise_usage].
  destruct (status =? 200).
  - destruct body as [|tok]; [apply preserves_raise_usage|].
    destruct (truthy tok); [apply preserves_success_usage|apply preserves_ret].
  - destruct (status =? 429); [|apply preserves_ret].
    apply preserves_bind; [apply preserves_coordinate_pause_usage|].
    intros _. apply preserves_ret.
Qed.

Lemma preserves_retry_loop_usage (deadline : Q) (uid api_name : string)
    (env : nat -> attempt_env) (remaining : nat) :
  forall attempt,
    preserves (usage_tracks_success base)
      (retry_loop remaining attempt deadline uid api_name env).
Proof.
  induction remaining as [|remaining IH]; intros attempt; [apply preserves_ret|].
  cbn [retry_loop]. apply preserves_bind.
  - intros t t1 r HI H. unfold try_except_Exception in H.
    destruct (attempt_body deadline uid api_name attempt (env attempt) t)
      as [t2 r2] eqn:Hbody.
    pose proof (preserves_attempt_body_usage _ _ _ _ _ _ _ _ HI Hbody) as HI2.
    destruct r2 as [a|e2]; [injection H as <- _; exact HI2|].
    destruct (is_Exception e2); injection H as <- _; exact HI2.
  - intros [tok|]; [apply preserves_ret|].
    destruct (attempt =? MAX_RETRIES - 1)%nat; [apply preserves_ret|apply IH].
Qed.

Lemma preserves_fetch_token_usage (deadline : Q) (uid api_name : string)
    (env : nat -> attempt_env) :
  preserves (usage_tracks_success base) (fetch_token deadline uid api_name env).
Proof.
  unfold fetch_token. apply preserves_bind; [apply preserves_retry_loop_usage|].
  intros [tok|]; [apply preserves_ret|apply preserves_failure_usage].
Qed.

Lemma preserves_bounded_fetch_usage (net : Network) (api_name : string)
    (acc : Account) (cut : Q) :
  preserves (usage_tracks_success base) (bounded_fetch net api_name acc cut).
Proof.
  intros t t1 r HI H. unfold bounded_fetch, fetch_token_with_timeout_under in H.
  destruct (Qle_bool (clock t + ITEM_TIMEOUT) cut).
  - revert t t1 r HI H. unfold fetch_token_with_timeout.
    apply preserves_try_except_TimeoutError; [|apply preserves_timeout_usage].
    apply preserves_wait_for. intros deadline. apply preserves_fetch_token_usage.
  - exact (preserves_fetch_token_usage _ _ _ _ _ _ _ HI H).
Qed.

End UsageTotal.



(** ** Batches and endpoint names *)

Lemma concat_slices {A : Type} (l : list A) (step k : nat) :
  concat (map (fun j => slice l (j * step) (j * step + step)) (seq 0 k))
  = slice l 0 (k * step).
Proof.
  induction k as [|k IH].
  - reflexivity.
  - rewrite seq_S, map_app, concat_app, IH. cbn [map concat Nat.add].
    rewrite app_nil_r. rewrite slice_app by lia. f_equal. lia.
Qed.

(** X16.  The batches of an endpoint task are a partition of its records in
    order: concatenated they are the record list, none is empty, and none
    has more records than the semaphore of [bounded_fetch] has permits, so
    that no fetch of a batch ever waits for a permit. *)
Theorem batches_partition_the_records {A : Type} (accounts : list A) :
  concat (batches accounts) = accounts /\
  Forall (fun batch => (1 <= length batch <= MAX_CONCURRENT_PER_API)%nat)
         (batches accounts) /\
  length (batches accounts) = ((length accounts + BATCH_SIZE - 1) / BATCH_SIZE)%nat.
Proof.
  unfold batches, range_step, BATCH_SIZE, MAX_CONCURRENT_PER_API.
  set (n := length accounts). set (k := ((n + 30 - 1) / 30)%nat).
  assert (Hlow : (30 * k <= n + 29)%nat).
  { subst k. pose proof (Nat.Div0.mul_div_le (n + 30 - 1) 30). lia. }
  assert (Hhigh : (n <= k * 30)%nat).
  { subst k. pose proof (Nat.div_mod_eq (n + 30 - 1) 30) as Hdm.
    pose proof (Nat.mod_upper_bound (n + 30 - 1) 30 ltac:(lia)). lia. }
  rewrite map_map. split; [|split].
  - rewrite (concat_slices accounts 30 k). unfold slice.
    rewrite take_ge by (fold n; lia). apply drop_0.
  - apply Forall_forall. intros batch Hin.
    apply list_elem_of_fmap in Hin as (j & -> & Hj).
    apply elem_of_seq in Hj. unfold slice.
    rewrite length_drop, length_take. fold n. lia.
  - now rewrite length_map, length_seq.
Qed.

Lemma distribute_loop_names {A : Type} (accounts : list A) (base rem : nat)
    (urls : list string) : forall i start,
  api_names (distribute_loop accounts base rem i start urls)
  = map (fun j => ("API_" +:+ pretty (j + 1)%nat)%string) (seq i (length urls)).
Proof.
  induction urls as [|u urls IH]; intros i start; [reflexivity|].
  cbn [distribute_loop api_names map fst snd length seq].
  f_equal. apply IH.
Qed.

(** X17.  The endpoints of a distribution are named API_1, API_2, ... in
    configured order, and no two endpoints share a name, so that no two of
    them count into the same entry of [api_usage]. *)
Theorem endpoint_names_are_distinct {A : Type} (urls : list string)
    (accounts : list A) :
  api_names (distribute_over urls accounts)
  = map (fun j => ("API_" +:+ pretty (j + 1)%nat)%string) (seq 0 (length urls)) /\
  NoDup (api_names (distribute_over urls accounts)).
Proof.
  assert (Hnames := distribute_loop_names accounts
                      (length accounts / length urls)
                      (length accounts mod length urls) urls 0 0).
  unfold distribute_over. split; [exact Hnames|]. rewrite Hnames.
  apply NoDup_fmap_2; [|apply NoDup_seq].
  intros i j Heq. injection Heq as Heq.
  change (pretty (i + 1)%nat = pretty (j + 1)%nat) in Heq.
  apply (inj pretty) in Heq. lia.
Qed.
